(** * The release script [scripts/ci/publish.ts]: package graph, change impact,
    publish order and version selection.

    The development is a shallow embedding of the script.  Conventions:

    - a JavaScript object used as a map ([RawPackages], [Packages], the
      [dependencies] of a manifest) is an association list in insertion
      order, read with [oget] and written with [oset]; property names are
      assumed not to be integer-like, so enumeration order is insertion
      order, and no property is assigned under the name [__proto__]; where
      the script reads a property under a name that can be one of those
      that every object inherits from [Object.prototype] (the affected
      set of the resolver), the inherited property is what it finds
      ([truthyProperty]); the other lookups are of names that carry the
      [@prisma] scope or of own keys;
    - strings are [string]s of code units below 256;
    - a thrown exception is the [Throw] outcome of the [result] type;
    - whatever the script obtains from a collaborator outside the repository
      (the [path] module, the spawned [git], [npm] and [yarn] processes, the
      process environment) is a parameter of the function that uses it. *)

From Stdlib Require Import List String Ascii ZArith Lia Bool Arith Permutation.
From Stdlib Require Import DecimalString Relations ListDec Sorted.
Import ListNotations.
Local Open Scope string_scope.
Local Open Scope list_scope.

Set Implicit Arguments.

(** ** Outcomes of fallible code *)

Inductive error : Type :=
| TypeError (what : string)     (* property access on [undefined] *)
| Error (message : string).     (* [throw new Error(message)] *)

Inductive result (A : Type) : Type :=
| Ok (a : A)
| Throw (e : error).

Arguments Ok {A} a.
Arguments Throw {A} e.

Definition bind {A B} (r : result A) (k : A -> result B) : result B :=
  match r with
  | Ok a => k a
  | Throw e => Throw e
  end.

Notation "x <- r ;; k" := (bind r (fun x => k))
  (at level 61, r at next level, right associativity).

(** ** JavaScript objects as ordered maps *)

Module Obj.

Definition t (A : Type) : Type := list (string * A).

Definition keys {A} (o : t A) : list string := map fst o.
Definition values {A} (o : t A) : list A := map snd o.

(** [o[k]] *)
Fixpoint oget {A} (o : t A) (k : string) : option A :=
  match o with
  | [] => None
  | (k', v) :: o' => if String.eqb k k' then Some v else oget o' k
  end.

(** [o[k] = v]: an existing property keeps its place, a new one goes last. *)
Fixpoint oset {A} (k : string) (v : A) (o : t A) : t A :=
  match o with
  | [] => [(k, v)]
  | (k', v') :: o' =>
      if String.eqb k k' then (k, v) :: o' else (k', v') :: oset k v o'
  end.

(** [o] has the own property [k]: the truthiness of [o[k]] when the values
    are objects and [k] is no name that objects inherit. *)
Definition has {A} (o : t A) (k : string) : bool :=
  match oget o k with Some _ => true | None => false end.

End Obj.

Import Obj.

(** [arr.includes(value)] on an array of strings. *)
Definition includes (arr : list string) (value : string) : bool :=
  existsb (String.eqb value) arr.

(** The names under which every object literal finds a property of
    [Object.prototype]; each of these properties is a function or an
    object. *)
Definition inheritedProperties : list string :=
  [ "constructor"; "hasOwnProperty"; "isPrototypeOf"; "propertyIsEnumerable";
    "toLocaleString"; "toString"; "valueOf"; "__proto__";
    "__defineGetter__"; "__defineSetter__"; "__lookupGetter__";
    "__lookupSetter__" ].

(** Truthiness of [o[k]] for an object literal [o] whose own properties
    hold objects: an own property is truthy, and so is an inherited one. *)
Definition truthyProperty {A} (o : Obj.t A) (k : string) : bool :=
  has o k || includes inheritedProperties k.

(** ** Data model (publish.ts, lines 105-148) *)

Record PackageJson : Type := {
  pj_name : option string;
  pj_version : string;
  dependencies : option (Obj.t string);
  devDependencies : option (Obj.t string);
  scripts : option (Obj.t string)
}.

Record RawPackage : Type := {
  raw_path : string;
  raw_packageJson : PackageJson
}.

Definition RawPackages : Type := Obj.t RawPackage.

Record Package : Type := {
  name : string;
  path : string;
  version : string;
  usedBy : list string;
  usedByDev : list string;
  uses : list string;
  usesDev : list string;
  packageJson : PackageJson
}.

Definition Packages : Type := Obj.t Package.

Definition push_usedBy (p : Package) (n : string) : Package :=
  {| name := name p; path := path p; version := version p;
     usedBy := usedBy p ++ [n]; usedByDev := usedByDev p;
     uses := uses p; usesDev := usesDev p; packageJson := packageJson p |}.

Definition push_usedByDev (p : Package) (n : string) : Package :=
  {| name := name p; path := path p; version := version p;
     usedBy := usedBy p; usedByDev := usedByDev p ++ [n];
     uses := uses p; usesDev := usesDev p; packageJson := packageJson p |}.

(** ** Package loader: the reduction of [getPackages] (lines 129-134)

    The manifests found on disk are the argument; a manifest without a
    (truthy) name is left out. *)

Definition truthy_string (s : string) : bool := negb (String.eqb s "").

Definition getPackages (packages : list RawPackage) : RawPackages :=
  fold_left
    (fun acc p =>
       match pj_name (raw_packageJson p) with
       | Some n => if truthy_string n then oset n p acc else acc
       | None => acc
       end)
    packages [].

(** ** Dependency graph builder (lines 150-196) *)

Definition getPrismaDependencies (deps : option (Obj.t string)) : list string :=
  match deps with
  | None => []
  | Some d => filter (fun d => String.prefix "@prisma" d) (keys d)
  end.

Definition newPackage (n : string) (pkg : RawPackage) : Package :=
  {| version := pj_version (raw_packageJson pkg);
     name := n;
     path := raw_path pkg;
     usedBy := [];
     usedByDev := [];
     uses := getPrismaDependencies (dependencies (raw_packageJson pkg));
     usesDev := getPrismaDependencies (devDependencies (raw_packageJson pkg));
     packageJson := raw_packageJson pkg |}.

(** The first reduction: one fresh record per manifest. *)
Definition initialCache (packages : RawPackages) : Packages :=
  fold_left (fun acc e => oset (fst e) (newPackage (fst e) (snd e)) acc)
            packages [].

(** The state of the linking loops: the cache whose records are mutated in
    place, and what has been written with [console.info]. *)
Definition linkState : Type := (Packages * list string)%type.

Definition skipping (dependency : string) : string :=
  "Skipping " ++ dependency ++ " as it's not in this workspace".

Definition linkUse (pkgName : string) (st : linkState) (dependency : string)
  : linkState :=
  match oget (fst st) dependency with
  | Some target => (oset dependency (push_usedBy target pkgName) (fst st), snd st)
  | None => (fst st, snd st ++ [skipping dependency])
  end.

Definition linkUseDev (pkgName : string) (st : linkState) (devDependency : string)
  : linkState :=
  match oget (fst st) devDependency with
  | Some target =>
      (oset devDependency (push_usedByDev target pkgName) (fst st), snd st)
  | None => (fst st, snd st ++ [skipping devDependency])
  end.

(** One turn of the outer loop.  [name], [uses] and [usesDev] of a record
    are never written after its creation, so reading them from the record as
    it was enumerated is reading them from the cache. *)
Definition linkPackage (st : linkState) (pkg : Package) : linkState :=
  fold_left (linkUseDev (name pkg)) (usesDev pkg)
            (fold_left (linkUse (name pkg)) (uses pkg) st).

Definition linkAll (cache : Packages) : linkState :=
  fold_left linkPackage (values cache) (cache, []).

Definition getPackageDependencies (packages : RawPackages) : Packages :=
  fst (linkAll (initialCache packages)).

(** What the builder prints. *)
Definition getPackageDependencies_info (packages : RawPackages) : list string :=
  snd (linkAll (initialCache packages)).

(** ** Cycle detector (lines 198-210, 350-352) *)

Definition intersection (arr1 arr2 : list string) : list string :=
  filter (fun value => includes arr2 value) arr1.

Definition circlesOf (pkg : Package) : list string :=
  intersection (uses pkg ++ usesDev pkg) (usedBy pkg ++ usedByDev pkg).

Definition getCircularDependencies (packages : Packages) : list (list string) :=
  fold_left
    (fun circularDeps pkg =>
       let circles := circlesOf pkg in
       if (0 <? List.length circles)%nat then circularDeps ++ [circles] else circularDeps)
    (values packages) [].

(** ** Change-impact resolver (lines 212-245)

    [dirname] stands for [path.dirname]. *)

Section Resolver.

Variable dirname : string -> string.

(** [changes.find(c => c.startsWith(path.dirname(p.path)))], read as a
    condition: the string found, if any, must be truthy. *)
Definition directlyChanged (changes : list string) (p : Package) : bool :=
  match find (fun c => String.prefix (dirname (path p)) c) changes with
  | Some c => truthy_string c
  | None => false
  end.

Definition changedPackagesOf (packages : Packages) (changes : list string)
  : list Package :=
  filter (directlyChanged changes) (values packages).

(** The accumulator shared by all calls of [addDependants]: the object
    [affectedPackages], and the names at which a property of it has been
    assigned, in program order (a ghost record of the assignments). *)
Record affected : Type := {
  affectedPackages : Obj.t Package;
  assigned : list string
}.

Definition assign (k : string) (p : Package) (a : affected) : affected :=
  {| affectedPackages := oset k p (affectedPackages a);
     assigned := assigned a ++ [k] |}.

Definition initialAffected (changedPackages : list Package) : affected :=
  fold_left (fun acc p => assign (name p) p acc) changedPackages
            {| affectedPackages := []; assigned := [] |}.

Variable packages : Packages.

(** One [for] loop of [addDependants], given the function to call on a
    newly added package.  The test [!affectedPackages[dependency]] fails
    for a name already assigned and for a name that the object inherits.
    [packages[dependency]] being [undefined] makes the recursive call throw
    on its first property access.  [None] is the model running out of
    fuel. *)
Fixpoint addEach (rec : Package -> affected -> option (result affected))
         (names : list string) (a : affected) : option (result affected) :=
  match names with
  | [] => Some (Ok a)
  | dependency :: rest =>
      if truthyProperty (affectedPackages a) dependency then addEach rec rest a
      else
        match oget packages dependency with
        | None => Some (Throw (TypeError "Cannot read property 'usedBy' of undefined"))
        | Some p =>
            match rec p (assign dependency p a) with
            | Some (Ok a') => addEach rec rest a'
            | other => other
            end
        end
  end.

Fixpoint addDependants (fuel : nat) (pkg : Package) (a : affected)
  : option (result affected) :=
  match fuel with
  | O => None
  | S fuel' =>
      match addEach (addDependants fuel') (usedBy pkg) a with
      | Some (Ok a') => addEach (addDependants fuel') (usedByDev pkg) a'
      | other => other
      end
  end.

(** The final loop over the directly changed packages. *)
Fixpoint addAll (fuel : nat) (changedPackages : list Package) (a : affected)
  : option (result affected) :=
  match changedPackages with
  | [] => Some (Ok a)
  | pkg :: rest =>
      match addDependants fuel pkg a with
      | Some (Ok a') => addAll fuel rest a'
      | other => other
      end
  end.

Definition resolve (fuel : nat) (changes : list string)
  : option (result affected) :=
  let changedPackages := changedPackagesOf packages changes in
  addAll fuel changedPackages (initialAffected changedPackages).

End Resolver.

(** The recursion never nests deeper than the number of packages, so this
    much fuel is enough (lemma [resolve_total]). *)
Definition getPackagesAffectedByChange_run (dirname : string -> string)
  (packages : Packages) (changes : list string) : option (result affected) :=
  resolve dirname packages (S (List.length packages)) changes.

Definition getPackagesAffectedByChange (dirname : string -> string)
  (packages : Packages) (changes : list string) : option (result Packages) :=
  match getPackagesAffectedByChange_run dirname packages changes with
  | Some (Ok a) => Some (Ok (affectedPackages a))
  | Some (Throw e) => Some (Throw e)
  | None => None
  end.

(** ** Publish-order planner (lines 247-257) *)

Definition Dag : Type := Obj.t (list string).

Definition cycleError : error :=
  Error "the graph has a cycle".

(** Modelled from the spec: the routine [topo] of the package
    batching-toposort, which the script imports and the repository does not
    contain.  Section 4.4 of the specification describes it as a layered
    topological sort after Kahn: the nodes that no remaining edge points to
    are extracted together as the next batch and leave the graph with their
    outgoing edges, until the graph is empty; it fails when the graph has a
    cycle, which is when nodes remain and none of them can be extracted. *)
Definition indegree (g : Dag) (n : string) : nat :=
  count_occ string_dec (flat_map snd g) n.

Definition roots (g : Dag) : list string :=
  filter (fun n => (indegree g n =? 0)%nat) (keys g).

Definition removeNodes (batch : list string) (g : Dag) : Dag :=
  filter (fun e => negb (includes batch (fst e))) g.

Fixpoint layers (fuel : nat) (g : Dag) : option (result (list (list string))) :=
  match g with
  | [] => Some (Ok [])
  | _ :: _ =>
      match roots g with
      | [] => Some (Throw cycleError)
      | batch =>
          match fuel with
          | O => None
          | S fuel' =>
              match layers fuel' (removeNodes batch g) with
              | Some (Ok rest) => Some (Ok (batch :: rest))
              | other => other
              end
          end
      end
  end.

(** Each round removes a node, so as many rounds as there are nodes are
    enough (lemma [topo_total]). *)
Definition topo (g : Dag) : option (result (list (list string))) :=
  layers (List.length g) g.

Definition dagOf (packages : Packages) : Dag :=
  fold_left (fun acc curr => oset (name curr) (usedBy curr ++ usedByDev curr) acc)
            (values packages) [].

Definition getPublishOrder (packages : Packages)
  : option (result (list (list string))) :=
  topo (dagOf packages).

(** [arr.reduce((acc, val) => acc.concat(val), [])] (lines 346-348) *)
Definition flatten {A} (arr : list (list A)) : list A :=
  fold_left (fun acc val => acc ++ val) arr [].

(** ** Strings and numbers of the JavaScript runtime *)

Fixpoint dropWhile {A} (f : A -> bool) (l : list A) : list A :=
  match l with
  | [] => []
  | x :: l' => if f x then dropWhile f l' else l
  end.

Definition codeIn (lo hi : nat) (c : ascii) : bool :=
  let n := nat_of_ascii c in ((lo <=? n) && (n <=? hi))%nat.

(** White space and line terminators among the code units below 256. *)
Definition isWhiteSpace (c : ascii) : bool :=
  codeIn 9 13 c || Ascii.eqb c " "%char || (nat_of_ascii c =? 160)%nat.

(** [s.trim()] *)
Definition trim (s : string) : string :=
  string_of_list_ascii
    (rev (dropWhile isWhiteSpace
            (rev (dropWhile isWhiteSpace (list_ascii_of_string s))))).

(** [s.split(sep)] for a separator of one character. *)
Fixpoint split (sep : ascii) (s : string) : list string :=
  match s with
  | EmptyString => [""]
  | String c s' =>
      if Ascii.eqb c sep then "" :: split sep s'
      else match split sep s' with
           | w :: ws => String c w :: ws
           | [] => [String c ""]
           end
  end.

(** [arr.join(sep)] on an array of strings. *)
Definition join (sep : string) (arr : list string) : string := String.concat sep arr.

(** [s.includes(needle)] *)
Fixpoint includesString (needle s : string) : bool :=
  String.prefix needle s
  || match s with
     | EmptyString => false
     | String _ s' => includesString needle s'
     end.

(** ** Numbers

    The numbers of the script are IEEE 754 doubles.  Those it computes with
    are integers or infinite: the value of a string of digits, such a value
    plus one, the maximum of such values, and the [-Infinity] of an empty
    [Math.max].  A double that is an integer is written [Finite z], with
    [z] the integer it is equal to. *)
Inductive number : Type :=
| Finite (z : Z)
| Infinity
| NegInfinity.

(** The double nearest to the integer [z], ties going to the even
    significand.  Up to 2^53 every integer is a double; above, only the 53
    leading bits are kept, and what rounds to 2^1024 or more is infinite. *)
Definition roundToDouble (z : Z) : number :=
  let a := Z.abs z in
  if (a <=? 2 ^ 53)%Z then Finite z
  else
    let e := (Z.log2 a - 52)%Z in
    let q := Z.shiftr a e in
    let r := (a - Z.shiftl q e)%Z in
    let half := Z.shiftl 1 (e - 1) in
    let q' := if (half <? r)%Z || ((r =? half)%Z && Z.odd q) then (q + 1)%Z else q in
    let m := Z.shiftl q' e in
    if (2 ^ 1024 <=? m)%Z then (if (z <? 0)%Z then NegInfinity else Infinity)
    else Finite (Z.sgn z * m).

Definition digitValue (c : ascii) : Z := Z.of_nat (nat_of_ascii c) - 48.

(** [Number(s)] for a string of decimal digits: the double nearest to the
    integer that the digits denote. *)
Definition NumberOfDigits (digits : list ascii) : number :=
  roundToDouble (fold_left (fun acc c => 10 * acc + digitValue c)%Z digits 0%Z).

(** Truthiness of a number or [null]. *)
Definition truthy_number (v : option number) : bool :=
  match v with
  | Some (Finite z) => negb (z =? 0)%Z
  | Some Infinity => true
  | Some NegInfinity => true
  | None => false
  end.

(** [Math.max(...values)] *)
Definition numberMax (a b : number) : number :=
  match a, b with
  | Infinity, _ => Infinity
  | _, Infinity => Infinity
  | NegInfinity, _ => b
  | _, NegInfinity => a
  | Finite x, Finite y => Finite (Z.max x y)
  end.

Definition Math_max (values : list number) : number :=
  fold_left numberMax values NegInfinity.

(** [n + 1], rounded as every sum of doubles is. *)
Definition plusOne (n : number) : number :=
  match n with
  | Finite z => roundToDouble (z + 1)
  | Infinity => Infinity
  | NegInfinity => NegInfinity
  end.

(** The decimal digits of a natural number. *)
Definition digitsOf (z : Z) : string :=
  NilZero.string_of_uint (N.to_uint (Z.to_N z)).

(** [Number::toString] for a positive double [x] above 2^53: of the
    decimals [s * 10^(n-k)] with [k] digits in [s] that round to [x], the
    one with the fewest digits is printed, and of several the nearest to
    [x] (the even one when two are as near).  [n] is the number of digits
    before the decimal point of the decimal chosen, which is that of [x] or
    one more. *)
Definition candidate (x k n : Z) (s : Z) : list (Z * Z) :=
  if (10 ^ (k - 1) <=? s)%Z && (s <? 10 ^ k)%Z && (k <=? n)%Z
  then match roundToDouble (s * 10 ^ (n - k)) with
       | Finite y => if (y =? x)%Z then [(s, n)] else []
       | _ => []
       end
  else [].

Definition candidates (x d k : Z) : list (Z * Z) :=
  flat_map (fun n =>
              let s0 := (x / 10 ^ (n - k))%Z in
              candidate x k n s0 ++ candidate x k n (s0 + 1))
           [d; (d + 1)%Z].

Definition distance (x k : Z) (c : Z * Z) : Z :=
  Z.abs (fst c * 10 ^ (snd c - k) - x).

Definition nearer (x k : Z) (c best : Z * Z) : bool :=
  (distance x k c <? distance x k best)%Z
  || ((distance x k c =? distance x k best)%Z && Z.even (fst c)
      && negb (Z.even (fst best))).

Definition nearest (x k : Z) (cs : list (Z * Z)) : option (Z * Z) :=
  match cs with
  | [] => None
  | c :: rest =>
      Some (fold_left (fun best c' => if nearer x k c' best then c' else best) rest c)
  end.

Fixpoint shortest (x d : Z) (tries : nat) (k : Z) : option (Z * Z * Z) :=
  match tries with
  | O => None
  | S tries' =>
      match nearest x k (candidates x d k) with
      | Some (s, n) => Some (s, n, k)
      | None => shortest x d tries' (k + 1)
      end
  end.

Fixpoint zeros (n : nat) : string :=
  match n with
  | O => ""
  | S n' => String "0" (zeros n')
  end.

Definition bigToString (x : Z) : string :=
  let d := Z.of_nat (String.length (digitsOf x)) in
  match shortest x d 17 1 with
  | Some (s, n, k) =>
      if (n <=? 21)%Z then digitsOf s ++ zeros (Z.to_nat (n - k))
      else
        match digitsOf s with
        | String c more =>
            String c (if (k =? 1)%Z then "" else "." ++ more)
            ++ "e+" ++ digitsOf (n - 1)
        | EmptyString => ""
        end
  | None => digitsOf x
  end.

(** A number inside a template literal.  Up to 2^53 the digits printed are
    those of the integer. *)
Definition numberToString (n : number) : string :=
  match n with
  | Finite z =>
      let a := Z.abs z in
      (if (z <? 0)%Z then "-" else "")
      ++ (if (a <=? 2 ^ 53)%Z then digitsOf a else bigToString a)
  | Infinity => "Infinity"
  | NegInfinity => "-Infinity"
  end.

(** ** Regular expressions

    The two regular expressions of the script are terms of [regex]; they are
    run by a backtracking matcher that lists the ways a term can match in
    the order in which the runtime tries them (the left alternative first,
    the longest repetition first), so that the first one is the match that
    [exec] reports. *)

Inductive regex : Type :=
| Eps                               (* the empty pattern *)
| Bol                               (* ^ *)
| Eol                               (* $ *)
| Chr (f : ascii -> bool)           (* a character or a class *)
| Cat (r1 r2 : regex)
| Alt (r1 r2 : regex)               (* r1|r2 *)
| Star (r : regex)                  (* r* *)
| Group (n : string) (r : regex).   (* a capturing group *)

Definition Opt (r : regex) : regex := Alt r Eps.       (* r? *)
Definition Plus (r : regex) : regex := Cat r (Star r).  (* r+ *)

Definition lit (s : string) : regex :=
  fold_right (fun c r => Cat (Chr (Ascii.eqb c)) r) Eps (list_ascii_of_string s).

Record mstate : Type := {
  pos : nat;                          (* characters consumed so far *)
  rest : list ascii;                  (* what is left of the input *)
  caps : Obj.t (list ascii)           (* the groups captured so far *)
}.

(** A repetition: another round if the round before consumed something,
    and, after those, no further round. *)
Fixpoint starLoop (step : mstate -> list mstate) (n : nat) (st : mstate)
  : list mstate :=
  match n with
  | O => [st]
  | S n' =>
      flat_map (fun st' =>
                  if (List.length (rest st') <? List.length (rest st))%nat
                  then starLoop step n' st' else [])
               (step st)
      ++ [st]
  end.

Fixpoint matchesFrom (r : regex) (st : mstate) : list mstate :=
  match r with
  | Eps => [st]
  | Bol => if (pos st =? 0)%nat then [st] else []
  | Eol => match rest st with [] => [st] | _ :: _ => [] end
  | Chr f =>
      match rest st with
      | c :: s' =>
          if f c then [{| pos := S (pos st); rest := s'; caps := caps st |}] else []
      | [] => []
      end
  | Cat r1 r2 => flat_map (matchesFrom r2) (matchesFrom r1 st)
  | Alt r1 r2 => matchesFrom r1 st ++ matchesFrom r2 st
  | Star r' => starLoop (matchesFrom r') (List.length (rest st)) st
  | Group n r' =>
      map (fun st' =>
             {| pos := pos st'; rest := rest st';
                caps := oset n (firstn (pos st' - pos st) (rest st)) (caps st') |})
          (matchesFrom r' st)
  end.

(** [regex.exec(s)] without flags: the first match at the leftmost position
    that has one; the result is the groups of the match. *)
Fixpoint execFrom (r : regex) (p : nat) (s : list ascii)
  : option (Obj.t (list ascii)) :=
  match matchesFrom r {| pos := p; rest := s; caps := [] |} with
  | st :: _ => Some (caps st)
  | [] =>
      match s with
      | [] => None
      | _ :: s' => execFrom r (S p) s'
      end
  end.

Definition exec (r : regex) (s : string) : option (Obj.t (list ascii)) :=
  execFrom r 0 (list_ascii_of_string s).

(** A group of a match inside a template literal. *)
Definition groupText (groups : Obj.t (list ascii)) (n : string) : string :=
  match oget groups n with
  | Some w => string_of_list_ascii w
  | None => "undefined"
  end.

Definition groupChars (groups : Obj.t (list ascii)) (n : string) : list ascii :=
  match oget groups n with
  | Some w => w
  | None => []
  end.

Definition isDigit : ascii -> bool := codeIn 48 57.              (* \d, [0-9] *)
Definition isPositiveDigit : ascii -> bool := codeIn 49 57.      (* [1-9] *)
Definition isLetterOrHyphen (c : ascii) : bool :=               (* [a-zA-Z-] *)
  codeIn 97 122 c || codeIn 65 90 c || Ascii.eqb c "-"%char.
Definition isIdentChar (c : ascii) : bool :=                    (* [0-9a-zA-Z-] *)
  isDigit c || isLetterOrHyphen c.
Definition isChar (c : ascii) : ascii -> bool := Ascii.eqb c.

(** ** [patch] (lines 354-366) *)

(** [0|[1-9]\d*] *)
Definition numericRegex : regex :=
  Alt (Chr (isChar "0")) (Cat (Chr isPositiveDigit) (Star (Chr isDigit))).

(** [0|[1-9]\d*|\d*[a-zA-Z-][0-9a-zA-Z-]*] *)
Definition prereleaseIdRegex : regex :=
  Alt (Chr (isChar "0"))
      (Alt (Cat (Chr isPositiveDigit) (Star (Chr isDigit)))
           (Cat (Star (Chr isDigit))
                (Cat (Chr isLetterOrHyphen) (Star (Chr isIdentChar))))).

(** [[0-9a-zA-Z-]+] *)
Definition buildIdRegex : regex := Plus (Chr isIdentChar).

Definition dotted (r : regex) : regex := Cat r (Star (Cat (Chr (isChar ".")) r)).

Definition semverRegex : regex :=
  Cat Bol
  (Cat (Group "major" numericRegex)
  (Cat (Chr (isChar "."))
  (Cat (Group "minor" numericRegex)
  (Cat (Chr (isChar "."))
  (Cat (Group "patch" numericRegex)
  (Cat (Opt (Cat (Chr (isChar "-")) (Group "prerelease" (dotted prereleaseIdRegex))))
  (Cat (Opt (Cat (Chr (isChar "+")) (Group "buildmetadata" (dotted buildIdRegex))))
       Eol))))))).

Definition patch (version : string) : option string :=
  match exec semverRegex version with
  | Some groups =>
      Some (groupText groups "major" ++ "." ++ groupText groups "minor" ++ "."
            ++ numberToString (plusOne (NumberOfDigits (groupChars groups "patch"))))%string
  | None => None
  end.

(** [/alpha\.(\d+)/] *)
Definition alphaRegex : regex :=
  Cat (lit "alpha") (Cat (Chr (isChar ".")) (Group "1" (Plus (Chr isDigit)))).

(** ** Processes, the console and the environment

    What the script does to the outside is recorded as a trace of events:
    the commands it spawns through [execa.command], and the two console
    lines that name a package.  The other console output and the timers are
    not modelled.  Computations are functions from the trace so far to an
    outcome and the trace after; [Promise.all] and [pMap] are modelled as
    running their members one after the other, in the order of the array. *)

Inductive stdio : Type := pipe | inherit.

Inductive event : Type :=
| Spawn (cwd cmd : string) (io : stdio) (shell : bool)
| Testing (pkgName : string)
| Publishing (pkgName newVersion tag : string).

(** The rejection of [execa.command]. *)
Record ExecaError : Type := {
  stderr : option string;
  stack : option string;
  message : string
}.

Inductive processResult : Type :=
| Exited (stdout : string)
| Failed (e : ExecaError).

(** The collaborators of the script.  A process may answer differently
    each time, so its result depends on the trace so far. *)
Record Host : Type := {
  path_dirname : string -> string;
  path_join : list string -> string;
  execa_command : list event -> string -> string -> stdio -> bool -> processResult;
  chalk_red : string -> string;
  chalk_bold : string -> string;
  chalk_underline : string -> string;
  Date_parse : string -> option Z;       (* [new Date(s)]; [None] is Invalid Date *)
  fs_existsSync : string -> bool;
  BUILDKITE_TAG : option string;         (* [process.env.BUILDKITE_TAG] *)
  dirname__ : string                     (* [__dirname] of setup.ts *)
}.

Definition io (A : Type) : Type := list event -> result A * list event.

Definition ret {A} (a : A) : io A := fun t => (Ok a, t).

Definition throw {A} (e : error) : io A := fun t => (Throw e, t).

Definition bindIO {A B} (m : io A) (k : A -> io B) : io B :=
  fun t =>
    match m t with
    | (Ok a, t') => k a t'
    | (Throw e, t') => (Throw e, t')
    end.

Notation "x <~ m ;; k" := (bindIO m (fun x => k))
  (at level 61, m at next level, right associativity).

Definition emit (ev : event) : io unit := fun t => (Ok tt, t ++ [ev]).

(** [try { m } catch (e) { handler }] *)
Definition tryCatch {A} (m : io A) (handler : error -> io A) : io A :=
  fun t =>
    match m t with
    | (Ok a, t') => (Ok a, t')
    | (Throw e, t') => handler e t'
    end.

(** [Promise.all(ms)]: every member runs; the result is the array of the
    results, or the first rejection. *)
Fixpoint all {A} (ms : list (io A)) : io (list A) :=
  fun t =>
    match ms with
    | [] => (Ok [], t)
    | m :: rest =>
        let (r, t1) := m t in
        let (rs, t2) := all rest t1 in
        (match r, rs with
         | Ok a, Ok l => Ok (a :: l)
         | Throw e, _ => Throw e
         | Ok _, Throw e => Throw e
         end, t2)
    end.

(** A [for] loop with [await], or [pMap] with concurrency 1: the first
    failure ends it. *)
Fixpoint forEach {A} (f : A -> io unit) (l : list A) : io unit :=
  match l with
  | [] => ret tt
  | x :: rest => _ <~ f x ;; forEach f rest
  end.

(** A result of the model that may have run out of fuel.  The functions it
    is applied to never do (lemmas [resolve_total] and [topo_total]). *)
Definition ofFuel {A} (o : option (result A)) : io A :=
  match o with
  | Some (Ok a) => ret a
  | Some (Throw e) => throw e
  | None => throw (Error "out of fuel")
  end.

(** [a || b] on strings that may be undefined. *)
Definition orElse (a : option string) (b : option string) : option string :=
  match a with
  | Some s => if truthy_string s then a else b
  | None => b
  end.

(** [undefined] or a string inside a template literal or a concatenation. *)
Definition showString (s : option string) : string :=
  match s with
  | Some s => s
  | None => "undefined"
  end.

(** [null] or a string inside a template literal. *)
Definition showNullable (s : option string) : string :=
  match s with
  | Some s => s
  | None => "null"
  end.

Definition dquote : string := String (ascii_of_nat 34) "".
Definition newline : ascii := ascii_of_nat 10.

Section Script.

Variable h : Host.

(** The message of the error that [runResult] and [run] throw
    (lines 80-84 and 97-101). *)
Definition runError (cwd cmd : string) (e : ExecaError) : error :=
  Error (chalk_red h ("Error running " ++ chalk_bold h cmd ++ " in "
                      ++ chalk_underline h cwd ++ ":")
         ++ showString (orElse (orElse (stderr e) (stack e)) (Some (message e)))).

(** [runResult] (lines 71-86) *)
Definition runResult (cwd cmd : string) : io string :=
  fun t =>
    match execa_command h t cwd cmd pipe true with
    | Exited out => (Ok out, t ++ [Spawn cwd cmd pipe true])
    | Failed e => (Throw (runError cwd cmd e), t ++ [Spawn cwd cmd pipe true])
    end.

(** [run] (lines 88-103) *)
Definition run (cwd cmd : string) : io unit :=
  fun t =>
    match execa_command h t cwd cmd inherit true with
    | Exited _ => (Ok tt, t ++ [Spawn cwd cmd inherit true])
    | Failed e => (Throw (runError cwd cmd e), t ++ [Spawn cwd cmd inherit true])
    end.

(** ** Latest changes (lines 10-69) *)

Record Commit : Type := {
  date : option Z;
  dir : string;
  hash : option string;
  isMergeCommit : bool;
  parentCommits : list string
}.

Definition gitLog : string :=
  "git log --pretty=format:" ++ dquote ++ "%ad %H %P" ++ dquote
  ++ " --date=iso-strict -n 1".

(** [getLatestCommit] (lines 55-69) *)
Definition getLatestCommit (dir : string) : io Commit :=
  result <~ runResult dir gitLog ;;
  match split " " result with
  | [] => throw (TypeError "undefined is not iterable")
  | date :: after =>
      let commit := hd_error after in
      let parents := tl after in
      ret {| date := Date_parse h date;
             dir := dir;
             hash := commit;
             isMergeCommit := (1 <? List.length parents)%nat;
             parentCommits := parents |}
  end.

Definition noChanges : error :=
  Error "No changes detected. This must not happen!".

Definition diffTree (commit : Commit) : string :=
  "git diff-tree --no-commit-id --name-only -r "
  ++ (if isMergeCommit commit then join " " (parentCommits commit)
      else showString (hash commit)).

(** [getChangesFromCommit] (lines 40-53) *)
Definition getChangesFromCommit (commit : Commit) : io (list string) :=
  changes <~ runResult (dir commit) (diffTree commit) ;;
  if (0 <? String.length (trim changes))%nat
  then ret (map (fun change => path_join h [dir commit; change])
                (split newline changes))
  else throw noChanges.

(** The comparison function of the sort (lines 25-27); a comparison with
    an invalid date is false. *)
Definition dateBefore (a b : Commit) : bool :=
  match date a, date b with
  | Some x, Some y => (x <? y)%Z
  | _, _ => false
  end.

Definition compareCommits (a b : Commit) : Z :=
  if dateBefore a b then 1%Z else (-1)%Z.

(** [arr.sort(compare)], as an insertion sort: an element goes before the
    first one that the comparison does not put before it.  Every sort
    agrees with it when the comparison is a strict order on the array. *)
Fixpoint insertSorted {A} (compare : A -> A -> Z) (x : A) (l : list A) : list A :=
  match l with
  | [] => [x]
  | y :: l' =>
      if (0 <? compare x y)%Z then y :: insertSorted compare x l' else x :: l
  end.

Definition sort {A} (compare : A -> A -> Z) (l : list A) : list A :=
  fold_left (fun acc x => insertSorted compare x acc) l [].

(** [getLatestChanges] (lines 18-38) *)
Definition getLatestChanges (allRepos : bool) : io (list string) :=
  commits <~ all [getLatestCommit "prisma2"; getLatestCommit "lift";
                  getLatestCommit "photonjs"] ;;
  let commits := sort compareCommits commits in
  if allRepos then
    changes <~ all (map getChangesFromCommit commits) ;;
    ret (flatten changes)
  else
    match commits with
    | latestCommit :: _ => getChangesFromCommit latestCommit
    | [] => throw (TypeError "Cannot read property 'isMergeCommit' of undefined")
    end.

(** ** New version of the core packages (lines 259-296) *)

(** The increment that the regular expression finds in a version string. *)
Definition alphaOf (v : string) : option number :=
  match exec alphaRegex v with
  | Some groups => Some (NumberOfDigits (groupChars groups "1"))
  | None => None
  end.

Definition versionOf (packages : Packages) (k : string) : io string :=
  match oget packages k with
  | Some p => ret (version p)
  | None => throw (TypeError "Cannot read property 'version' of undefined")
  end.

Definition somes {A} (l : list (option A)) : list A :=
  flat_map (fun v => match v with Some a => [a] | None => [] end) l.

Definition nextAlpha (versions : list string) : string :=
  let alphaVersions :=
    filter truthy_number
      (map alphaOf (filter (fun v => (0 <? String.length (trim v))%nat) versions)) in
  let maxAlpha := Math_max (somes alphaVersions) in
  "2.0.0-alpha." ++ numberToString (plusOne maxAlpha).

(** [process.env.BUILDKITE_TAG], when it is set to a truthy value. *)
Definition tagOverride : option string :=
  match BUILDKITE_TAG h with
  | Some tag => if truthy_string tag then Some tag else None
  | None => None
  end.

Definition getNewPrisma2Version (packages : Packages) : io string :=
  match tagOverride with
  | Some tag => ret tag
  | None =>
      localPrisma2Version <~ versionOf packages "prisma2" ;;
      localPhotonVersion <~ versionOf packages "@prisma/photon" ;;
      remote <~ all [runResult "." "npm info prisma2@alpha version";
                     runResult "." "npm info @prisma/photon@alpha version"] ;;
      ret (nextAlpha (localPrisma2Version :: localPhotonVersion :: remote))
  end.

(** ** Test pass (lines 325-344) *)

Definition lookupPackage (packages : Packages) (pkgName what : string) : io Package :=
  match oget packages pkgName with
  | Some pkg => ret pkg
  | None => throw (TypeError ("Cannot read property '" ++ what ++ "' of undefined"))
  end.

(** [pkg.packageJson.scripts.test], read as a condition. *)
Definition hasTestScript (pkg : Package) : io bool :=
  match scripts (packageJson pkg) with
  | Some s =>
      ret (match oget s "test" with Some t => truthy_string t | None => false end)
  | None => throw (TypeError "Cannot read property 'test' of undefined")
  end.

Definition testPackage (packages : Packages) (pkgName : string) : io unit :=
  pkg <~ lookupPackage packages pkgName "packageJson" ;;
  test <~ hasTestScript pkg ;;
  if test then
    _ <~ emit (Testing (name pkg)) ;;
    run (path_dirname h (path pkg)) "yarn test"
  else ret tt.

Definition testPackages (packages : Packages) (publishOrder : list (list string))
  : io unit :=
  forEach (testPackage packages) (flatten publishOrder).

(** ** Publish pass (lines 368-453) *)

Definition isPrisma2OrPhoton (pkgName : string) : bool :=
  includes ["prisma2"; "@prisma/photon"] pkgName.

Definition tagFor (prisma2Version pkgName : string) : string :=
  if includesString "alpha" prisma2Version && isPrisma2OrPhoton pkgName
  then "alpha" else "latest".

Definition newVersionFor (prisma2Version pkgName : string) (pkg : Package)
  : option string :=
  if isPrisma2OrPhoton pkgName then Some prisma2Version else patch (version pkg).

Definition upgrade : string := "yarn upgrade --latest --scope @prisma".

Definition publishCommand (tag : string) (newVersion : option string) : string :=
  "yarn publish --tag " ++ tag ++ " --new-version " ++ showNullable newVersion.

(** The mapper given to [pMap] (lines 413-447). *)
Definition publishPackage (packages : Packages) (prisma2Version pkgName : string)
  : io unit :=
  pkg <~ lookupPackage packages pkgName "path" ;;
  let pkgDir := path_dirname h (path pkg) in
  let tag := tagFor prisma2Version pkgName in
  let newVersion := newVersionFor prisma2Version pkgName pkg in
  _ <~ emit (Publishing pkgName (showNullable newVersion) tag) ;;
  _ <~ (if isPrisma2OrPhoton pkgName then ret tt
        else tryCatch (run pkgDir upgrade) (fun _ => run pkgDir upgrade)) ;;
  run pkgDir (publishCommand tag newVersion).

Definition publishPackages (packages : Packages) (publishOrder : list (list string))
  : io unit :=
  prisma2Version <~ getNewPrisma2Version packages ;;
  forEach (fun currentBatch =>
             forEach (publishPackage packages prisma2Version) currentBatch)
          publishOrder.

(** ** The script (lines 298-323)

    The manifests that [getPackages] finds and parses, and the two command
    line flags, are the arguments. *)

Definition circularError (circles : list (list string)) : error :=
  Error ("Oops, there are circular dependencies: "
         ++ join "," (map (join ",") circles)).

Definition publish (publishFlag allRepos : bool) (manifests : list RawPackage)
  : io unit :=
  let rawPackages := getPackages manifests in
  let packages := getPackageDependencies rawPackages in
  let circles := getCircularDependencies packages in
  if (0 <? List.length circles)%nat then throw (circularError circles)
  else
    changes <~ getLatestChanges allRepos ;;
    changedPackages <~
      ofFuel (getPackagesAffectedByChange (path_dirname h) packages changes) ;;
    publishOrder <~ ofFuel (getPublishOrder changedPackages) ;;
    let publishOrder := skipn 3 publishOrder in
    if publishFlag then publishPackages changedPackages publishOrder
    else testPackages changedPackages publishOrder.

End Script.

(** ** The bootstrap script [scripts/setup.ts] *)

Module Setup.

Section Setup.

Variable h : Host.

(** [run] of setup.ts (lines 75-88): no shell, and the stack of the error
    rather than its standard error. *)
Definition run (cwd cmd : string) : io unit :=
  fun t =>
    match execa_command h t cwd cmd inherit false with
    | Exited _ => (Ok tt, t ++ [Spawn cwd cmd inherit false])
    | Failed e =>
        (Throw (Error (chalk_bold h (chalk_red h
                         ("Error running " ++ chalk_bold h cmd ++ " in "
                          ++ chalk_underline h cwd ++ ":"))
                       ++ showString (orElse (stack e) (Some (message e))))),
         t ++ [Spawn cwd cmd inherit false])
    end.

(** [repoUrl] (lines 71-73) *)
Definition repoUrl (repo org : string) : string :=
  "https://github.com/" ++ org ++ "/" ++ repo ++ ".git".

(** [cloneOrPull] (lines 63-69); both calls leave [org] to its default. *)
Definition cloneOrPull (repo : string) : io unit :=
  if fs_existsSync h (path_join h [dirname__ h; "../"; repo])
  then run repo "git pull origin master"
  else run "." ("git clone " ++ repoUrl repo "prisma").

(** [initPackage] (lines 58-61) *)
Definition initPackage (packageName : string) : io unit :=
  _ <~ run packageName "npm i --no-progress --no-package-lock" ;;
  run packageName "yarn build".

End Setup.

End Setup.

(** ** Notions used to state the properties of the graph *)

(** The part of a record that linking never writes. *)
Definition unlinked (p : Package) : Package :=
  {| name := name p; path := path p; version := version p;
     usedBy := []; usedByDev := [];
     uses := uses p; usesDev := usesDev p; packageJson := packageJson p |}.

Definition unlinkedCache (c : Packages) : Packages :=
  map (fun e => (fst e, unlinked (snd e))) c.

(** A linking state reached from an earlier one: same keys, reverse edges
    and messages only added. *)
Definition grows (st st' : linkState) : Prop :=
  keys (fst st') = keys (fst st)
  /\ (forall d Q, oget (fst st) d = Some Q ->
        exists Q', oget (fst st') d = Some Q'
                   /\ incl (usedBy Q) (usedBy Q')
                   /\ incl (usedByDev Q) (usedByDev Q'))
  /\ incl (snd st) (snd st').

(** What has become of the dependency [d] of the package named [n]. *)
Definition linkedUse (n d : string) (st : linkState) : Prop :=
  (exists Q, oget (fst st) d = Some Q /\ In n (usedBy Q))
  \/ (~ In d (keys (fst st)) /\ In (skipping d) (snd st)).

Definition linkedUseDev (n d : string) (st : linkState) : Prop :=
  (exists Q, oget (fst st) d = Some Q /\ In n (usedByDev Q))
  \/ (~ In d (keys (fst st)) /\ In (skipping d) (snd st)).

(** Every reverse edge and every message of the state has a cause among the
    records of [c0]. *)
Definition caused (c0 : Packages) (st : linkState) : Prop :=
  (forall q Q, In (q, Q) (fst st) ->
     (forall n, In n (usedBy Q) ->
        exists P, In P (values c0) /\ name P = n /\ In q (uses P))
     /\ (forall n, In n (usedByDev Q) ->
        exists P, In P (values c0) /\ name P = n /\ In q (usesDev P)))
  /\ (forall msg, In msg (snd st) ->
        exists P d, In P (values c0) /\ In d (uses P ++ usesDev P)
                    /\ ~ In d (keys c0) /\ msg = skipping d).

(** ** Sample workspaces

    Manifests of small workspaces, written as [getPackages] would read them
    from disk.  The names carry the [@prisma] scope, as only such
    dependencies are edges of the graph. *)

Definition manifest (n v : string) (deps devDeps : list string) : PackageJson :=
  {| pj_name := Some n;
     pj_version := v;
     dependencies := Some (map (fun d => (d, "*")) deps);
     devDependencies := Some (map (fun d => (d, "*")) devDeps);
     scripts := Some [("test", "jest")] |}.

Definition onDisk (dir n v : string) (deps devDeps : list string) : RawPackage :=
  {| raw_path := (dir ++ "/package.json")%string;
     raw_packageJson := manifest n v deps devDeps |}.

(** A depends on B, B depends on C. *)
Definition chainWorkspace : RawPackages :=
  getPackages
    [ onDisk "pkgs/a" "@prisma/a" "1.0.0" ["@prisma/b"] [];
      onDisk "pkgs/b" "@prisma/b" "1.0.0" ["@prisma/c"] [];
      onDisk "pkgs/c" "@prisma/c" "1.0.0" [] [] ].

(** A depends on B and B depends on A. *)
Definition mutualWorkspace : RawPackages :=
  getPackages
    [ onDisk "pkgs/a" "@prisma/a" "1.0.0" ["@prisma/b"] [];
      onDisk "pkgs/b" "@prisma/b" "1.0.0" ["@prisma/a"] [] ].

(** A depends on B, B on C, C on A. *)
Definition triangleWorkspace : RawPackages :=
  getPackages
    [ onDisk "pkgs/a" "@prisma/a" "1.0.0" ["@prisma/b"] [];
      onDisk "pkgs/b" "@prisma/b" "1.0.0" ["@prisma/c"] [];
      onDisk "pkgs/c" "@prisma/c" "1.0.0" ["@prisma/a"] [] ].

(** A and B depend on C, D depends on A and on B (on B for development). *)
Definition diamondWorkspace : RawPackages :=
  getPackages
    [ onDisk "pkgs/a" "@prisma/a" "1.0.0" ["@prisma/c"] [];
      onDisk "pkgs/b" "@prisma/b" "1.0.0" ["@prisma/c"] [];
      onDisk "pkgs/c" "@prisma/c" "1.0.0" [] [];
      onDisk "pkgs/d" "@prisma/d" "1.0.0" ["@prisma/a"] ["@prisma/b"] ].

(** A depends on a scoped package that is not in the workspace, and on an
    unscoped one. *)
Definition outsideWorkspace : RawPackages :=
  getPackages
    [ onDisk "pkgs/a" "@prisma/a" "1.0.0" ["@prisma/elsewhere"; "lodash"] [] ].

(** The record stored under [k], for use in examples. *)
Definition recordOf (g : Packages) (k : string) : Package :=
  match oget g k with
  | Some p => p
  | None => {| name := ""; path := ""; version := ""; usedBy := []; usedByDev := [];
               uses := []; usesDev := [];
               packageJson := {| pj_name := None; pj_version := "";
                                 dependencies := None; devDependencies := None;
                                 scripts := None |} |}
  end.

(** ** Notions used to state the properties of the resolver *)

(** The packages that depend on [p], for use or for development. *)
Definition dependants (p : Package) : list string := usedBy p ++ usedByDev p.

(** A graph as the builder makes them: one record per name, stored under
    its name, whose dependants are packages of the graph. *)
Definition wellFormed (packages : Packages) : Prop :=
  NoDup (keys packages)
  /\ forall k p, In (k, p) packages ->
       name p = k /\ forall n, In n (dependants p) -> In n (keys packages).

(** A set of names closed under the usedBy and usedByDev edges. *)
Definition closedUnder (packages : Packages) (S : string -> Prop) : Prop :=
  forall k p n, S k -> oget packages k = Some p -> In n (dependants p) -> S n.

(** Some changed path starts with the directory of the manifest. *)
Definition changedUnder (dirname : string -> string) (changes : list string)
  (p : Package) : Prop :=
  exists c, In c changes /\ String.prefix (dirname (path p)) c = true.

(** The number of packages of the graph that are not yet in [a]. *)
Definition missing (packages : Packages) (a : affected) : nat :=
  List.length (filter (fun k => negb (has (affectedPackages a) k)) (keys packages)).

(** [path.dirname] of Node for POSIX paths, for use in examples: the path up
    to the last slash that is followed by a name, trailing slashes apart. *)
Definition isSlash (c : ascii) : bool := Ascii.eqb c "/"%char.

Definition posix_dirname (p : string) : string :=
  match list_ascii_of_string p with
  | [] => "."
  | c0 :: rest =>
      let afterName :=
        dropWhile (fun c => negb (isSlash c)) (dropWhile isSlash (rev rest)) in
      match afterName with
      | [] => if isSlash c0 then "/" else "."
      | _ :: before =>
          match before with
          | [] => if isSlash c0 then "//" else string_of_list_ascii [c0]
          | _ => string_of_list_ascii (c0 :: rev before)
          end
      end
  end.

(** What the accumulator always satisfies: each assignment made a new
    property, and each property holds the record the graph has under that
    name. *)
Definition consistent (packages : Packages) (a : affected) : Prop :=
  assigned a = keys (affectedPackages a)
  /\ NoDup (keys (affectedPackages a))
  /\ forall k p, oget (affectedPackages a) k = Some p -> oget packages k = Some p.

(** What a run from [a] to [a'] that treats [names] achieves. *)
Definition treated (packages : Packages) (names : list string) (a a' : affected)
  : Prop :=
  incl (keys (affectedPackages a)) (keys (affectedPackages a'))
  /\ (forall n, In n names -> In n (keys (affectedPackages a')))
  /\ (forall k, In k (keys (affectedPackages a')) ->
        ~ In k (keys (affectedPackages a)) ->
        forall p, oget packages k = Some p ->
        forall n, In n (dependants p) -> In n (keys (affectedPackages a')))
  /\ (forall S : string -> Prop,
        closedUnder packages S ->
        (forall n, In n names -> S n) ->
        (forall k, In k (keys (affectedPackages a)) -> S k) ->
        forall k, In k (keys (affectedPackages a')) -> S k).

(** The names of the packages of a result. *)
Definition namesOf (r : option (result Packages)) : option (result (list string)) :=
  match r with
  | Some (Ok g) => Some (Ok (keys g))
  | Some (Throw e) => Some (Throw e)
  | None => None
  end.

(** ** Notions used to state the properties of the planner *)


(** There is an edge from [q] to [p] in the graph. *)
Definition edge (g : Dag) (q p : string) : Prop :=
  exists adj, In (q, adj) g /\ In p adj.

Definition cyclicDag (g : Dag) : Prop := exists x, clos_trans string (edge g) x x.

(** Every node an edge points to is a node of the graph. *)
Definition closedDag (g : Dag) : Prop :=
  forall q p, edge g q p -> In p (keys g).

(** [p] depends on [q]: it is among the dependants recorded for [q]. *)
Definition dependsOn (packages : Packages) (p q : string) : Prop :=
  exists Q, In (q, Q) packages /\ In p (dependants Q).

Definition cyclic (packages : Packages) : Prop :=
  exists x, clos_trans string (dependsOn packages) x x.

(** The first node of the graph with an edge to [n]; [n] itself when there
    is none. *)
Definition predecessor (g : Dag) (n : string) : string :=
  match find (fun e => includes (snd e) n) g with
  | Some e => fst e
  | None => n
  end.

(** ** Notions used to state the properties of effectful code *)

(** Whatever the trace was before, the computation only adds events, and
    every event it adds satisfies [P]. *)
Definition emits {A} (m : io A) (P : event -> Prop) : Prop :=
  forall t, exists new, snd (m t) = t ++ new /\ Forall P new.

(** A command spawned by [runResult]: its output is read, nothing shown. *)
Definition isQuery (ev : event) : Prop :=
  match ev with
  | Spawn _ _ pipe true => True
  | _ => False
  end.

(** A host whose processes all succeed with the output that [answer] gives
    for the command, for use in examples. *)
Definition quietHost (answer : string -> string) (tag : option string) : Host :=
  {| path_dirname := posix_dirname;
     path_join := join "/";
     execa_command := fun _ _ cmd _ _ => Exited (answer cmd);
     chalk_red := fun s => s;
     chalk_bold := fun s => s;
     chalk_underline := fun s => s;
     Date_parse := fun _ => Some 0%Z;
     fs_existsSync := fun _ => false;
     BUILDKITE_TAG := tag;
     dirname__ := "/repo/scripts" |}.

(** ** Notions used to state the properties of the regular expressions *)

(** A pattern without anchors and groups. *)
Fixpoint isPlain (r : regex) : bool :=
  match r with
  | Eps | Chr _ => true
  | Bol | Eol | Group _ _ => false
  | Cat r1 r2 | Alt r1 r2 => isPlain r1 && isPlain r2
  | Star r' => isPlain r'
  end.

(** The words of a plain pattern. *)
Inductive lang : regex -> list ascii -> Prop :=
| lang_Eps : lang Eps []
| lang_Chr f c : f c = true -> lang (Chr f) [c]
| lang_Cat r1 r2 w1 w2 : lang r1 w1 -> lang r2 w2 -> lang (Cat r1 r2) (w1 ++ w2)
| lang_AltL r1 r2 w : lang r1 w -> lang (Alt r1 r2) w
| lang_AltR r1 r2 w : lang r2 w -> lang (Alt r1 r2) w
| lang_StarO r : lang (Star r) []
| lang_StarS r w1 w2 :
    lang r w1 -> w1 <> [] -> lang (Star r) w2 -> lang (Star r) (w1 ++ w2).

(** The grammar of Semantic Versioning 2.0.0 for a version string.  This
    second definition follows the grammar, not the code; the code is
    compared with it. *)
Definition numericIdentifier (w : list ascii) : Prop :=
  w = ["0"%char]
  \/ exists c ds, w = c :: ds /\ isPositiveDigit c = true
                  /\ Forall (fun d => isDigit d = true) ds.

Definition alphanumericIdentifier (w : list ascii) : Prop :=
  Forall (fun c => isIdentChar c = true) w
  /\ Exists (fun c => isLetterOrHyphen c = true) w.

Definition prereleaseIdentifier (w : list ascii) : Prop :=
  numericIdentifier w \/ alphanumericIdentifier w.

Definition buildIdentifier (w : list ascii) : Prop :=
  w <> [] /\ Forall (fun c => isIdentChar c = true) w.

Inductive dotSeparated (P : list ascii -> Prop) : list ascii -> Prop :=
| dotSeparated_one w : P w -> dotSeparated P w
| dotSeparated_more w ws :
    P w -> dotSeparated P ws -> dotSeparated P (w ++ "."%char :: ws).

(** Nothing, or the mark [c] and identifiers separated by dots. *)
Definition optionalPart (c : ascii) (P : list ascii -> Prop) (s : list ascii)
  : Prop :=
  s = [] \/ exists w, s = c :: w /\ dotSeparated P w.

(** [v] is a valid semantic version with the given major, minor and patch
    numbers. *)
Definition semver (v maj min pat : list ascii) : Prop :=
  exists pre bld,
    v = maj ++ "."%char :: min ++ "."%char :: pat ++ pre ++ bld
    /\ numericIdentifier maj /\ numericIdentifier min /\ numericIdentifier pat
    /\ optionalPart "-" prereleaseIdentifier pre
    /\ optionalPart "+" buildIdentifier bld.

(** The integer that a string of digits denotes. *)
Definition valueOfDigits (digits : list ascii) : Z :=
  fold_left (fun acc c => 10 * acc + digitValue c)%Z digits 0%Z.

(** The decimal notation of an integer. *)
Definition decimal (z : Z) : string :=
  ((if (z <? 0)%Z then "-" else "") ++ digitsOf (Z.abs z))%string.

(** The state in which a match of [v] starts. *)
Definition startOf (v : list ascii) : mstate :=
  {| pos := 0; rest := v; caps := [] |}.

(** Empty, or starting with a character that is no digit. *)
Definition noDigitAhead (s : list ascii) : Prop :=
  match s with
  | [] => True
  | c :: _ => isDigit c = false
  end.

(** ** Notions used to state the properties of the runner *)

(** A workspace that holds the two core packages at version [v]. *)
Definition coreWorkspace (v : string) : Packages :=
  getPackageDependencies
    (getPackages
       [ onDisk "prisma2/cli/prisma2" "prisma2" v [] [];
         onDisk "photonjs/packages/photon" "@prisma/photon" v [] [] ]).

Definition npmInfoPrisma2 : string := "npm info prisma2@alpha version".
Definition npmInfoPhoton : string := "npm info @prisma/photon@alpha version".

(** A number that is at most the integer [M]. *)
Definition atMost (M : Z) (n : number) : Prop :=
  match n with
  | Finite z => (z <= M)%Z
  | Infinity => False
  | NegInfinity => True
  end.

(** An event of the test pass ([publishFlag] false) or of the publish pass
    that concerns a package named in [names]. *)
Definition runnerEvent (h : Host) (publishFlag : bool) (packages : Packages)
  (names : list string) (ev : event) : Prop :=
  exists n pkg,
    In n names /\ oget packages n = Some pkg /\ name pkg = n
    /\ match ev with
       | Testing m => publishFlag = false /\ m = n
       | Publishing m _ _ => publishFlag = true /\ m = n
       | Spawn cwd _ inherit true => cwd = path_dirname h (path pkg)
       | Spawn _ _ _ _ => False
       end.

(** Every record is stored under its own name. *)
Definition namedByKey (packages : Packages) : Prop :=
  forall k p, oget packages k = Some p -> name p = k.

(** ** Further sample inputs *)

Definition mutualManifests : list RawPackage :=
  [ onDisk "pkgs/a" "@prisma/a" "1.0.0" ["@prisma/b"] [];
    onDisk "pkgs/b" "@prisma/b" "1.0.0" ["@prisma/a"] [] ].

(** The name under which the loader stores a manifest, if any. *)
Definition loadedName (p : RawPackage) : option string :=
  match pj_name (raw_packageJson p) with
  | Some n => if truthy_string n then Some n else None
  | None => None
  end.

(** The names from which [k] can be reached along the reverse edges:
    [k] itself, and the dependants of what is already reached. *)
Inductive dependsTransitively (packages : Packages) (k : string) : string -> Prop :=
| dependsTransitively_self : dependsTransitively packages k k
| dependsTransitively_step m p n :
    dependsTransitively packages k m ->
    oget packages m = Some p -> In n (dependants p) ->
    dependsTransitively packages k n.

(** The character [sep] does not occur in [s]. *)
Definition without (sep : ascii) (s : string) : Prop :=
  ~ In sep (list_ascii_of_string s).

(** [a] is not before [b]: the order in which the sort leaves two commits. *)
Definition notBefore (a b : Commit) : Prop := dateBefore a b = false.

Definition repositories : list string := ["prisma2"; "lift"; "photonjs"].

(** The diff that [getChangesFromCommit] asks for, and the paths it makes
    of the output. *)
Definition diffOf (c : Commit) : event :=
  Spawn (dir c) (diffTree c) pipe true.

Definition pathsOf (h : Host) (c : Commit) (out : string) : list string :=
  map (fun line => path_join h [dir c; line]) (split newline out).

(** The three calls of [getLatestCommit]. *)
Definition latestCommits (h : Host) : io (list Commit) :=
  all (map (getLatestCommit h) repositories).

(** What the publish pass announces for a package when the new version of
    the core packages is [v]. *)
Definition versionRule (packages : Packages) (v : string) (ev : event) : Prop :=
  match ev with
  | Publishing m newVersion tag =>
      if isPrisma2OrPhoton m
      then newVersion = v
           /\ tag = (if includesString "alpha" v then "alpha" else "latest")
      else tag = "latest"
           /\ exists pkg, oget packages m = Some pkg
                          /\ newVersion = showNullable (patch (version pkg))
  | _ => True
  end.

(** The events of a run that only tests. *)
Definition testModeEvent (ev : event) : Prop :=
  match ev with
  | Publishing _ _ _ => False
  | Spawn _ cmd inherit _ => cmd = "yarn test"
  | _ => True
  end.

(** The events of a run that publishes. *)
Definition publishModeEvent (ev : event) : Prop :=
  match ev with
  | Testing _ => False
  | Spawn _ cmd inherit _ =>
      cmd = upgrade
      \/ exists tag newVersion,
           (tag = "alpha" \/ tag = "latest") /\ cmd = publishCommand tag newVersion
  | _ => True
  end.

Definition failure (msg : string) : ExecaError :=
  {| stderr := Some msg; stack := None; message := msg |}.

(** A host on which a command fails as long as fewer than [n] events have
    happened, and succeeds afterwards. *)
Definition flakyHost (n : nat) : Host :=
  {| path_dirname := posix_dirname;
     path_join := join "/";
     execa_command := fun t _ _ _ _ =>
       if (List.length t <? n)%nat then Failed (failure "network") else Exited "";
     chalk_red := fun s => s;
     chalk_bold := fun s => s;
     chalk_underline := fun s => s;
     Date_parse := fun _ => Some 0%Z;
     fs_existsSync := fun _ => false;
     BUILDKITE_TAG := None;
     dirname__ := "/repo/scripts" |}.

(** A package that declares a test script. *)
Definition tested (pkg : Package) : Prop :=
  exists s cmd, scripts (packageJson pkg) = Some s
                /\ oget s "test" = Some cmd /\ truthy_string cmd = true.

(** A package with scripts, none of which is a test script. *)
Definition untested (packages : Packages) (n : string) : Prop :=
  exists pkg s, oget packages n = Some pkg
                /\ scripts (packageJson pkg) = Some s
                /\ match oget s "test" with
                   | Some cmd => truthy_string cmd = false
                   | None => True
                   end.

(** Three packages of the repository lift that depend on each other in a
    circle, none of them on the one that depends on it. *)
Definition circleManifests : list RawPackage :=
  [ onDisk "lift/a" "@prisma/a" "1.0.0" ["@prisma/b"] [];
    onDisk "lift/b" "@prisma/b" "1.0.0" ["@prisma/c"] [];
    onDisk "lift/c" "@prisma/c" "1.0.0" ["@prisma/a"] [] ].

(** The events of the bootstrap script: commands without a shell. *)
Definition setupEvent (ev : event) : Prop :=
  match ev with
  | Spawn _ _ inherit false => True
  | _ => False
  end.

Definition npmInstall : string := "npm i --no-progress --no-package-lock".

(** No package of the graph is named like a property that every object
    inherits from [Object.prototype]. *)
Definition plainNames (packages : Packages) : Prop :=
  forallb (fun k => negb (includes inheritedProperties k)) (keys packages) = true.

(** One record per name, stored under its name. *)
Definition storedByName (packages : Packages) : Prop :=
  NoDup (keys packages) /\ forall k p, In (k, p) packages -> name p = k.

(** A workspace in which a package named constructor depends on C. *)
Definition inheritedNameWorkspace : RawPackages :=
  getPackages
    [ onDisk "pkgs/c" "@prisma/c" "1.0.0" [] [];
      onDisk "pkgs/constructor" "constructor" "1.0.0" ["@prisma/c"] [] ].

(** * Properties *)

(** ** Ordered maps *)

Module ObjFacts.

Section Facts.

Context {A : Type}.
Implicit Types (o : Obj.t A) (k : string) (v : A).

Lemma oget_oset_eq o k v : oget (oset k v o) k = Some v.
Proof.
  induction o as [|[k' v'] o IH]; simpl.
  - now rewrite String.eqb_refl.
  - destruct (String.eqb k k') eqn:E; simpl; rewrite ?String.eqb_refl, ?E; auto.
Qed.

Lemma oget_oset_neq o k k' v : k <> k' -> oget (oset k v o) k' = oget o k'.
Proof.
  intros Hne. induction o as [|[k0 v0] o IH]; simpl.
  - destruct (String.eqb k' k) eqn:E; auto.
    apply String.eqb_eq in E. congruence.
  - destruct (String.eqb k k0) eqn:E; simpl.
    + apply String.eqb_eq in E. subst k0.
      destruct (String.eqb k' k) eqn:E'; auto.
      apply String.eqb_eq in E'. congruence.
    + now rewrite IH.
Qed.

Lemma oget_None o k : oget o k = None <-> ~ In k (keys o).
Proof.
  induction o as [|[k' v'] o IH]; simpl.
  - tauto.
  - destruct (String.eqb k k') eqn:E.
    + apply String.eqb_eq in E. subst. split; [discriminate | tauto].
    + apply String.eqb_neq in E. rewrite IH. intuition congruence.
Qed.

Lemma oget_Some_In o k v : oget o k = Some v -> In (k, v) o.
Proof.
  induction o as [|[k' v'] o IH]; simpl; [discriminate|].
  destruct (String.eqb k k') eqn:E.
  - apply String.eqb_eq in E. intros [= ->]. subst. now left.
  - auto.
Qed.

Lemma oget_Some_key o k v : oget o k = Some v -> In k (keys o).
Proof.
  intros H. apply oget_Some_In in H.
  change k with (fst (k, v)). now apply in_map.
Qed.

Lemma oget_Some_value o k v : oget o k = Some v -> In v (values o).
Proof.
  intros H. apply oget_Some_In in H.
  change v with (snd (k, v)). now apply in_map.
Qed.

Lemma In_key_oget o k : In k (keys o) -> exists v, oget o k = Some v.
Proof.
  intros H. destruct (oget o k) eqn:E; eauto.
  apply oget_None in E. contradiction.
Qed.

Lemma In_oget o k v : NoDup (keys o) -> In (k, v) o -> oget o k = Some v.
Proof.
  induction o as [|[k' v'] o IH]; simpl; [tauto|].
  intros Hnd [Heq | Hin].
  - injection Heq as -> ->. now rewrite String.eqb_refl.
  - inversion Hnd as [|? ? Hnotin Hnd']; subst.
    destruct (String.eqb k k') eqn:E; auto.
    apply String.eqb_eq in E. subst k'. exfalso. apply Hnotin.
    change k with (fst (k, v)). now apply in_map.
Qed.

Lemma has_true o k : has o k = true <-> In k (keys o).
Proof.
  unfold has. destruct (oget o k) eqn:E.
  - split; auto. intros _. eapply oget_Some_key; eauto.
  - apply oget_None in E. split; [discriminate | contradiction].
Qed.

Lemma has_false o k : has o k = false <-> ~ In k (keys o).
Proof.
  rewrite <- has_true. destruct (has o k); intuition congruence.
Qed.

Lemma oset_absent o k v : ~ In k (keys o) -> oset k v o = o ++ [(k, v)].
Proof.
  induction o as [|[k' v'] o IH]; simpl; auto.
  intros Hn. destruct (String.eqb k k') eqn:E.
  - apply String.eqb_eq in E. subst. tauto.
  - f_equal. apply IH. tauto.
Qed.

Lemma keys_oset_present o k v : In k (keys o) -> keys (oset k v o) = keys o.
Proof.
  induction o as [|[k' v'] o IH]; simpl; [tauto|].
  intros H. destruct (String.eqb k k') eqn:E; simpl.
  - apply String.eqb_eq in E. now subst.
  - f_equal. apply IH. apply String.eqb_neq in E. intuition congruence.
Qed.

Lemma keys_oset_absent o k v : ~ In k (keys o) -> keys (oset k v o) = keys o ++ [k].
Proof.
  intros H. rewrite oset_absent by assumption.
  unfold keys. now rewrite map_app.
Qed.

Lemma In_keys_oset o k v k' :
  In k' (keys (oset k v o)) <-> k' = k \/ In k' (keys o).
Proof.
  destruct (in_dec string_dec k (keys o)) as [Hin | Hnin].
  - rewrite keys_oset_present by assumption. intuition (subst; auto).
  - rewrite keys_oset_absent by assumption. rewrite in_app_iff. simpl.
    intuition (subst; auto).
Qed.

Lemma NoDup_keys_oset o k v : NoDup (keys o) -> NoDup (keys (oset k v o)).
Proof.
  intros Hnd. destruct (in_dec string_dec k (keys o)) as [Hin | Hnin].
  - now rewrite keys_oset_present.
  - rewrite keys_oset_absent by assumption.
    apply NoDup_app; [assumption | repeat constructor; simpl; tauto |].
    intros x Hx [<- | []]. contradiction.
Qed.

Lemma length_oset_le o k v : (List.length o <= List.length (oset k v o))%nat.
Proof.
  induction o as [|[k' v'] o IH]; simpl; [lia|].
  destruct (String.eqb k k'); simpl; lia.
Qed.

(** Replacing the value of a property by one with the same image under
    [f] does not change the image of the object. *)
Lemma map_oset_same {B} (f : A -> B) o k v t :
  oget o k = Some t -> f v = f t ->
  map (fun e => (fst e, f (snd e))) (oset k v o)
  = map (fun e => (fst e, f (snd e))) o.
Proof.
  induction o as [|[k' v'] o IH]; simpl; [discriminate|].
  destruct (String.eqb k k') eqn:E; simpl.
  - apply String.eqb_eq in E. subst. intros [= ->] ->. reflexivity.
  - intros H1 H2. now rewrite IH.
Qed.

(** Every entry of the updated object is the new one or an old one. *)
Lemma In_oset o k v e : In e (oset k v o) -> e = (k, v) \/ In e o.
Proof.
  induction o as [|[k' v'] o IH]; simpl.
  - intros [<- | []]. now left.
  - destruct (String.eqb k k'); simpl; intuition (auto; congruence).
Qed.

End Facts.

End ObjFacts.

Import ObjFacts.

(** ** Dependency graph builder *)

Lemma fold_left_invariant {A B} (I : A -> Prop) (f : A -> B -> A) (l : list B) :
  (forall a b, In b l -> I a -> I (f a b)) ->
  forall a, I a -> I (fold_left f l a).
Proof.
  induction l as [|b l IH]; simpl; intros Hstep a Ha; [assumption|].
  apply IH; [intros; apply Hstep; auto | apply Hstep; auto].
Qed.

Lemma initialCache_spec (packages : RawPackages) :
  NoDup (keys (initialCache packages))
  /\ forall k P, In (k, P) (initialCache packages) ->
       exists r, In (k, r) packages /\ P = newPackage k r.
Proof.
  unfold initialCache.
  apply (fold_left_invariant
           (fun acc : Packages =>
              NoDup (keys acc)
              /\ forall k P, In (k, P) acc ->
                   exists r, In (k, r) packages /\ P = newPackage k r)).
  - intros acc [k r] Hin [Hnd Hall]. simpl. split.
    + now apply NoDup_keys_oset.
    + intros k' P HP. apply In_oset in HP. destruct HP as [[= -> ->] | HP]; eauto.
  - split; [constructor | intros ? ? []].
Qed.

Lemma initialCache_keys (packages : RawPackages) k :
  In k (keys (initialCache packages)) <-> In k (keys packages).
Proof.
  unfold initialCache.
  assert (G : forall (l : RawPackages) (acc : Packages),
             In k (keys (fold_left
                           (fun acc e => oset (fst e) (newPackage (fst e) (snd e)) acc)
                           l acc))
             <-> In k (keys acc) \/ In k (keys l)).
  { induction l as [|[k' r] l IH]; intros acc; simpl.
    - tauto.
    - rewrite IH, In_keys_oset. intuition auto. }
  rewrite G. simpl. tauto.
Qed.

Lemma unlinked_newPackage k r : unlinked (newPackage k r) = newPackage k r.
Proof. reflexivity. Qed.

Lemma unlinkedCache_initial (packages : RawPackages) :
  unlinkedCache (initialCache packages) = initialCache packages.
Proof.
  destruct (initialCache_spec packages) as [_ H].
  revert H. generalize (initialCache packages). intros c.
  induction c as [|[k P] c IH]; simpl; intros H; auto.
  destruct (H k P (or_introl eq_refl)) as (r & _ & ->).
  rewrite unlinked_newPackage. f_equal. apply IH.
  intros k' P' Hin. apply H. now right.
Qed.

Lemma unlinkedCache_keys c : keys (unlinkedCache c) = keys c.
Proof.
  unfold unlinkedCache, keys. rewrite map_map. now apply map_ext.
Qed.

Lemma unlinkedCache_In c k P :
  In (k, P) c -> In (k, unlinked P) (unlinkedCache c).
Proof.
  intros H. unfold unlinkedCache.
  change (k, unlinked P) with ((fun e => (fst e, unlinked (snd e))) (k, P)).
  now apply in_map.
Qed.

(** *** Linking writes nothing but the reverse edges *)

Lemma linkUse_unlinked n (st : linkState) d :
  unlinkedCache (fst (linkUse n st d)) = unlinkedCache (fst st).
Proof.
  unfold linkUse. destruct (oget (fst st) d) as [target|] eqn:E; simpl; auto.
  now apply map_oset_same with (t := target).
Qed.

Lemma linkUseDev_unlinked n (st : linkState) d :
  unlinkedCache (fst (linkUseDev n st d)) = unlinkedCache (fst st).
Proof.
  unfold linkUseDev. destruct (oget (fst st) d) as [target|] eqn:E; simpl; auto.
  now apply map_oset_same with (t := target).
Qed.

Lemma linkPackage_unlinked (st : linkState) pkg :
  unlinkedCache (fst (linkPackage st pkg)) = unlinkedCache (fst st).
Proof.
  unfold linkPackage.
  apply (fold_left_invariant
           (fun s => unlinkedCache (fst s) = unlinkedCache (fst st))).
  - intros s d _ Hs. now rewrite linkUseDev_unlinked.
  - apply (fold_left_invariant
             (fun s => unlinkedCache (fst s) = unlinkedCache (fst st))); auto.
    intros s d _ Hs. now rewrite linkUse_unlinked.
Qed.

Lemma linkAll_unlinked c : unlinkedCache (fst (linkAll c)) = unlinkedCache c.
Proof.
  unfold linkAll.
  apply (fold_left_invariant (fun s => unlinkedCache (fst s) = unlinkedCache c)); auto.
  intros s p _ Hs. now rewrite linkPackage_unlinked.
Qed.

(** The graph is the initial cache with reverse edges filled in. *)
Lemma getPackageDependencies_unlinked (packages : RawPackages) :
  unlinkedCache (getPackageDependencies packages) = initialCache packages.
Proof.
  unfold getPackageDependencies.
  now rewrite linkAll_unlinked, unlinkedCache_initial.
Qed.

Lemma getPackageDependencies_keys (packages : RawPackages) :
  keys (getPackageDependencies packages) = keys (initialCache packages).
Proof.
  now rewrite <- (getPackageDependencies_unlinked packages), unlinkedCache_keys.
Qed.

Lemma getPackageDependencies_NoDup (packages : RawPackages) :
  NoDup (keys (getPackageDependencies packages)).
Proof.
  rewrite getPackageDependencies_keys. apply initialCache_spec.
Qed.

Lemma getPackageDependencies_entry (packages : RawPackages) k P :
  In (k, P) (getPackageDependencies packages) ->
  exists r, In (k, r) packages /\ unlinked P = newPackage k r.
Proof.
  intros H. apply unlinkedCache_In in H.
  rewrite getPackageDependencies_unlinked in H.
  now apply initialCache_spec.
Qed.

Lemma getPackageDependencies_name (packages : RawPackages) k P :
  In (k, P) (getPackageDependencies packages) -> name P = k.
Proof.
  intros H. apply getPackageDependencies_entry in H.
  destruct H as (r & _ & H).
  change (name P) with (name (unlinked P)). now rewrite H.
Qed.

(** *** Every reverse edge has a cause *)

Section Caused.

Variable c0 : Packages.

Lemma linkUse_caused P d (st : linkState) :
  In P (values c0) -> In d (uses P) -> keys (fst st) = keys c0 ->
  caused c0 st -> caused c0 (linkUse (name P) st d).
Proof.
  intros HP Hd Hk [Hedge Hmsg]. unfold linkUse.
  destruct (oget (fst st) d) as [target|] eqn:E; split; simpl; auto.
  - intros q Q HQ. apply In_oset in HQ. destruct HQ as [[= -> ->] | HQ]; auto.
    apply oget_Some_In in E. destruct (Hedge _ _ E) as [H1 H2].
    split; simpl; auto.
    intros n Hn. apply in_app_iff in Hn. destruct Hn as [Hn | [<- | []]]; eauto.
  - intros msg Hin. apply in_app_iff in Hin. destruct Hin as [Hin | [<- | []]]; auto.
    exists P, d. rewrite in_app_iff, <- Hk. apply oget_None in E. auto.
Qed.

Lemma linkUseDev_caused P d (st : linkState) :
  In P (values c0) -> In d (usesDev P) -> keys (fst st) = keys c0 ->
  caused c0 st -> caused c0 (linkUseDev (name P) st d).
Proof.
  intros HP Hd Hk [Hedge Hmsg]. unfold linkUseDev.
  destruct (oget (fst st) d) as [target|] eqn:E; split; simpl; auto.
  - intros q Q HQ. apply In_oset in HQ. destruct HQ as [[= -> ->] | HQ]; auto.
    apply oget_Some_In in E. destruct (Hedge _ _ E) as [H1 H2].
    split; simpl; auto.
    intros n Hn. apply in_app_iff in Hn. destruct Hn as [Hn | [<- | []]]; eauto.
  - intros msg Hin. apply in_app_iff in Hin. destruct Hin as [Hin | [<- | []]]; auto.
    exists P, d. rewrite in_app_iff, <- Hk. apply oget_None in E. auto.
Qed.

Lemma linkUse_keys n (st : linkState) d : keys (fst (linkUse n st d)) = keys (fst st).
Proof.
  rewrite <- (unlinkedCache_keys (fst (linkUse n st d))), <- (unlinkedCache_keys (fst st)).
  now rewrite linkUse_unlinked.
Qed.

Lemma linkUseDev_keys n (st : linkState) d : keys (fst (linkUseDev n st d)) = keys (fst st).
Proof.
  rewrite <- (unlinkedCache_keys (fst (linkUseDev n st d))), <- (unlinkedCache_keys (fst st)).
  now rewrite linkUseDev_unlinked.
Qed.

Lemma linkPackage_keys (st : linkState) pkg : keys (fst (linkPackage st pkg)) = keys (fst st).
Proof.
  rewrite <- (unlinkedCache_keys (fst (linkPackage st pkg))), <- (unlinkedCache_keys (fst st)).
  now rewrite linkPackage_unlinked.
Qed.

Lemma linkPackage_caused P (st : linkState) :
  In P (values c0) -> keys (fst st) = keys c0 ->
  caused c0 st -> caused c0 (linkPackage st P).
Proof.
  intros HP Hk Hc. unfold linkPackage.
  assert (H1 : keys (fst (fold_left (linkUse (name P)) (uses P) st)) = keys c0
               /\ caused c0 (fold_left (linkUse (name P)) (uses P) st)).
  { apply (fold_left_invariant
             (fun s => keys (fst s) = keys c0 /\ caused c0 s)); auto.
    intros s d Hd [Hks Hcs]. split.
    - now rewrite linkUse_keys.
    - now apply linkUse_caused. }
  apply (fold_left_invariant
           (fun s => keys (fst s) = keys c0 /\ caused c0 s)); auto.
  intros s d Hd [Hks Hcs]. split.
  - now rewrite linkUseDev_keys.
  - now apply linkUseDev_caused.
Qed.

Lemma linkAll_caused : (forall k P, In (k, P) c0 -> usedBy P = [] /\ usedByDev P = []) ->
  caused c0 (linkAll c0).
Proof.
  intros Hempty. unfold linkAll.
  apply (fold_left_invariant
           (fun s => keys (fst s) = keys c0 /\ caused c0 s)).
  - intros s P HP [Hks Hcs]. split.
    + now rewrite linkPackage_keys.
    + now apply linkPackage_caused.
  - split; auto. split; simpl; [|intros ? []].
    intros q Q HQ. destruct (Hempty _ _ HQ) as [-> ->].
    split; intros ? [].
Qed.

End Caused.

Lemma getPackageDependencies_caused (packages : RawPackages) :
  caused (initialCache packages) (linkAll (initialCache packages)).
Proof.
  apply linkAll_caused. intros k P H.
  apply initialCache_spec in H. destruct H as (r & _ & ->). auto.
Qed.

(** *** No dependency is forgotten *)

Lemma grows_refl st : grows st st.
Proof.
  repeat split; auto using incl_refl.
  intros d Q H. exists Q. auto using incl_refl.
Qed.

Lemma grows_trans st1 st2 st3 : grows st1 st2 -> grows st2 st3 -> grows st1 st3.
Proof.
  intros (K1 & E1 & L1) (K2 & E2 & L2). repeat split.
  - congruence.
  - intros d Q H. destruct (E1 _ _ H) as (Q' & H' & I1 & I2).
    destruct (E2 _ _ H') as (Q'' & H'' & I3 & I4).
    exists Q''. eauto using incl_tran.
  - eauto using incl_tran.
Qed.

Lemma linkUse_grows n (st : linkState) d : grows st (linkUse n st d).
Proof.
  repeat split.
  - apply linkUse_keys.
  - intros d' Q H. unfold linkUse.
    destruct (oget (fst st) d) as [target|] eqn:E; simpl.
    + destruct (string_dec d d') as [<- | Hne].
      * rewrite oget_oset_eq. eexists; split; [reflexivity|].
        assert (target = Q) as -> by congruence.
        simpl. split; [apply incl_appl|]; apply incl_refl.
      * rewrite oget_oset_neq by assumption. eauto using incl_refl.
    + eauto using incl_refl.
  - unfold linkUse. destruct (oget (fst st) d); simpl; [apply incl_refl|].
    apply incl_appl, incl_refl.
Qed.

Lemma linkUseDev_grows n (st : linkState) d : grows st (linkUseDev n st d).
Proof.
  repeat split.
  - apply linkUseDev_keys.
  - intros d' Q H. unfold linkUseDev.
    destruct (oget (fst st) d) as [target|] eqn:E; simpl.
    + destruct (string_dec d d') as [<- | Hne].
      * rewrite oget_oset_eq. eexists; split; [reflexivity|].
        assert (target = Q) as -> by congruence.
        simpl. split; [|apply incl_appl]; apply incl_refl.
      * rewrite oget_oset_neq by assumption. eauto using incl_refl.
    + eauto using incl_refl.
  - unfold linkUseDev. destruct (oget (fst st) d); simpl; [apply incl_refl|].
    apply incl_appl, incl_refl.
Qed.

Lemma fold_grows {B} (f : linkState -> B -> linkState) (l : list B) :
  (forall s b, grows s (f s b)) -> forall st, grows st (fold_left f l st).
Proof.
  intros Hf. induction l as [|b l IH]; simpl; intros st.
  - apply grows_refl.
  - eapply grows_trans; [apply Hf | apply IH].
Qed.

Lemma linkPackage_grows (st : linkState) pkg : grows st (linkPackage st pkg).
Proof.
  unfold linkPackage.
  apply grows_trans with (st2 := fold_left (linkUse (name pkg)) (uses pkg) st);
    apply fold_grows; intros s b.
  - apply linkUse_grows.
  - apply linkUseDev_grows.
Qed.

Lemma linkedUse_grows n d st st' : grows st st' -> linkedUse n d st -> linkedUse n d st'.
Proof.
  intros (K & E & L) [(Q & HQ & Hn) | (Hk & Hm)]; [left | right].
  - destruct (E _ _ HQ) as (Q' & HQ' & I1 & _). eauto.
  - rewrite K. auto.
Qed.

Lemma linkedUseDev_grows n d st st' :
  grows st st' -> linkedUseDev n d st -> linkedUseDev n d st'.
Proof.
  intros (K & E & L) [(Q & HQ & Hn) | (Hk & Hm)]; [left | right].
  - destruct (E _ _ HQ) as (Q' & HQ' & _ & I2). eauto.
  - rewrite K. auto.
Qed.

Lemma linkUse_linked n (st : linkState) d : linkedUse n d (linkUse n st d).
Proof.
  unfold linkUse, linkedUse. destruct (oget (fst st) d) as [target|] eqn:E; simpl.
  - left. rewrite oget_oset_eq. eexists; split; [reflexivity|].
    simpl. apply in_app_iff. right. now left.
  - right. apply oget_None in E. split; auto.
    apply in_app_iff. right. now left.
Qed.

Lemma linkUseDev_linked n (st : linkState) d : linkedUseDev n d (linkUseDev n st d).
Proof.
  unfold linkUseDev, linkedUseDev. destruct (oget (fst st) d) as [target|] eqn:E; simpl.
  - left. rewrite oget_oset_eq. eexists; split; [reflexivity|].
    simpl. apply in_app_iff. right. now left.
  - right. apply oget_None in E. split; auto.
    apply in_app_iff. right. now left.
Qed.

(** After a fold, every element of the list has been treated, and what was
    achieved for it has survived the later steps. *)
Lemma fold_achieves {B} (f : linkState -> B -> linkState)
      (R : B -> linkState -> Prop) (l : list B) :
  (forall s b, grows s (f s b)) ->
  (forall s b, R b (f s b)) ->
  (forall b s s', grows s s' -> R b s -> R b s') ->
  forall st b, In b l -> R b (fold_left f l st).
Proof.
  intros Hg Hr Hm. induction l as [|a l IH]; simpl; intros st b [].
  - subst a. eapply Hm; [apply fold_grows; assumption | apply Hr].
  - now apply IH.
Qed.

Lemma linkPackage_linked (st : linkState) pkg :
  (forall d, In d (uses pkg) -> linkedUse (name pkg) d (linkPackage st pkg))
  /\ (forall d, In d (usesDev pkg) -> linkedUseDev (name pkg) d (linkPackage st pkg)).
Proof.
  unfold linkPackage. split; intros d Hd.
  - eapply linkedUse_grows; [apply fold_grows, linkUseDev_grows|].
    apply (fold_achieves (linkUse (name pkg)) (linkedUse (name pkg)));
      auto using linkUse_grows, linkUse_linked.
    intros; eapply linkedUse_grows; eauto.
  - apply (fold_achieves (linkUseDev (name pkg)) (linkedUseDev (name pkg)));
      auto using linkUseDev_grows, linkUseDev_linked.
    intros; eapply linkedUseDev_grows; eauto.
Qed.

Lemma linkAll_linked c pkg :
  In pkg (values c) ->
  (forall d, In d (uses pkg) -> linkedUse (name pkg) d (linkAll c))
  /\ (forall d, In d (usesDev pkg) -> linkedUseDev (name pkg) d (linkAll c)).
Proof.
  intros Hin. unfold linkAll.
  apply (fold_achieves linkPackage
           (fun p s =>
              (forall d, In d (uses p) -> linkedUse (name p) d s)
              /\ (forall d, In d (usesDev p) -> linkedUseDev (name p) d s)));
    auto using linkPackage_grows, linkPackage_linked.
  intros p s s' G [H1 H2]. split; intros d Hd.
  - eapply linkedUse_grows; eauto.
  - eapply linkedUseDev_grows; eauto.
Qed.

(** *** The edges of the graph *)

(** A package of the graph is stored under its own name, and no other
    package has that name. *)
Lemma graph_value_entry (packages : RawPackages) P :
  In P (values (getPackageDependencies packages)) ->
  In (name P, P) (getPackageDependencies packages).
Proof.
  intros H. apply in_map_iff in H. destruct H as ([k P'] & <- & H).
  simpl. now rewrite (getPackageDependencies_name _ _ _ H).
Qed.

Lemma graph_oget (packages : RawPackages) P :
  In P (values (getPackageDependencies packages)) ->
  oget (getPackageDependencies packages) (name P) = Some P.
Proof.
  intros H. apply In_oget.
  - apply getPackageDependencies_NoDup.
  - now apply graph_value_entry.
Qed.

(** The record that caused a reverse edge is the record of that name. *)
Lemma cause_is_record (packages : RawPackages) P P0 :
  In P (values (getPackageDependencies packages)) ->
  In P0 (values (initialCache packages)) ->
  name P0 = name P ->
  P0 = unlinked P.
Proof.
  intros HP HP0 Hname.
  destruct (initialCache_spec packages) as [Hnd Hnew].
  apply graph_value_entry, unlinkedCache_In in HP.
  rewrite getPackageDependencies_unlinked in HP.
  apply in_map_iff in HP0. destruct HP0 as ([k P0'] & <- & HP0). simpl in *.
  assert (k = name P) as ->.
  { destruct (Hnew _ _ HP0) as (r & _ & ->). simpl in Hname. congruence. }
  apply In_oget in HP, HP0; auto. congruence.
Qed.

Lemma usedBy_sound (packages : RawPackages) P Q :
  In P (values (getPackageDependencies packages)) ->
  In Q (values (getPackageDependencies packages)) ->
  (In (name P) (usedBy Q) -> In (name Q) (uses P))
  /\ (In (name P) (usedByDev Q) -> In (name Q) (usesDev P)).
Proof.
  intros HP HQ.
  destruct (getPackageDependencies_caused packages) as [Hedge _].
  apply graph_value_entry in HQ.
  destruct (Hedge _ _ HQ) as [H1 H2].
  split; intros Hin.
  - destruct (H1 _ Hin) as (P0 & HP0 & Hname & Huse).
    now rewrite (cause_is_record _ _ _ HP HP0 Hname) in Huse.
  - destruct (H2 _ Hin) as (P0 & HP0 & Hname & Huse).
    now rewrite (cause_is_record _ _ _ HP HP0 Hname) in Huse.
Qed.

(** C4: in a graph built by [getPackageDependencies], if the name of P is in
    the usedBy list of Q then the name of Q is in the uses or usesDev list of
    P, and likewise if the name of P is in the usedByDev list of Q. *)
Theorem edge_symmetry (packages : RawPackages) (P Q : Package) :
  In P (values (getPackageDependencies packages)) ->
  In Q (values (getPackageDependencies packages)) ->
  (In (name P) (usedBy Q) -> In (name Q) (uses P) \/ In (name Q) (usesDev P))
  /\ (In (name P) (usedByDev Q) -> In (name Q) (uses P) \/ In (name Q) (usesDev P)).
Proof.
  intros HP HQ. destruct (usedBy_sound _ _ _ HP HQ) as [H1 H2].
  split; intros H; [left | right]; auto.
Qed.

Lemma edge_symmetry_witness :
  let g := getPackageDependencies chainWorkspace in
  let P := recordOf g "@prisma/a" in
  let Q := recordOf g "@prisma/b" in
  In P (values g) /\ In Q (values g)
  /\ In (name P) (usedBy Q)
  /\ (In (name Q) (uses P) \/ In (name Q) (usesDev P)).
Proof.
  assert (HP : In (recordOf (getPackageDependencies chainWorkspace) "@prisma/a")
                  (values (getPackageDependencies chainWorkspace)))
    by (vm_compute; tauto).
  assert (HQ : In (recordOf (getPackageDependencies chainWorkspace) "@prisma/b")
                  (values (getPackageDependencies chainWorkspace)))
    by (vm_compute; tauto).
  assert (HE : In (name (recordOf (getPackageDependencies chainWorkspace) "@prisma/a"))
                  (usedBy (recordOf (getPackageDependencies chainWorkspace) "@prisma/b")))
    by (vm_compute; tauto).
  repeat split; try assumption.
  exact (proj1 (@edge_symmetry chainWorkspace _ _ HP HQ) HE).
Defined.

(** The reverse edges are complete as well: a dependency that is in the
    workspace knows its dependant. *)
Lemma usedBy_complete (packages : RawPackages) P Q :
  In P (values (getPackageDependencies packages)) ->
  In Q (values (getPackageDependencies packages)) ->
  (In (name Q) (uses P) -> In (name P) (usedBy Q))
  /\ (In (name Q) (usesDev P) -> In (name P) (usedByDev Q)).
Proof.
  intros HP HQ.
  assert (HP0 : In (unlinked P) (values (initialCache packages))).
  { rewrite <- getPackageDependencies_unlinked.
    apply graph_value_entry, unlinkedCache_In in HP.
    apply in_map_iff. now exists (name P, unlinked P). }
  destruct (linkAll_linked _ _ HP0) as [H1 H2].
  pose proof (graph_oget packages Q HQ) as HgQ.
  unfold getPackageDependencies in HgQ.
  split; intros Hin.
  - destruct (H1 _ Hin) as [(Q' & HQ' & Hn) | (Hk & _)].
    + simpl in Hn. congruence.
    + exfalso. apply Hk. eapply oget_Some_key; eauto.
  - destruct (H2 _ Hin) as [(Q' & HQ' & Hn) | (Hk & _)].
    + simpl in Hn. congruence.
    + exfalso. apply Hk. eapply oget_Some_key; eauto.
Qed.

(** Every name in a reverse-edge list is the name of a package of the graph. *)
Lemma usedBy_in_graph (packages : RawPackages) Q n :
  In Q (values (getPackageDependencies packages)) ->
  In n (usedBy Q ++ usedByDev Q) ->
  In n (keys (getPackageDependencies packages)).
Proof.
  intros HQ Hn.
  destruct (getPackageDependencies_caused packages) as [Hedge _].
  apply graph_value_entry in HQ. destruct (Hedge _ _ HQ) as [H1 H2].
  rewrite getPackageDependencies_keys.
  assert (G : exists P0, In P0 (values (initialCache packages)) /\ name P0 = n).
  { apply in_app_iff in Hn. destruct Hn as [Hn | Hn].
    - destruct (H1 _ Hn) as (P0 & ? & ? & _). eauto.
    - destruct (H2 _ Hn) as (P0 & ? & ? & _). eauto. }
  destruct G as (P0 & HP0 & <-).
  apply in_map_iff in HP0. destruct HP0 as ([k P0'] & <- & HP0). simpl.
  destruct (proj2 (initialCache_spec packages) _ _ HP0) as (r & _ & ->). simpl.
  change k with (fst (k, newPackage k r)). now apply in_map.
Qed.

(** *** What the uses lists hold *)

(** The claim that every name of a uses list is a package of the workspace
    fails: a scoped dependency from elsewhere stays in the list. *)
Lemma uses_keeps_unknown_name :
  let g := getPackageDependencies outsideWorkspace in
  In "@prisma/elsewhere" (uses (recordOf g "@prisma/a"))
  /\ In (recordOf g "@prisma/a") (values g)
  /\ ~ In "@prisma/elsewhere" (keys g).
Proof.
  vm_compute. intuition congruence.
Qed.

(** C6, as the code has it: after graph construction the uses and usesDev
    lists of every package are exactly the names of the dependencies and
    devDependencies of its manifest that start with [@prisma], whether or not
    they are names of discovered packages; such a name that is not in the
    discovered set stays in the list, and the builder prints the Skipping
    message for it (and prints nothing else). *)
Theorem uses_are_scoped_dependencies (packages : RawPackages) (P : Package) :
  In P (values (getPackageDependencies packages)) ->
  uses P = getPrismaDependencies (dependencies (packageJson P))
  /\ usesDev P = getPrismaDependencies (devDependencies (packageJson P))
  /\ (forall d, In d (uses P ++ usesDev P) ->
        ~ In d (keys (getPackageDependencies packages)) ->
        In (skipping d) (getPackageDependencies_info packages))
  /\ (forall msg, In msg (getPackageDependencies_info packages) ->
        exists d, msg = skipping d
                  /\ ~ In d (keys (getPackageDependencies packages))).
Proof.
  intros HP.
  pose proof (graph_value_entry packages P HP) as HE.
  destruct (getPackageDependencies_entry packages _ _ HE) as (r & _ & Hr).
  assert (Hu : uses P = uses (unlinked P)) by reflexivity.
  assert (Hd : usesDev P = usesDev (unlinked P)) by reflexivity.
  assert (Hj : packageJson P = packageJson (unlinked P)) by reflexivity.
  rewrite Hr in Hu, Hd, Hj. simpl in Hu, Hd, Hj.
  split; [congruence|]. split; [congruence|]. split.
  - intros d Hin Hkey.
    assert (HP0 : In (unlinked P) (values (initialCache packages))).
    { rewrite <- getPackageDependencies_unlinked.
      apply unlinkedCache_In in HE.
      apply in_map_iff. now exists (name P, unlinked P). }
    destruct (linkAll_linked _ _ HP0) as [H1 H2].
    unfold getPackageDependencies_info.
    apply in_app_iff in Hin. destruct Hin as [Hin | Hin].
    + destruct (H1 _ Hin) as [(Q & HQ & _) | (_ & Hm)]; auto.
      exfalso. apply Hkey. eapply oget_Some_key; eauto.
    + destruct (H2 _ Hin) as [(Q & HQ & _) | (_ & Hm)]; auto.
      exfalso. apply Hkey. eapply oget_Some_key; eauto.
  - intros msg Hmsg.
    destruct (getPackageDependencies_caused packages) as [_ Hlog].
    destruct (Hlog _ Hmsg) as (P0 & d & _ & _ & Hk & ->).
    exists d. split; auto. now rewrite getPackageDependencies_keys.
Qed.

Lemma uses_are_scoped_dependencies_witness :
  let g := getPackageDependencies outsideWorkspace in
  let P := recordOf g "@prisma/a" in
  In P (values g)
  /\ uses P = ["@prisma/elsewhere"]
  /\ In (skipping "@prisma/elsewhere") (getPackageDependencies_info outsideWorkspace).
Proof.
  assert (HP : In (recordOf (getPackageDependencies outsideWorkspace) "@prisma/a")
                  (values (getPackageDependencies outsideWorkspace)))
    by (vm_compute; tauto).
  destruct (@uses_are_scoped_dependencies outsideWorkspace _ HP)
    as (Hu & _ & Hskip & _).
  split; [exact HP|]. split; [rewrite Hu; reflexivity|].
  apply Hskip; vm_compute; intuition congruence.
Defined.

(** ** Cycle detector *)

Lemma intersection_In arr1 arr2 n :
  In n (intersection arr1 arr2) <-> In n arr1 /\ In n arr2.
Proof.
  unfold intersection, includes. rewrite filter_In, existsb_exists.
  split.
  - intros (H1 & x & Hx & E). apply String.eqb_eq in E. now subst.
  - intros (H1 & H2). split; auto. exists n. split; auto. apply String.eqb_refl.
Qed.

(** The loop collects the non-empty intersections, in enumeration order. *)
Lemma getCircularDependencies_filter (packages : Packages) :
  getCircularDependencies packages
  = filter (fun circles => (0 <? List.length circles)%nat)
           (map circlesOf (values packages)).
Proof.
  unfold getCircularDependencies.
  assert (G : forall (l : list Package) acc,
             fold_left
               (fun circularDeps pkg =>
                  let circles := circlesOf pkg in
                  if (0 <? List.length circles)%nat then circularDeps ++ [circles]
                  else circularDeps) l acc
             = acc ++ filter (fun circles => (0 <? List.length circles)%nat)
                             (map circlesOf l)).
  { induction l as [|p l IH]; intros acc; simpl.
    - now rewrite app_nil_r.
    - rewrite IH. destruct (0 <? List.length (circlesOf p))%nat; auto.
      now rewrite <- app_assoc. }
  apply G.
Qed.

(** C3: the result of [getCircularDependencies] is non-empty exactly when
    some package has a name that is both in its uses or usesDev list and in
    its usedBy or usedByDev list.  It is non-empty for two packages that
    depend on each other, and empty for a chain A, B, C and also for the
    longer cycle A, B, C, A. *)
Theorem getCircularDependencies_spec :
  (forall packages : Packages,
      getCircularDependencies packages <> []
      <-> exists pkg n, In pkg (values packages)
                        /\ In n (uses pkg ++ usesDev pkg)
                        /\ In n (usedBy pkg ++ usedByDev pkg))
  /\ getCircularDependencies (getPackageDependencies mutualWorkspace)
     = [["@prisma/b"]; ["@prisma/a"]]
  /\ getCircularDependencies (getPackageDependencies chainWorkspace) = []
  /\ getCircularDependencies (getPackageDependencies triangleWorkspace) = [].
Proof.
  split; [|repeat split; reflexivity].
  intros packages. rewrite getCircularDependencies_filter. split.
  - intros Hne.
    destruct (filter _ _) as [|circles rest] eqn:E; [congruence|].
    assert (Hin : In circles (circles :: rest)) by now left.
    rewrite <- E in Hin. apply filter_In in Hin. destruct Hin as [Hin Hlen].
    apply in_map_iff in Hin. destruct Hin as (pkg & <- & Hpkg).
    destruct (circlesOf pkg) as [|n ns] eqn:Ec; [discriminate|].
    assert (Hn : In n (circlesOf pkg)) by (rewrite Ec; now left).
    apply intersection_In in Hn. exists pkg, n. tauto.
  - intros (pkg & n & Hpkg & H1 & H2) Hnil.
    assert (Hn : In n (circlesOf pkg)) by (apply intersection_In; tauto).
    assert (Hin : In (circlesOf pkg)
                     (filter (fun circles => (0 <? List.length circles)%nat)
                             (map circlesOf (values packages)))).
    { apply filter_In. split; [now apply in_map|].
      destruct (circlesOf pkg); [contradiction | reflexivity]. }
    rewrite Hnil in Hin. contradiction.
Qed.

(** ** Change-impact resolver *)

Unset Implicit Arguments.

Lemma posix_dirname_examples :
  posix_dirname "pkgs/a/package.json" = "pkgs/a"
  /\ posix_dirname "package.json" = "."
  /\ posix_dirname "/package.json" = "/"
  /\ posix_dirname "lift//package.json" = "lift/"
  /\ posix_dirname "a/b/" = "a"
  /\ posix_dirname "" = ".".
Proof. repeat split; reflexivity. Qed.

Lemma posix_dirname_nonempty s : posix_dirname s <> "".
Proof.
  unfold posix_dirname.
  destruct (list_ascii_of_string s) as [|c0 rest]; [discriminate|].
  destruct (dropWhile _ _) as [|x [|y before]];
    try destruct (isSlash c0); simpl; discriminate.
Qed.

(** *** Counting with filters *)

Lemma filter_length_mono {A} (f g : A -> bool) (l : list A) :
  (forall x, In x l -> f x = true -> g x = true) ->
  (List.length (filter f l) <= List.length (filter g l))%nat.
Proof.
  induction l as [|x l IH]; simpl; intros H; [lia|].
  assert (IH' := IH (fun y Hy => H y (or_intror Hy))).
  destruct (f x) eqn:Ef.
  - rewrite (H x (or_introl eq_refl) Ef). simpl. lia.
  - destruct (g x); simpl; lia.
Qed.

Lemma filter_length_strict {A} (f g : A -> bool) (l : list A) (x : A) :
  (forall y, In y l -> f y = true -> g y = true) ->
  In x l -> f x = false -> g x = true ->
  (List.length (filter f l) < List.length (filter g l))%nat.
Proof.
  induction l as [|y l IH]; simpl; intros H Hin Hf Hg; [contradiction|].
  assert (Hmono := filter_length_mono f g l (fun z Hz => H z (or_intror Hz))).
  destruct Hin as [-> | Hin].
  - rewrite Hf, Hg. simpl. lia.
  - assert (IH' := IH (fun z Hz => H z (or_intror Hz)) Hin Hf Hg).
    destruct (f y) eqn:Ef.
    + rewrite (H y (or_introl eq_refl) Ef). simpl. lia.
    + destruct (g y); simpl; lia.
Qed.

Lemma NoDup_map_filter {A B} (g : A -> B) (f : A -> bool) (l : list A) :
  NoDup (map g l) -> NoDup (map g (filter f l)).
Proof.
  induction l as [|x l IH]; simpl; intros H; [constructor|].
  inversion H as [|? ? Hnin Hnd]; subst.
  destruct (f x); simpl; auto.
  constructor; auto.
  intros Hin. apply Hnin. apply in_map_iff in Hin.
  destruct Hin as (y & <- & Hy). apply filter_In in Hy. apply in_map. tauto.
Qed.

(** *** The recursion ends *)

Section ResolverTotal.

Variable packages : Packages.

Local Abbreviation K a := (keys (affectedPackages a)).

Lemma In_keys_assign k p a x : In x (K (assign k p a)) <-> x = k \/ In x (K a).
Proof. apply In_keys_oset. Qed.

Lemma missing_mono a a' :
  incl (K a) (K a') -> (missing packages a' <= missing packages a)%nat.
Proof.
  intros Hincl. unfold missing. apply filter_length_mono.
  intros k _ Hk. apply negb_true_iff in Hk. apply negb_true_iff.
  apply has_false in Hk. apply has_false. auto.
Qed.

Lemma missing_assign d p a :
  ~ In d (K a) -> In d (keys packages) ->
  (missing packages (assign d p a) < missing packages a)%nat.
Proof.
  intros Hnew Hkey. unfold missing. apply filter_length_strict with (x := d); auto.
  - intros k _ Hk. apply negb_true_iff in Hk. apply negb_true_iff.
    apply has_false in Hk. apply has_false.
    intros Hin. apply Hk. apply In_keys_assign. auto.
  - apply negb_false_iff, has_true, In_keys_assign. auto.
  - apply negb_true_iff, has_false. assumption.
Qed.

(** A call that ends, and that forgets nothing when it ends well. *)
Definition endsGrowing (a : affected) (o : option (result affected)) : Prop :=
  exists r, o = Some r /\ forall a', r = Ok a' -> incl (K a) (K a').

Lemma addEach_total (m : nat) rec :
  (forall p a, (missing packages a < m)%nat -> endsGrowing a (rec p a)) ->
  forall names a, (missing packages a <= m)%nat ->
    endsGrowing a (addEach packages rec names a).
Proof.
  intros Hrec. induction names as [|d rest IH]; intros a Hm; simpl.
  - exists (Ok a). split; [reflexivity|]. intros a' [= <-]. apply incl_refl.
  - destruct (truthyProperty (affectedPackages a) d) eqn:Etruthy; [now apply IH|].
    apply orb_false_iff in Etruthy. destruct Etruthy as [Ehas _].
    apply has_false in Ehas.
    destruct (oget packages d) as [p|] eqn:Ep.
    + assert (Hlt : (missing packages (assign d p a) < missing packages a)%nat).
      { apply missing_assign; auto. eapply oget_Some_key; eauto. }
      destruct (Hrec p (assign d p a)) as (r1 & -> & Hr1); [lia|].
      destruct r1 as [a2|e].
      * assert (H12 := Hr1 a2 eq_refl).
        assert (Hm2 := missing_mono _ _ H12).
        destruct (IH a2) as (r & Hr & Hgrow); [lia|].
        exists r. split; [assumption|]. intros a' ->.
        intros x Hx. apply (Hgrow a' eq_refl), H12, In_keys_assign. auto.
      * exists (Throw e). split; [reflexivity | discriminate].
    + eexists. split; [reflexivity | discriminate].
Qed.

Lemma addDependants_total fuel :
  forall pkg a, (missing packages a < fuel)%nat ->
    endsGrowing a (addDependants packages fuel pkg a).
Proof.
  induction fuel as [|fuel IH]; intros pkg a Hm; [lia|]. simpl.
  destruct (addEach_total fuel _ IH (usedBy pkg) a) as (r1 & -> & Hr1);
    [lia|].
  destruct r1 as [a1|e].
  - assert (H1 := Hr1 a1 eq_refl). assert (Hm1 := missing_mono _ _ H1).
    destruct (addEach_total fuel _ IH (usedByDev pkg) a1)
      as (r2 & -> & Hr2); [lia|].
    exists r2. split; [reflexivity|]. intros a' ->. eapply incl_tran; eauto.
  - exists (Throw e). split; [reflexivity | discriminate].
Qed.

Lemma addAll_total fuel changedPackages :
  forall a, (missing packages a < fuel)%nat ->
    endsGrowing a (addAll packages fuel changedPackages a).
Proof.
  induction changedPackages as [|pkg rest IH]; intros a Hm; simpl.
  - exists (Ok a). split; [reflexivity|]. intros a' [= <-]. apply incl_refl.
  - destruct (addDependants_total fuel pkg a Hm) as (r1 & -> & Hr1).
    destruct r1 as [a1|e].
    + assert (H1 := Hr1 a1 eq_refl). assert (Hm1 := missing_mono _ _ H1).
      destruct (IH a1) as (r & -> & Hr); [lia|].
      exists r. split; [reflexivity|]. intros a' ->. eapply incl_tran; eauto.
    + exists (Throw e). split; [reflexivity | discriminate].
Qed.

Lemma missing_le a : (missing packages a <= List.length packages)%nat.
Proof.
  unfold missing, keys.
  rewrite <- (length_map fst packages). apply filter_length_le.
Qed.

End ResolverTotal.

(** The resolver ends on every graph, well formed or not, with a result or
    with an exception. *)
Lemma resolve_total dirname (packages : Packages) (changes : list string) :
  exists r, getPackagesAffectedByChange_run dirname packages changes = Some r.
Proof.
  unfold getPackagesAffectedByChange_run, resolve.
  destruct (addAll_total packages (S (List.length packages))
              (changedPackagesOf dirname packages changes)
              (initialAffected (changedPackagesOf dirname packages changes)))
    as (r & Hr & _).
  - pose proof (missing_le packages
                  (initialAffected (changedPackagesOf dirname packages changes))).
    lia.
  - eauto.
Qed.

(** *** Well-formed graphs *)

Lemma wellFormed_names packages :
  wellFormed packages -> map name (values packages) = keys packages.
Proof.
  intros [_ H]. unfold values, keys. rewrite map_map.
  apply map_ext_in. intros [k p] Hin. simpl. now apply H.
Qed.

Lemma wellFormed_oget packages p :
  wellFormed packages -> In p (values packages) ->
  oget packages (name p) = Some p.
Proof.
  intros [Hnd H] Hin. apply in_map_iff in Hin.
  destruct Hin as ([k q] & <- & Hin). simpl.
  destruct (H _ _ Hin) as [-> _]. now apply In_oget.
Qed.

Lemma wellFormed_dependants packages p n :
  wellFormed packages -> In p (values packages) -> In n (dependants p) ->
  In n (keys packages).
Proof.
  intros [_ H] Hin Hn. apply in_map_iff in Hin.
  destruct Hin as ([k q] & <- & Hin). simpl in Hn.
  now apply (H _ _ Hin).
Qed.

Lemma plainNames_spec (packages : Packages) k :
  plainNames packages -> In k (keys packages) ->
  includes inheritedProperties k = false.
Proof.
  intros H Hk. unfold plainNames in H.
  rewrite forallb_forall in H. apply H in Hk. now apply negb_true_iff in Hk.
Qed.

(** *** What the accumulator always satisfies *)

Section ResolverConsistent.

Variable packages : Packages.

Local Abbreviation K a := (keys (affectedPackages a)).

Lemma consistent_assign d p a :
  ~ In d (K a) -> oget packages d = Some p ->
  consistent packages a -> consistent packages (assign d p a).
Proof.
  intros Hnew Hp (Ht & Hnd & Hv). repeat split; simpl.
  - rewrite keys_oset_absent by assumption. now rewrite Ht.
  - now apply NoDup_keys_oset.
  - intros k q. destruct (string_dec d k) as [<- | Hne].
    + rewrite oget_oset_eq. congruence.
    + rewrite oget_oset_neq by assumption. auto.
Qed.

Lemma addEach_consistent rec :
  (forall p a a', rec p a = Some (Ok a') -> consistent packages a ->
     consistent packages a') ->
  forall names a a',
    addEach packages rec names a = Some (Ok a') -> consistent packages a ->
    consistent packages a'.
Proof.
  intros Hrec. induction names as [|d rest IH]; intros a a' Hrun Hcons; simpl in Hrun.
  - now injection Hrun as <-.
  - destruct (truthyProperty (affectedPackages a) d) eqn:Etruthy; [eauto|].
    apply orb_false_iff in Etruthy. destruct Etruthy as [Ehas _].
    apply has_false in Ehas.
    destruct (oget packages d) as [p|] eqn:Ep; [|discriminate].
    destruct (rec p (assign d p a)) as [[a2|e]|] eqn:Erec; try discriminate.
    apply (IH _ _ Hrun).
    apply (Hrec _ _ _ Erec). now apply consistent_assign.
Qed.

Lemma addDependants_consistent fuel :
  forall pkg a a',
    addDependants packages fuel pkg a = Some (Ok a') -> consistent packages a ->
    consistent packages a'.
Proof.
  induction fuel as [|fuel IH]; intros pkg a a' Hrun Hcons; simpl in Hrun;
    [discriminate|].
  destruct (addEach packages _ (usedBy pkg) a) as [[a1|e]|] eqn:E1; try discriminate.
  apply (addEach_consistent _ IH _ _ _ Hrun).
  apply (addEach_consistent _ IH _ _ _ E1 Hcons).
Qed.

Lemma addAll_consistent fuel changedPackages :
  forall a a',
    addAll packages fuel changedPackages a = Some (Ok a') -> consistent packages a ->
    consistent packages a'.
Proof.
  induction changedPackages as [|pkg rest IH]; intros a a' Hrun Hcons; simpl in Hrun.
  - now injection Hrun as <-.
  - destruct (addDependants packages fuel pkg a) as [[a1|e]|] eqn:E1; try discriminate.
    apply (IH _ _ Hrun). apply (addDependants_consistent _ _ _ _ E1 Hcons).
Qed.

End ResolverConsistent.

(** *** What the recursion computes when no name is an inherited one *)

Section ResolverSound.

Variable packages : Packages.
Hypothesis Hwf : wellFormed packages.
Hypothesis Hplain : plainNames packages.

Local Abbreviation K a := (keys (affectedPackages a)).

Lemma plain_dependants p n :
  In p (values packages) -> In n (dependants p) ->
  includes inheritedProperties n = false.
Proof.
  intros Hp Hn. apply (plainNames_spec packages); auto.
  eapply wellFormed_dependants; eauto.
Qed.

Lemma treated_nil a : treated packages [] a a.
Proof.
  repeat split; auto using incl_refl.
  - intros n [].
  - intros k Hin Hnin. contradiction.
Qed.

Lemma treated_seq n1 n2 a a1 a2 :
  treated packages n1 a a1 -> treated packages n2 a1 a2 ->
  treated packages (n1 ++ n2) a a2.
Proof.
  intros (I1 & N1 & C1 & L1) (I2 & N2 & C2 & L2). repeat split.
  - eapply incl_tran; eauto.
  - intros n Hn. apply in_app_iff in Hn. destruct Hn; auto.
  - intros k Hk Hnew p Hp n Hn.
    destruct (in_dec string_dec k (K a1)) as [Hin | Hnin]; eauto.
  - intros S Hclosed Hnames Ha k Hk.
    apply (L2 S Hclosed); auto.
    + intros n Hn. apply Hnames, in_app_iff. auto.
    + intros k' Hk'. apply (L1 S Hclosed); auto.
      intros n Hn. apply Hnames, in_app_iff. auto.
Qed.

Lemma treated_present d a : In d (K a) -> treated packages [d] a a.
Proof.
  intros Hd. repeat split; auto using incl_refl.
  - intros n [<- | []]. assumption.
  - intros k Hin Hnin. contradiction.
Qed.

Lemma treated_added d p a a2 :
  oget packages d = Some p ->
  treated packages (dependants p) (assign d p a) a2 ->
  treated packages [d] a a2.
Proof.
  intros Hp (I & N & C & L).
  assert (Hd : In d (K (assign d p a))) by (apply In_keys_assign; auto).
  repeat split.
  - intros x Hx. apply I, In_keys_assign. auto.
  - intros n [<- | []]. auto.
  - intros k Hk Hnew pk Hpk n Hn.
    destruct (in_dec string_dec k (K (assign d p a))) as [Hin | Hnin]; eauto.
    apply In_keys_assign in Hin. destruct Hin as [-> | Hin]; [|contradiction].
    assert (pk = p) as -> by congruence. auto.
  - intros S Hclosed Hnames Ha k Hk.
    assert (HSd : S d) by (apply Hnames; now left).
    apply (L S Hclosed); auto.
    + intros n Hn. eapply Hclosed; eauto.
    + intros k' Hk'. apply In_keys_assign in Hk'. destruct Hk' as [-> | Hk']; auto.
Qed.

Lemma addEach_treated rec :
  (forall p a a', In p (values packages) ->
     rec p a = Some (Ok a') -> consistent packages a ->
     consistent packages a' /\ treated packages (dependants p) a a') ->
  forall names a a',
    (forall n, In n names -> includes inheritedProperties n = false) ->
    addEach packages rec names a = Some (Ok a') -> consistent packages a ->
    consistent packages a' /\ treated packages names a a'.
Proof.
  intros Hrec. induction names as [|d rest IH]; intros a a' Hnames Hrun Hcons;
    simpl in Hrun.
  - injection Hrun as <-. split; auto using treated_nil.
  - assert (Hrest : forall n, In n rest -> includes inheritedProperties n = false)
      by (intros n Hn; apply Hnames; now right).
    unfold truthyProperty in Hrun.
    rewrite (Hnames d (or_introl eq_refl)), orb_false_r in Hrun.
    destruct (has (affectedPackages a) d) eqn:Ehas.
    + apply has_true in Ehas. destruct (IH _ _ Hrest Hrun Hcons) as [Hc Ht].
      split; auto. apply (treated_seq _ _ _ _ _ (treated_present _ _ Ehas) Ht).
    + apply has_false in Ehas.
      destruct (oget packages d) as [p|] eqn:Ep; [|discriminate].
      destruct (rec p (assign d p a)) as [[a2|e]|] eqn:Erec; try discriminate.
      assert (Hp : In p (values packages)) by (eapply oget_Some_value; eauto).
      destruct (Hrec _ _ _ Hp Erec (consistent_assign packages _ _ _ Ehas Ep Hcons))
        as [Hc2 Ht2].
      destruct (IH _ _ Hrest Hrun Hc2) as [Hc Ht].
      split; auto.
      apply (treated_seq _ _ _ _ _ (treated_added _ _ _ _ Ep Ht2) Ht).
Qed.

Lemma addDependants_treated fuel :
  forall pkg a a',
    In pkg (values packages) ->
    addDependants packages fuel pkg a = Some (Ok a') -> consistent packages a ->
    consistent packages a' /\ treated packages (dependants pkg) a a'.
Proof.
  induction fuel as [|fuel IH]; intros pkg a a' Hpkg Hrun Hcons; simpl in Hrun;
    [discriminate|].
  assert (H1 : forall n, In n (usedBy pkg) -> includes inheritedProperties n = false)
    by (intros n Hn; apply (plain_dependants pkg); auto; apply in_app_iff; auto).
  assert (H2 : forall n, In n (usedByDev pkg) -> includes inheritedProperties n = false)
    by (intros n Hn; apply (plain_dependants pkg); auto; apply in_app_iff; auto).
  destruct (addEach packages _ (usedBy pkg) a) as [[a1|e]|] eqn:E1; try discriminate.
  destruct (addEach_treated _ IH _ _ _ H1 E1 Hcons) as [Hc1 Ht1].
  destruct (addEach_treated _ IH _ _ _ H2 Hrun Hc1) as [Hc2 Ht2].
  split; auto. apply (treated_seq _ _ _ _ _ Ht1 Ht2).
Qed.

Lemma addAll_treated fuel changedPackages :
  forall a a',
    (forall p, In p changedPackages -> In p (values packages)) ->
    addAll packages fuel changedPackages a = Some (Ok a') -> consistent packages a ->
    consistent packages a'
    /\ treated packages (flat_map dependants changedPackages) a a'.
Proof.
  induction changedPackages as [|pkg rest IH]; intros a a' Hin Hrun Hcons;
    simpl in Hrun.
  - injection Hrun as <-. split; auto using treated_nil.
  - destruct (addDependants packages fuel pkg a) as [[a1|e]|] eqn:E1; try discriminate.
    destruct (addDependants_treated _ _ _ _ (Hin pkg (or_introl eq_refl)) E1 Hcons)
      as [Hc1 Ht1].
    destruct (IH _ _ (fun p Hp => Hin p (or_intror Hp)) Hrun Hc1) as [Hc2 Ht2].
    split; auto. simpl. apply (treated_seq _ _ _ _ _ Ht1 Ht2).
Qed.

End ResolverSound.

Section ResolverStart.

Variable packages : Packages.

Local Abbreviation K a := (keys (affectedPackages a)).

(** The accumulator before the recursion starts. *)
Lemma initialAffected_spec (changedPackages : list Package) :
  NoDup (map name changedPackages) ->
  (forall p, In p changedPackages -> oget packages (name p) = Some p) ->
  consistent packages (initialAffected changedPackages)
  /\ K (initialAffected changedPackages) = map name changedPackages.
Proof.
  intros Hnd Hrec. unfold initialAffected.
  assert (G : forall (l : list Package) acc,
             NoDup (K acc ++ map name l) ->
             (forall p, In p l -> oget packages (name p) = Some p) ->
             consistent packages acc ->
             consistent packages (fold_left (fun acc p => assign (name p) p acc) l acc)
             /\ K (fold_left (fun acc p => assign (name p) p acc) l acc)
                = K acc ++ map name l).
  { induction l as [|p l IH]; intros acc Hn Hr Hc; simpl.
    - now rewrite app_nil_r.
    - assert (Hfresh : ~ In (name p) (K acc)).
      { intros Hin. apply NoDup_remove_2 in Hn. apply Hn, in_app_iff. auto. }
      destruct (IH (assign (name p) p acc)) as [Hc' Hk'].
      + simpl. rewrite keys_oset_absent by assumption.
        rewrite <- app_assoc. exact Hn.
      + intros q Hq. apply Hr. now right.
      + apply consistent_assign; auto. apply Hr. now left.
      + split; auto. rewrite Hk'. simpl.
        rewrite keys_oset_absent by assumption. now rewrite <- app_assoc. }
  destruct (G changedPackages {| affectedPackages := []; assigned := [] |});
    simpl; auto.
  repeat split; [constructor | intros ? ? [=]].
Qed.

End ResolverStart.

(** *** The affected set *)

Lemma prefix_of_empty s : String.prefix s "" = true -> s = "".
Proof. destruct s; simpl; [reflexivity | discriminate]. Qed.

Lemma directlyChanged_spec dirname changes p :
  (forall s, dirname s <> "") ->
  directlyChanged dirname changes p = true <-> changedUnder dirname changes p.
Proof.
  intros Hdir. unfold directlyChanged, changedUnder. split.
  - destruct (find _ changes) as [c|] eqn:E; [|discriminate].
    intros _. apply find_some in E. eauto.
  - intros (c & Hin & Hpre).
    destruct (find _ changes) as [c'|] eqn:E.
    + apply find_some in E. destruct E as [_ E].
      unfold truthy_string. apply negb_true_iff, String.eqb_neq.
      intros ->. apply prefix_of_empty in E. now apply Hdir in E.
    + apply (find_none _ _ E) in Hin. simpl in Hin. congruence.
Qed.

Section ResolverSafe.

Variable packages : Packages.
Hypothesis Hwf : wellFormed packages.

Lemma addEach_safe rec names :
  (forall p a e, In p (values packages) -> rec p a <> Some (Throw e)) ->
  (forall n, In n names -> In n (keys packages)) ->
  forall a e, addEach packages rec names a <> Some (Throw e).
Proof.
  intros Hrec. induction names as [|d rest IH]; intros Hkeys a e; simpl.
  - discriminate.
  - assert (Hrest : forall n, In n rest -> In n (keys packages))
      by (intros; apply Hkeys; now right).
    destruct (truthyProperty (affectedPackages a) d); [now apply IH|].
    destruct (In_key_oget packages d (Hkeys d (or_introl eq_refl))) as [p Hp].
    rewrite Hp.
    destruct (rec p (assign d p a)) as [[a2|e']|] eqn:E.
    + now apply IH.
    + exfalso. eapply Hrec; eauto. eapply oget_Some_value; eauto.
    + discriminate.
Qed.

Lemma addDependants_safe fuel :
  forall p a e, In p (values packages) ->
    addDependants packages fuel p a <> Some (Throw e).
Proof.
  induction fuel as [|fuel IH]; intros p a e Hp; simpl; [discriminate|].
  destruct (addEach packages _ (usedBy p) a) as [[a1|e1]|] eqn:E1.
  - apply addEach_safe; auto.
    intros n Hn. eapply wellFormed_dependants; eauto.
    apply in_app_iff. auto.
  - exfalso. revert E1. apply addEach_safe; auto.
    intros n Hn. eapply wellFormed_dependants; eauto.
    apply in_app_iff. auto.
  - discriminate.
Qed.

Lemma addAll_safe fuel changedPackages :
  (forall p, In p changedPackages -> In p (values packages)) ->
  forall a e, addAll packages fuel changedPackages a <> Some (Throw e).
Proof.
  induction changedPackages as [|p rest IH]; intros Hin a e; simpl.
  - discriminate.
  - destruct (addDependants packages fuel p a) as [[a1|e1]|] eqn:E1.
    + apply IH. intros; apply Hin; now right.
    + exfalso. revert E1. apply addDependants_safe. apply Hin. now left.
    + discriminate.
Qed.

End ResolverSafe.

Lemma getPackageDependencies_wellFormed (packages : RawPackages) :
  wellFormed (getPackageDependencies packages).
Proof.
  split; [apply getPackageDependencies_NoDup|].
  intros k p Hin. split.
  - eapply getPackageDependencies_name; eauto.
  - intros n Hn. apply usedBy_in_graph with (Q := p); auto.
    change p with (snd (k, p)). now apply in_map.
Qed.

(** On a well-formed graph without inherited names the resolver returns,
    and what it returns is the least set of names that holds the directly
    changed packages and is closed under the reverse edges. *)
Lemma resolve_closure dirname (packages : Packages) (changes : list string) :
  (forall s, dirname s <> "") ->
  wellFormed packages ->
  plainNames packages ->
  exists a,
    getPackagesAffectedByChange_run dirname packages changes = Some (Ok a)
    /\ (forall p, In p (values packages) -> changedUnder dirname changes p ->
          In (name p) (keys (affectedPackages a)))
    /\ closedUnder packages (fun k => In k (keys (affectedPackages a)))
    /\ (forall S : string -> Prop,
          (forall p, In p (values packages) -> changedUnder dirname changes p ->
             S (name p)) ->
          closedUnder packages S ->
          forall k, In k (keys (affectedPackages a)) -> S k)
    /\ (forall k p, oget (affectedPackages a) k = Some p -> oget packages k = Some p)
    /\ NoDup (assigned a)
    /\ assigned a = keys (affectedPackages a).
Proof.
  intros Hdir Hwf Hplain.
  set (changed := changedPackagesOf dirname packages changes).
  assert (Hsub : forall p, In p changed -> In p (values packages)).
  { intros p Hp. apply filter_In in Hp. tauto. }
  assert (Hchg : forall p, In p changed <->
                   In p (values packages) /\ changedUnder dirname changes p).
  { intros p. unfold changed, changedPackagesOf.
    rewrite filter_In, directlyChanged_spec by assumption. tauto. }
  assert (Hrec : forall p, In p changed -> oget packages (name p) = Some p).
  { intros p Hp. apply wellFormed_oget; auto. }
  assert (Hnd : NoDup (map name changed)).
  { apply NoDup_map_filter. rewrite wellFormed_names by assumption. apply Hwf. }
  destruct (initialAffected_spec packages changed Hnd Hrec) as [Hc0 Hk0].
  destruct (resolve_total dirname packages changes) as [r Hr].
  assert (Hrun := Hr). unfold getPackagesAffectedByChange_run, resolve in Hrun.
  fold changed in Hrun.
  destruct r as [a|e]; [|exfalso; revert Hrun; now apply addAll_safe].
  destruct (addAll_treated packages Hwf Hplain _ _ _ _ Hsub Hrun Hc0)
    as [(Ht & Hnda & Hv) (I & N & C & L)].
  exists a. split; [assumption|]. repeat split; auto.
  - intros p Hp Hch. apply I. rewrite Hk0. apply in_map. apply Hchg. auto.
  - intros k p n Hk Hp Hn.
    destruct (in_dec string_dec k (keys (affectedPackages (initialAffected changed))))
      as [Hin | Hnin].
    + apply N. rewrite Hk0 in Hin. apply in_map_iff in Hin.
      destruct Hin as (q & <- & Hq). apply in_flat_map. exists q. split; auto.
      rewrite (Hrec _ Hq) in Hp. congruence.
    + eapply C; eauto.
  - intros S HS Hclosed k Hk. apply (L S Hclosed); auto.
    + intros n Hn. apply in_flat_map in Hn. destruct Hn as (q & Hq & Hn).
      apply (Hclosed (name q) q n); auto. apply HS; apply Hchg; auto.
    + intros k' Hk'. rewrite Hk0 in Hk'. apply in_map_iff in Hk'.
      destruct Hk' as (q & <- & Hq). apply HS; apply Hchg; auto.
  - now rewrite Ht.
Qed.

(** The claim that the result is closed under the reverse edges on every
    graph fails for a dependant that is named like a property that objects
    inherit: the package constructor depends on C, C is changed, and the
    affected set is C alone. *)
Lemma inherited_name_is_not_added :
  let g := getPackageDependencies inheritedNameWorkspace in
  wellFormed g
  /\ keys g = ["@prisma/c"; "constructor"]
  /\ usedBy (recordOf g "@prisma/c") = ["constructor"]
  /\ namesOf (getPackagesAffectedByChange posix_dirname g ["pkgs/c/index.ts"])
     = Some (Ok ["@prisma/c"])
  /\ ~ closedUnder g (fun k => In k ["@prisma/c"]).
Proof.
  cbv zeta. split; [apply getPackageDependencies_wellFormed|].
  split; [reflexivity|]. split; [reflexivity|]. split; [reflexivity|].
  intros Hclosed.
  assert (H : In "constructor" ["@prisma/c"]).
  { apply (Hclosed "@prisma/c"
             (recordOf (getPackageDependencies inheritedNameWorkspace) "@prisma/c")
             "constructor"); [now left | reflexivity | now left]. }
  destruct H as [H | []]. discriminate.
Qed.

(** C1, as the code has it: on every package graph none of whose packages is
    named like a property inherited from [Object.prototype], and for every
    change set, [getPackagesAffectedByChange] returns the least superset of
    the directly changed packages (those for which some changed path starts
    with the directory of the manifest) that is closed under the usedBy and
    usedByDev edges, each package being added once; every graph of the
    builder is well formed; the recursion ends on every finite graph; for A
    depending on B depending on C and a change under the directory of C the
    result is A, B and C; on the diamond (A and B depend on C, D depends on
    A and B) it ends with D added once. *)
Theorem getPackagesAffectedByChange_closure :
  (forall dirname (packages : Packages) (changes : list string),
      (forall s, dirname s <> "") ->
      wellFormed packages ->
      plainNames packages ->
      exists a,
        getPackagesAffectedByChange_run dirname packages changes = Some (Ok a)
        /\ getPackagesAffectedByChange dirname packages changes
           = Some (Ok (affectedPackages a))
        /\ (forall p, In p (values packages) -> changedUnder dirname changes p ->
              In (name p) (keys (affectedPackages a)))
        /\ closedUnder packages (fun k => In k (keys (affectedPackages a)))
        /\ (forall S : string -> Prop,
              (forall p, In p (values packages) -> changedUnder dirname changes p ->
                 S (name p)) ->
              closedUnder packages S ->
              forall k, In k (keys (affectedPackages a)) -> S k)
        /\ (forall k p, oget (affectedPackages a) k = Some p ->
              oget packages k = Some p)
        /\ NoDup (assigned a)
        /\ assigned a = keys (affectedPackages a))
  /\ (forall raw : RawPackages, wellFormed (getPackageDependencies raw))
  /\ (forall dirname (packages : Packages) (changes : list string),
        exists r, getPackagesAffectedByChange dirname packages changes = Some r)
  /\ namesOf (getPackagesAffectedByChange posix_dirname
                (getPackageDependencies chainWorkspace) ["pkgs/c/src/index.ts"])
     = Some (Ok ["@prisma/c"; "@prisma/b"; "@prisma/a"])
  /\ option_map (fun r => match r with Ok a => assigned a | Throw _ => [] end)
       (getPackagesAffectedByChange_run posix_dirname
          (getPackageDependencies diamondWorkspace) ["pkgs/c/readme.md"])
     = Some ["@prisma/c"; "@prisma/a"; "@prisma/d"; "@prisma/b"]
  /\ namesOf (getPackagesAffectedByChange posix_dirname
                (getPackageDependencies diamondWorkspace) ["pkgs/c/readme.md"])
     = Some (Ok ["@prisma/c"; "@prisma/a"; "@prisma/d"; "@prisma/b"]).
Proof.
  split; [|split; [|split; [|repeat split; reflexivity]]].
  - intros dirname packages changes Hdir Hwf Hplain.
    destruct (resolve_closure dirname packages changes Hdir Hwf Hplain)
      as (a & Hrun & H).
    exists a. split; [assumption|]. split; [|exact H].
    unfold getPackagesAffectedByChange. now rewrite Hrun.
  - apply getPackageDependencies_wellFormed.
  - intros dirname packages changes.
    destruct (resolve_total dirname packages changes) as [r Hr].
    unfold getPackagesAffectedByChange. rewrite Hr.
    destruct r; eauto.
Qed.

Lemma getPackagesAffectedByChange_closure_witness :
  (forall s, posix_dirname s <> "")
  /\ wellFormed (getPackageDependencies chainWorkspace)
  /\ plainNames (getPackageDependencies chainWorkspace)
  /\ exists a,
       getPackagesAffectedByChange_run posix_dirname
         (getPackageDependencies chainWorkspace) ["pkgs/c/src/index.ts"] = Some (Ok a)
       /\ closedUnder (getPackageDependencies chainWorkspace)
            (fun k => In k (keys (affectedPackages a)))
       /\ NoDup (assigned a).
Proof.
  split; [exact posix_dirname_nonempty|].
  split; [exact (getPackageDependencies_wellFormed chainWorkspace)|].
  split; [reflexivity|].
  destruct (proj1 getPackagesAffectedByChange_closure posix_dirname
              (getPackageDependencies chainWorkspace) ["pkgs/c/src/index.ts"]
              posix_dirname_nonempty
              (getPackageDependencies_wellFormed chainWorkspace) eq_refl)
    as (a & Hrun & _ & _ & Hclosed & _ & _ & Hnd & _).
  exists a. auto.
Defined.

(** ** Publish-order planner *)

Lemma includes_In arr value : includes arr value = true <-> In value arr.
Proof.
  unfold includes. rewrite existsb_exists. split.
  - intros (x & Hx & E). apply String.eqb_eq in E. now subst.
  - intros H. exists value. split; auto. apply String.eqb_refl.
Qed.

Lemma includes_not_In arr value : includes arr value = false <-> ~ In value arr.
Proof.
  rewrite <- includes_In. destruct (includes arr value); intuition congruence.
Qed.

Lemma filter_partition_Permutation {A} (f : A -> bool) (l : list A) :
  Permutation (filter f l ++ filter (fun x => negb (f x)) l) l.
Proof.
  induction l as [|x l IH]; simpl; [constructor|].
  destruct (f x); simpl.
  - now constructor.
  - symmetry. apply Permutation_cons_app. now symmetry.
Qed.

Section Layers.

Implicit Types (g : Dag) (n q p : string).

Lemma indegree_edge g n : (0 < indegree g n)%nat <-> exists q, edge g q n.
Proof.
  unfold indegree.
  change (count_occ string_dec (flat_map snd g) n > 0 <-> (exists q, edge g q n)).
  rewrite <- (count_occ_In string_dec), in_flat_map. split.
  - intros ([q adj] & Hin & Hn). exists q, adj. auto.
  - intros (q & adj & Hin & Hn). exists (q, adj). auto.
Qed.

Lemma roots_spec g n :
  In n (roots g) <-> In n (keys g) /\ ~ exists q, edge g q n.
Proof.
  unfold roots. rewrite filter_In, <- indegree_edge, Nat.eqb_eq. intuition lia.
Qed.

Lemma removeNodes_In batch g e :
  In e (removeNodes batch g) <-> In e g /\ ~ In (fst e) batch.
Proof.
  unfold removeNodes. rewrite filter_In, negb_true_iff, includes_not_In. tauto.
Qed.

Lemma edge_removeNodes batch g q p : edge (removeNodes batch g) q p -> edge g q p.
Proof.
  intros (adj & Hin & Hp). apply removeNodes_In in Hin. exists adj. tauto.
Qed.

Lemma keys_removeNodes batch g :
  keys (removeNodes batch g) = filter (fun k => negb (includes batch k)) (keys g).
Proof.
  unfold removeNodes, keys. induction g as [|[k adj] g IH]; simpl; auto.
  destruct (includes batch k); simpl; now rewrite IH.
Qed.

Lemma roots_rest_Permutation g :
  Permutation (roots g ++ keys (removeNodes (roots g) g)) (keys g).
Proof.
  rewrite keys_removeNodes.
  rewrite (filter_ext_in (fun k => negb (includes (roots g) k))
                         (fun k => negb (indegree g k =? 0)%nat)).
  - apply filter_partition_Permutation.
  - intros k Hk. f_equal.
    destruct (indegree g k =? 0)%nat eqn:E.
    + apply includes_In. unfold roots. apply filter_In. auto.
    + apply includes_not_In. unfold roots. rewrite filter_In. intuition congruence.
Qed.

Lemma removeNodes_shorter g x rest :
  roots g = x :: rest ->
  (List.length (removeNodes (roots g) g) < List.length g)%nat.
Proof.
  intros E.
  assert (Hx : In x (roots g)) by (rewrite E; now left).
  pose proof (Permutation_length (roots_rest_Permutation g)) as Hlen.
  rewrite length_app, E in Hlen. simpl in Hlen.
  unfold keys in Hlen. rewrite !length_map in Hlen. rewrite E. lia.
Qed.


Lemma layers_total fuel : forall g,
  (List.length g <= fuel)%nat -> exists r, layers fuel g = Some r.
Proof.
  induction fuel as [|fuel IH]; intros g Hlen.
  - destruct g; [simpl; eauto | simpl in Hlen; lia].
  - destruct g as [|e g']; [simpl; eauto|].
    cbn [layers]. destruct (roots (e :: g')) as [|x rest] eqn:E; [eauto|].
    pose proof (removeNodes_shorter _ _ _ E) as Hs. rewrite E in Hs.
    destruct (IH (removeNodes (x :: rest) (e :: g'))) as [r ->]; [lia|].
    destruct r; eauto.
Qed.




End Layers.

(** *** A graph without roots has a cycle *)

Section NoRoots.

Variable g : Dag.
Hypothesis no_roots : roots g = [].

Lemma predecessor_edge n :
  In n (keys g) -> edge g (predecessor g n) n /\ In (predecessor g n) (keys g).
Proof.
  intros Hn.
  assert (Hdeg : (0 < indegree g n)%nat).
  { destruct (indegree g n =? 0)%nat eqn:E; [|apply Nat.eqb_neq in E; lia].
    assert (Hr : In n (roots g)) by (apply filter_In; auto).
    rewrite no_roots in Hr. contradiction. }
  apply indegree_edge in Hdeg. destruct Hdeg as (q & adj & Hin & Hadj).
  unfold predecessor.
  destruct (find (fun e => includes (snd e) n) g) as [[q' adj']|] eqn:E.
  - apply find_some in E. destruct E as [Hin' Hinc]. simpl in *.
    apply includes_In in Hinc. split.
    + exists adj'. auto.
    + change q' with (fst (q', adj')). now apply in_map.
  - apply (find_none _ _ E) in Hin. simpl in Hin.
    apply includes_not_In in Hin. contradiction.
Qed.

Lemma walk_in x i : In x (keys g) -> In (Nat.iter i (predecessor g) x) (keys g).
Proof.
  intros Hx. induction i as [|i IH]; simpl; auto.
  now apply predecessor_edge.
Qed.

Lemma walk_path x k i :
  In x (keys g) ->
  clos_trans string (edge g) (Nat.iter (S k + i) (predecessor g) x)
             (Nat.iter i (predecessor g) x).
Proof.
  intros Hx. induction k as [|k IH].
  - apply t_step. simpl. apply predecessor_edge. now apply walk_in.
  - eapply t_trans; [|exact IH].
    apply t_step. change (S (S k) + i)%nat with (S (S k + i)). simpl.
    apply predecessor_edge. now apply (walk_in x (S (k + i))).
Qed.

Lemma no_roots_cycle : g <> [] -> cyclicDag g.
Proof.
  intros Hne.
  assert (Hex : exists x, In x (keys g)).
  { clear no_roots. destruct g as [|[x adj] g']; [congruence | exists x; now left]. }
  destruct Hex as [x Hx].
  set (f := fun i => Nat.iter i (predecessor g) x).
  set (l := map f (seq 0 (S (List.length (keys g))))).
  assert (Hdup : ~ NoDup l).
  { intros Hnd. apply NoDup_incl_length with (l' := keys g) in Hnd.
    - unfold l in Hnd. rewrite length_map, length_seq in Hnd. lia.
    - intros y Hy. apply in_map_iff in Hy. destruct Hy as (i & <- & _).
      now apply walk_in. }
  apply not_NoDup in Hdup;
    [|intros a b; destruct (string_dec a b); [left | right]; assumption].
  destruct Hdup as (a & l1 & l2 & l3 & Hl).
  assert (Hlen : List.length l = S (List.length (keys g)))
    by (unfold l; now rewrite length_map, length_seq).
  assert (Hlen' := Hlen). rewrite Hl in Hlen'.
  rewrite !length_app in Hlen'. simpl in Hlen'. rewrite length_app in Hlen'.
  simpl in Hlen'.
  assert (Hnth : forall i, (i < S (List.length (keys g)))%nat -> nth i l x = f i).
  { intros i Hi. unfold l.
    rewrite (nth_indep _ x (f 0%nat)) by (rewrite length_map, length_seq; lia).
    rewrite map_nth. now rewrite seq_nth. }
  assert (H1 : nth (List.length l1) l x = a).
  { rewrite Hl. rewrite app_nth2 by lia. now rewrite Nat.sub_diag. }
  assert (H2 : nth (S (List.length l2) + List.length l1) l x = a).
  { rewrite Hl. rewrite app_nth2 by lia.
    replace (S (List.length l2) + List.length l1 - List.length l1)%nat
      with (S (List.length l2)) by lia.
    simpl. rewrite app_nth2 by lia. now rewrite Nat.sub_diag. }
  rewrite Hnth in H1, H2 by lia.
  exists a. rewrite <- H2 at 1. rewrite <- H1. unfold f. now apply walk_path.
Qed.

End NoRoots.

Lemma clos_trans_mono {A} (R R' : A -> A -> Prop) x y :
  (forall a b, R a b -> R' a b) -> clos_trans A R x y -> clos_trans A R' x y.
Proof.
  intros H. induction 1; [apply t_step; auto | eapply t_trans; eauto].
Qed.

Lemma layers_throw fuel : forall g e,
  layers fuel g = Some (Throw e) -> e = cycleError /\ cyclicDag g.
Proof.
  induction fuel as [|fuel IH]; intros g e H.
  - destruct g as [|x g']; cbn [layers] in H; [discriminate|].
    destruct (roots (x :: g')) eqn:E; [|discriminate].
    injection H as <-. split; auto. apply no_roots_cycle; [assumption | discriminate].
  - destruct g as [|x g']; cbn [layers] in H; [discriminate|].
    destruct (roots (x :: g')) as [|y rest] eqn:E.
    + injection H as <-. split; auto.
      apply no_roots_cycle; [assumption | discriminate].
    + destruct (layers fuel _) as [[bs|err]|] eqn:El; try discriminate.
      injection H as <-. destruct (IH _ _ El) as [-> [z Hz]].
      split; auto. exists z.
      eapply clos_trans_mono; [|exact Hz]. intros a b. apply edge_removeNodes.
Qed.


Lemma topo_total g : exists r, topo g = Some r.
Proof. apply layers_total. lia. Qed.


(** A cycle is found whether or not the edges stay inside the graph: its
    nodes are never roots. *)
Lemma edge_target_has_source g x y :
  clos_trans string (edge g) x y -> exists q, edge g q y.
Proof. induction 1; eauto. Qed.

Lemma cycle_survives g x y :
  clos_trans string (edge g) x y -> (exists q, edge g q x) ->
  clos_trans string (edge (removeNodes (roots g) g)) x y.
Proof.
  induction 1 as [x y He | x y z Hxy IH1 Hyz IH2]; intros Hx.
  - apply t_step. destruct He as (adj & Hin & Hy). exists adj. split; auto.
    apply removeNodes_In. split; auto. simpl.
    rewrite roots_spec. tauto.
  - eapply t_trans; [now apply IH1|].
    apply IH2. eapply edge_target_has_source; eauto.
Qed.

Lemma layers_cyclic fuel : forall g batches,
  layers fuel g = Some (Ok batches) -> ~ cyclicDag g.
Proof.
  induction fuel as [|fuel IH]; intros g batches H [x Hx].
  - destruct g as [|e g']; cbn [layers] in H.
    + apply edge_target_has_source in Hx. destruct Hx as (q & adj & [] & _).
    + destruct (roots (e :: g')); discriminate.
  - destruct g as [|e g']; cbn [layers] in H.
    + apply edge_target_has_source in Hx. destruct Hx as (q & adj & [] & _).
    + destruct (roots (e :: g')) as [|r rest] eqn:E; [discriminate|].
      destruct (layers fuel _) as [[bs|err]|] eqn:El; try discriminate.
      apply (IH _ _ El). exists x. rewrite <- E.
      apply cycle_survives; auto. eapply edge_target_has_source; eauto.
Qed.

Lemma topo_cyclic_any g : cyclicDag g -> topo g = Some (Throw cycleError).
Proof.
  intros Hc. destruct (topo_total g) as [[batches|e] Hr].
  - exfalso. exact (layers_cyclic _ _ _ Hr Hc).
  - rewrite Hr. destruct (layers_throw _ _ _ Hr) as [-> _]. reflexivity.
Qed.

(** *** The graph handed to [topo] *)

Lemma dagOf_stored (packages : Packages) :
  storedByName packages ->
  dagOf packages = map (fun e => (fst e, dependants (snd e))) packages.
Proof.
  intros [Hnd Hwf]. unfold dagOf.
  assert (G : forall (l : Packages) (acc : Dag),
             NoDup (keys acc ++ keys l) ->
             (forall k p, In (k, p) l -> name p = k) ->
             fold_left (fun acc curr => oset (name curr) (usedBy curr ++ usedByDev curr) acc)
                       (values l) acc
             = acc ++ map (fun e => (fst e, dependants (snd e))) l).
  { induction l as [|[k p] l IH]; intros acc Hn Hname; simpl.
    - now rewrite app_nil_r.
    - assert (Hk : name p = k) by (apply Hname; now left). rewrite Hk.
      assert (Hfresh : ~ In k (keys acc)).
      { intros Hin. simpl in Hn. apply NoDup_remove_2 in Hn.
        apply Hn, in_app_iff. auto. }
      rewrite oset_absent by assumption. rewrite IH.
      + now rewrite <- app_assoc.
      + unfold keys at 1. rewrite map_app. simpl. rewrite <- app_assoc. exact Hn.
      + intros k' p' Hin. apply Hname. now right. }
  rewrite G; auto.
Qed.

Lemma wellFormed_stored (packages : Packages) :
  wellFormed packages -> storedByName packages.
Proof.
  intros [Hnd Hwf]. split; [assumption|]. intros k p Hin. now apply Hwf.
Qed.

Lemma dagOf_wellFormed (packages : Packages) :
  wellFormed packages ->
  dagOf packages = map (fun e => (fst e, dependants (snd e))) packages.
Proof. intros Hwf. now apply dagOf_stored, wellFormed_stored. Qed.

Lemma dagOf_edge_stored (packages : Packages) q p :
  storedByName packages -> edge (dagOf packages) q p <-> dependsOn packages p q.
Proof.
  intros Hs. rewrite dagOf_stored by assumption.
  unfold edge, dependsOn. split.
  - intros (adj & Hin & Hp). apply in_map_iff in Hin.
    destruct Hin as ([k Q] & [= <- <-] & Hin). eauto.
  - intros (Q & Hin & Hp). exists (dependants Q). split; auto.
    apply in_map_iff. now exists (q, Q).
Qed.

Lemma dagOf_keys (packages : Packages) :
  wellFormed packages -> keys (dagOf packages) = keys packages.
Proof.
  intros Hwf. rewrite dagOf_wellFormed by assumption.
  unfold keys. rewrite map_map. now apply map_ext.
Qed.

Lemma dagOf_edge (packages : Packages) q p :
  wellFormed packages -> edge (dagOf packages) q p <-> dependsOn packages p q.
Proof.
  intros Hwf. rewrite dagOf_wellFormed by assumption.
  unfold edge, dependsOn. split.
  - intros (adj & Hin & Hp). apply in_map_iff in Hin.
    destruct Hin as ([k Q] & [= <- <-] & Hin). eauto.
  - intros (Q & Hin & Hp). exists (dependants Q). split; auto.
    apply in_map_iff. now exists (q, Q).
Qed.

Lemma dagOf_closed (packages : Packages) :
  wellFormed packages -> closedDag (dagOf packages).
Proof.
  intros Hwf q p He. rewrite dagOf_keys by assumption.
  apply dagOf_edge in He; auto. destruct He as (Q & Hin & Hp).
  destruct Hwf as [_ Hwf]. now apply (Hwf _ _ Hin).
Qed.


(** The affected packages of a well-formed graph without inherited names
    form a well-formed graph, so the planner is applied to one. *)
Lemma affected_wellFormed dirname (packages : Packages) (changes : list string) a :
  (forall s, dirname s <> "") ->
  wellFormed packages ->
  plainNames packages ->
  getPackagesAffectedByChange_run dirname packages changes = Some (Ok a) ->
  wellFormed (affectedPackages a).
Proof.
  intros Hdir Hwf Hplain Hrun.
  destruct (resolve_closure dirname packages changes Hdir Hwf Hplain)
    as (a' & Hrun' & _ & Hclosed & _ & Hv & Hnd & Ha).
  rewrite Hrun in Hrun'. injection Hrun' as <-.
  split; [now rewrite <- Ha|].
  intros k p Hin.
  assert (Hk : In k (keys (affectedPackages a)))
    by (change k with (fst (k, p)); now apply in_map).
  assert (Hp : oget packages k = Some p).
  { apply Hv, In_oget; auto. now rewrite <- Ha. }
  split.
  - apply oget_Some_In in Hp. now apply Hwf in Hp.
  - intros n Hn. exact (Hclosed k p n Hk Hp Hn).
Qed.



Lemma getPublishOrder_examples :
  getPublishOrder (getPackageDependencies diamondWorkspace)
  = Some (Ok [["@prisma/c"]; ["@prisma/a"; "@prisma/b"]; ["@prisma/d"]])
  /\ getPublishOrder (getPackageDependencies triangleWorkspace)
     = Some (Throw cycleError)
  /\ getPublishOrder (getPackageDependencies mutualWorkspace)
     = Some (Throw cycleError).
Proof. repeat split; reflexivity. Qed.

(** ** Effectful code: the trace only grows *)

Section Emits.

Context {A : Type}.

Lemma emits_ret (a : A) P : emits (ret a) P.
Proof. intros t. exists []. simpl. rewrite app_nil_r. auto. Qed.

Lemma emits_throw (e : error) P : emits (throw e : io A) P.
Proof. intros t. exists []. simpl. rewrite app_nil_r. auto. Qed.

Lemma emits_weaken (m : io A) (P Q : event -> Prop) :
  (forall ev, P ev -> Q ev) -> emits m P -> emits m Q.
Proof.
  intros H Hm t. destruct (Hm t) as (new & E & F).
  exists new. split; auto. eapply Forall_impl; eauto.
Qed.

Lemma emits_bind {B} (m : io A) (k : A -> io B) P :
  emits m P -> (forall a, emits (k a) P) -> emits (bindIO m k) P.
Proof.
  intros Hm Hk t. unfold bindIO. destruct (Hm t) as (new1 & E1 & F1).
  destruct (m t) as [[a|e] t1]; simpl in E1; subst t1.
  - destruct (Hk a (t ++ new1)) as (new2 & E2 & F2).
    exists (new1 ++ new2). rewrite E2, app_assoc. split; auto.
    apply Forall_app. auto.
  - exists new1. auto.
Qed.

Lemma emits_tryCatch (m : io A) (handler : error -> io A) P :
  emits m P -> (forall e, emits (handler e) P) -> emits (tryCatch m handler) P.
Proof.
  intros Hm Hh t. unfold tryCatch. destruct (Hm t) as (new1 & E1 & F1).
  destruct (m t) as [[a|e] t1]; simpl in E1; subst t1.
  - exists new1. auto.
  - destruct (Hh e (t ++ new1)) as (new2 & E2 & F2).
    exists (new1 ++ new2). rewrite E2, app_assoc. split; auto.
    apply Forall_app. auto.
Qed.

Lemma emits_all (ms : list (io A)) P :
  (forall m, In m ms -> emits m P) -> emits (all ms) P.
Proof.
  induction ms as [|m rest IH]; intros H t; simpl.
  - exists []. rewrite app_nil_r. auto.
  - destruct (H m (or_introl eq_refl) t) as (new1 & E1 & F1).
    destruct (m t) as [r t1]. simpl in E1. subst t1.
    destruct (IH (fun m' Hm' => H m' (or_intror Hm')) (t ++ new1))
      as (new2 & E2 & F2).
    destruct (all rest (t ++ new1)) as [rs t2]. simpl in E2. subst t2.
    exists (new1 ++ new2). simpl. rewrite app_assoc. split; auto.
    apply Forall_app. auto.
Qed.

End Emits.

Lemma emits_forEach {A} (f : A -> io unit) (l : list A) P :
  (forall x, In x l -> emits (f x) P) -> emits (forEach f l) P.
Proof.
  induction l as [|x rest IH]; intros H; simpl.
  - apply emits_ret.
  - apply emits_bind.
    + apply H. now left.
    + intros _. apply IH. intros y Hy. apply H. now right.
Qed.

Lemma emits_emit ev (P : event -> Prop) : P ev -> emits (emit ev) P.
Proof. intros H t. exists [ev]. simpl. auto. Qed.

Lemma emits_ofFuel {A} (o : option (result A)) P : emits (ofFuel o) P.
Proof.
  destruct o as [[a|e]|]; simpl; auto using emits_ret, emits_throw.
Qed.

Lemma emits_runResult h cwd cmd (P : event -> Prop) :
  P (Spawn cwd cmd pipe true) -> emits (runResult h cwd cmd) P.
Proof.
  intros H t. unfold runResult. exists [Spawn cwd cmd pipe true].
  destruct (execa_command h t cwd cmd pipe true); simpl; auto.
Qed.

Lemma emits_run h cwd cmd (P : event -> Prop) :
  P (Spawn cwd cmd inherit true) -> emits (run h cwd cmd) P.
Proof.
  intros H t. unfold run. exists [Spawn cwd cmd inherit true].
  destruct (execa_command h t cwd cmd inherit true); simpl; auto.
Qed.

(** *** The results of [Promise.all] *)

Lemma all_Ok {A} (ms : list (io A)) : forall t l,
  fst (all ms t) = Ok l ->
  Forall2 (fun m a => exists t', fst (m t') = Ok a) ms l.
Proof.
  induction ms as [|m rest IH]; intros t l H; simpl in H.
  - injection H as <-. constructor.
  - destruct (m t) as [r t1] eqn:Em.
    destruct (all rest t1) as [rs t2] eqn:Er. simpl in H.
    destruct r as [a|e]; [|discriminate].
    destruct rs as [l'|e]; [|discriminate].
    injection H as <-. constructor.
    + exists t. now rewrite Em.
    + apply (IH t1). now rewrite Er.
Qed.

Lemma flatten_concat {A} (arr : list (list A)) : flatten arr = List.concat arr.
Proof.
  unfold flatten.
  assert (G : forall (l : list (list A)) acc,
             fold_left (fun acc val => acc ++ val) l acc = acc ++ List.concat l).
  { induction l as [|x l IH]; intros acc; simpl.
    - now rewrite app_nil_r.
    - now rewrite IH, app_assoc. }
  apply G.
Qed.

(** ** Latest changes *)

Lemma split_cons sep s : exists w ws, split sep s = w :: ws.
Proof.
  induction s as [|c s IH]; simpl; eauto.
  destruct (Ascii.eqb c sep); eauto.
  destruct IH as (w & ws & ->). eauto.
Qed.



Lemma insertSorted_length {A} (compare : A -> A -> Z) x l :
  List.length (insertSorted compare x l) = S (List.length l).
Proof.
  induction l as [|y l IH]; simpl; auto.
  destruct (0 <? compare x y)%Z; simpl; auto.
Qed.

Lemma sort_length {A} (compare : A -> A -> Z) (l : list A) :
  List.length (sort compare l) = List.length l.
Proof.
  unfold sort.
  assert (G : forall (l acc : list A),
             List.length (fold_left (fun acc x => insertSorted compare x acc) l acc)
             = (List.length acc + List.length l)%nat).
  { induction l0 as [|x l0 IH]; intros acc; simpl; [lia|].
    rewrite IH, insertSorted_length. lia. }
  apply G.
Qed.




(** ** The matcher and the words of a pattern *)

Lemma mstate_eq (st st' : mstate) :
  pos st' = pos st -> rest st' = rest st -> caps st' = caps st -> st' = st.
Proof. destruct st, st'; simpl; intros; subst; reflexivity. Qed.

(** How a state is reached from another by reading the word [w]. *)
Definition reads (w : list ascii) (st st' : mstate) : Prop :=
  rest st = w ++ rest st' /\ pos st' = (pos st + List.length w)%nat
  /\ caps st' = caps st.

Lemma reads_nil st st' : reads [] st st' <-> st' = st.
Proof.
  unfold reads. simpl. rewrite Nat.add_0_r. split.
  - intros (H1 & H2 & H3). apply mstate_eq; auto.
  - intros ->. auto.
Qed.

Lemma reads_app w1 w2 st st1 st' :
  reads w1 st st1 -> reads w2 st1 st' -> reads (w1 ++ w2) st st'.
Proof.
  unfold reads. intros (R1 & P1 & C1) (R2 & P2 & C2).
  rewrite R1, R2, P2, P1, C2, C1, length_app, <- app_assoc. repeat split. lia.
Qed.

(** The state in the middle of reading [w1 ++ w2]. *)
Lemma reads_split w1 w2 st st' :
  reads (w1 ++ w2) st st' ->
  exists st1, reads w1 st st1 /\ reads w2 st1 st'.
Proof.
  unfold reads. intros (R & P & C).
  exists {| pos := pos st + List.length w1; rest := w2 ++ rest st'; caps := caps st |}.
  simpl. rewrite R, P, C, length_app, <- app_assoc. repeat split. lia.
Qed.

Section StarLoop.

Variable r : regex.
Variable step : mstate -> list mstate.
Hypothesis step_spec :
  forall st st', In st' (step st) <-> exists w, lang r w /\ reads w st st'.

Lemma lang_Star_inv w :
  lang (Star r) w ->
  w = [] \/ exists w1 w2, w = w1 ++ w2 /\ lang r w1 /\ w1 <> [] /\ lang (Star r) w2.
Proof.
  intros H. inversion H; subst; [now left | right; eauto 8].
Qed.

Lemma starLoop_spec n : forall st st',
  (List.length (rest st) <= n)%nat ->
  In st' (starLoop step n st) <-> exists w, lang (Star r) w /\ reads w st st'.
Proof.
  induction n as [|n IH]; intros st st' Hlen; simpl.
  - assert (Hrest : rest st = [])
      by (destruct (rest st); [reflexivity | simpl in Hlen; lia]).
    split.
    + intros [<- | []]. exists []. split; [constructor | now apply reads_nil].
    + intros (w & _ & Hr). left.
      assert (w = []) as ->.
      { destruct Hr as (R & _). rewrite Hrest in R.
        destruct w; [reflexivity | discriminate]. }
      symmetry. now apply reads_nil.
  - rewrite in_app_iff, in_flat_map. split.
    + intros [(st1 & Hst1 & Hin) | [<- | []]].
      * apply step_spec in Hst1. destruct Hst1 as (w1 & Hw1 & Hr1).
        destruct (List.length (rest st1) <? List.length (rest st))%nat eqn:E;
          [|contradiction].
        apply Nat.ltb_lt in E.
        apply IH in Hin; [|lia]. destruct Hin as (w2 & Hw2 & Hr2).
        exists (w1 ++ w2). split; [|eapply reads_app; eauto].
        apply lang_StarS; auto.
        intros ->. destruct Hr1 as (R & _). simpl in R. rewrite R in E. lia.
      * exists []. split; [constructor | now apply reads_nil].
    + intros (w & Hw & Hr). apply lang_Star_inv in Hw.
      destruct Hw as [-> | (w1 & w2 & -> & Hw1 & Hne & Hw2)].
      * right. left. symmetry. now apply reads_nil.
      * left. apply reads_split in Hr. destruct Hr as (st1 & Hr1 & Hr2).
        exists st1. split; [apply step_spec; eauto|].
        assert (Hlt : (List.length (rest st1) < List.length (rest st))%nat).
        { destruct Hr1 as (R & _). rewrite R, length_app.
          destruct w1; [congruence | simpl; lia]. }
        apply Nat.ltb_lt in Hlt as Hb. rewrite Hb.
        apply IH; [lia | eauto].
Qed.

End StarLoop.

(** The matcher finds exactly the words of a plain pattern. *)
Theorem matchesFrom_plain r :
  isPlain r = true ->
  forall st st',
    In st' (matchesFrom r st) <-> exists w, lang r w /\ reads w st st'.
Proof.
  induction r as [| | |f|r1 IH1 r2 IH2|r1 IH1 r2 IH2|r IH|n r IH];
    simpl; intros Hp st st'; try discriminate.
  - split.
    + intros [<- | []]. exists []. split; [constructor | now apply reads_nil].
    + intros (w & Hw & Hr). inversion Hw; subst. left. symmetry.
      now apply reads_nil.
  - split.
    + destruct (rest st) as [|c s'] eqn:E; [intros []|].
      destruct (f c) eqn:Ef; [|intros []].
      intros [<- | []]. exists [c]. split; [now constructor|].
      unfold reads. simpl. rewrite E. repeat split. lia.
    + intros (w & Hw & (R & P & C)). inversion Hw; subst. simpl in R.
      simpl in P. rewrite R, H0. left. symmetry. apply mstate_eq; simpl; auto. lia.
  - apply andb_true_iff in Hp. destruct Hp as [Hp1 Hp2].
    rewrite in_flat_map. split.
    + intros (st1 & H1 & H2).
      apply (IH1 Hp1) in H1. destruct H1 as (w1 & Hw1 & Hr1).
      apply (IH2 Hp2) in H2. destruct H2 as (w2 & Hw2 & Hr2).
      exists (w1 ++ w2). split; [now constructor | eapply reads_app; eauto].
    + intros (w & Hw & Hr). inversion Hw; subst.
      apply reads_split in Hr. destruct Hr as (st1 & Hr1 & Hr2).
      exists st1. split; [apply (IH1 Hp1) | apply (IH2 Hp2)]; eauto.
  - apply andb_true_iff in Hp. destruct Hp as [Hp1 Hp2].
    rewrite in_app_iff, (IH1 Hp1), (IH2 Hp2). split.
    + intros [(w & Hw & Hr) | (w & Hw & Hr)]; exists w; split; auto.
      * now apply lang_AltL.
      * now apply lang_AltR.
    + intros (w & Hw & Hr). inversion Hw; subst; [left | right]; eauto.
  - apply starLoop_spec; [now apply IH | lia].
Qed.

(** ** Numbers: where doubles are exact *)

Lemma roundToDouble_exact z : (- 2 ^ 53 <= z <= 2 ^ 53)%Z -> roundToDouble z = Finite z.
Proof.
  intros H. unfold roundToDouble.
  destruct (Z.leb_spec (Z.abs z) (2 ^ 53)); [reflexivity | lia].
Qed.

Lemma valueOfDigits_nonneg (w : list ascii) :
  Forall (fun d => isDigit d = true) w -> (0 <= valueOfDigits w)%Z.
Proof.
  unfold valueOfDigits.
  assert (G : forall (l : list ascii) acc,
             Forall (fun d => isDigit d = true) l -> (0 <= acc)%Z ->
             (0 <= fold_left (fun acc c => 10 * acc + digitValue c) l acc)%Z).
  { induction l as [|c l IH]; cbn [fold_left]; intros acc Hl Hacc; [assumption|].
    inversion Hl as [|? ? Hc Hl']; subst. apply IH; auto.
    unfold isDigit, codeIn in Hc. apply andb_true_iff in Hc.
    destruct Hc as [Hlo _]. apply Nat.leb_le in Hlo.
    unfold digitValue. lia. }
  intros H. apply G; [assumption | lia].
Qed.

Lemma NumberOfDigits_exact (w : list ascii) :
  Forall (fun d => isDigit d = true) w -> (valueOfDigits w <= 2 ^ 53)%Z ->
  NumberOfDigits w = Finite (valueOfDigits w).
Proof.
  intros Hw Hle. apply roundToDouble_exact.
  pose proof (valueOfDigits_nonneg w Hw). split; [lia | assumption].
Qed.

Lemma numberToString_exact z :
  (0 <= z <= 2 ^ 53)%Z -> numberToString (Finite z) = decimal z.
Proof.
  intros H. unfold numberToString, decimal.
  destruct (Z.leb_spec (Z.abs z) (2 ^ 53)); [reflexivity | lia].
Qed.

(** Below 2^53 the script counts as the integers do. *)
Lemma increment_exact (w : list ascii) :
  Forall (fun d => isDigit d = true) w -> (valueOfDigits w + 1 < 2 ^ 53)%Z ->
  numberToString (plusOne (NumberOfDigits w)) = decimal (valueOfDigits w + 1).
Proof.
  intros Hw Hlt. pose proof (valueOfDigits_nonneg w Hw).
  rewrite NumberOfDigits_exact by (auto; lia). simpl plusOne.
  rewrite roundToDouble_exact by lia.
  apply numberToString_exact. lia.
Qed.

(** ** The pattern of [patch] and the grammar of semantic versions *)

Lemma lang_Chr_inv f w : lang (Chr f) w <-> exists c, w = [c] /\ f c = true.
Proof.
  split.
  - intros H. inversion H; subst. eauto.
  - intros (c & -> & H). now constructor.
Qed.

Lemma lang_Cat_inv r1 r2 w :
  lang (Cat r1 r2) w <-> exists w1 w2, w = w1 ++ w2 /\ lang r1 w1 /\ lang r2 w2.
Proof.
  split.
  - intros H. inversion H; subst. eauto.
  - intros (w1 & w2 & -> & H1 & H2). now constructor.
Qed.

Lemma lang_Alt_inv r1 r2 w : lang (Alt r1 r2) w <-> lang r1 w \/ lang r2 w.
Proof.
  split.
  - intros H. inversion H; subst; auto.
  - intros [H | H]; [now apply lang_AltL | now apply lang_AltR].
Qed.

Lemma lang_Star_Chr f w :
  lang (Star (Chr f)) w <-> Forall (fun c => f c = true) w.
Proof.
  split.
  - intros H. remember (Star (Chr f)) as r eqn:Er.
    induction H; try discriminate; [constructor|].
    injection Er as ->. apply lang_Chr_inv in H. destruct H as (c & -> & Hc).
    simpl. constructor; auto.
  - induction 1 as [|c w Hc _ IH]; [constructor|].
    change (c :: w) with ([c] ++ w). apply lang_StarS; auto.
    + now constructor.
    + discriminate.
Qed.

Lemma isChar_eq c d : isChar c d = true <-> d = c.
Proof. unfold isChar. rewrite Ascii.eqb_eq. intuition congruence. Qed.

Lemma lang_numeric w : lang numericRegex w <-> numericIdentifier w.
Proof.
  unfold numericRegex, numericIdentifier.
  rewrite lang_Alt_inv, lang_Chr_inv, lang_Cat_inv. split.
  - intros [(c & -> & Hc) | (w1 & w2 & -> & H1 & H2)].
    + apply isChar_eq in Hc. subst. now left.
    + apply lang_Chr_inv in H1. destruct H1 as (c & -> & Hc).
      apply lang_Star_Chr in H2. right. exists c, w2. auto.
  - intros [-> | (c & ds & -> & Hc & Hds)].
    + left. exists "0"%char. split; auto.
    + right. exists [c], ds. repeat split.
      * apply lang_Chr_inv. eauto.
      * now apply lang_Star_Chr.
Qed.

Lemma isDigit_isIdentChar c : isDigit c = true -> isIdentChar c = true.
Proof. unfold isIdentChar. intros ->. reflexivity. Qed.

Lemma isLetterOrHyphen_isIdentChar c :
  isLetterOrHyphen c = true -> isIdentChar c = true.
Proof. unfold isIdentChar. intros ->. apply orb_true_r. Qed.

(** An identifier with a letter or a hyphen is digits, then such a
    character, then anything an identifier may hold. *)
Lemma alphanumeric_split w :
  alphanumericIdentifier w <->
  exists ds c tl, w = ds ++ c :: tl
                  /\ Forall (fun d => isDigit d = true) ds
                  /\ isLetterOrHyphen c = true
                  /\ Forall (fun d => isIdentChar d = true) tl.
Proof.
  unfold alphanumericIdentifier. split.
  - intros [Hall Hex]. induction w as [|x w IH]; [inversion Hex|].
    inversion Hall as [|? ? Hx Hw]; subst.
    destruct (isLetterOrHyphen x) eqn:E.
    + exists [], x, w. simpl. auto.
    + inversion Hex as [? ? Hc | ? ? Hw']; subst; [congruence|].
      destruct (IH Hw Hw') as (ds & c & tl & -> & Hds & Hc & Htl).
      exists (x :: ds), c, tl. repeat split; auto.
      constructor; auto. unfold isIdentChar in Hx. rewrite E in Hx.
      now rewrite orb_false_r in Hx.
  - intros (ds & c & tl & -> & Hds & Hc & Htl). split.
    + apply Forall_app. split.
      * eapply Forall_impl; [|exact Hds]. apply isDigit_isIdentChar.
      * constructor; auto. now apply isLetterOrHyphen_isIdentChar.
    + apply Exists_app. right. now left.
Qed.

Lemma lang_prereleaseId w : lang prereleaseIdRegex w <-> prereleaseIdentifier w.
Proof.
  unfold prereleaseIdRegex, prereleaseIdentifier.
  rewrite lang_Alt_inv, lang_Alt_inv.
  rewrite <- or_assoc.
  assert (Hnum : lang (Chr (isChar "0")) w
                 \/ lang (Cat (Chr isPositiveDigit) (Star (Chr isDigit))) w
                 <-> numericIdentifier w).
  { rewrite <- lang_numeric. unfold numericRegex. now rewrite lang_Alt_inv. }
  rewrite Hnum, alphanumeric_split.
  apply or_iff_compat_l. rewrite lang_Cat_inv. split.
  - intros (w1 & w2 & -> & H1 & H2).
    apply lang_Star_Chr in H1. apply lang_Cat_inv in H2.
    destruct H2 as (w3 & w4 & -> & H3 & H4).
    apply lang_Chr_inv in H3. destruct H3 as (c & -> & Hc).
    apply lang_Star_Chr in H4. exists w1, c, w4. auto.
  - intros (ds & c & tl & -> & Hds & Hc & Htl).
    exists ds, (c :: tl). repeat split.
    + now apply lang_Star_Chr.
    + change (c :: tl) with ([c] ++ tl). constructor.
      * now constructor.
      * now apply lang_Star_Chr.
Qed.

Lemma lang_buildId w : lang buildIdRegex w <-> buildIdentifier w.
Proof.
  unfold buildIdRegex, Plus, buildIdentifier. rewrite lang_Cat_inv. split.
  - intros (w1 & w2 & -> & H1 & H2).
    apply lang_Chr_inv in H1. destruct H1 as (c & -> & Hc).
    apply lang_Star_Chr in H2. split; [discriminate | now constructor].
  - intros [Hne Hall]. destruct w as [|c w]; [congruence|].
    inversion Hall; subst. exists [c], w. repeat split.
    + now constructor.
    + now apply lang_Star_Chr.
Qed.

Lemma dotSeparated_iff (P Q : list ascii -> Prop) w :
  (forall u, P u <-> Q u) -> dotSeparated P w <-> dotSeparated Q w.
Proof.
  intros H. split; induction 1.
  - apply dotSeparated_one. now apply H.
  - apply dotSeparated_more; auto. now apply H.
  - apply dotSeparated_one. now apply H.
  - apply dotSeparated_more; auto. now apply H.
Qed.

Lemma lang_dotted_tail r u :
  lang (Star (Cat (Chr (isChar ".")) r)) u <->
  u = [] \/ exists w, u = "."%char :: w /\ dotSeparated (lang r) w.
Proof.
  split.
  - intros H. remember (Star (Cat (Chr (isChar ".")) r)) as s eqn:Es.
    induction H as [| | | | | |s0 w1 w2 H1 _ Hne H2 IH]; try discriminate; [now left|].
    injection Es as ->. right.
    apply lang_Cat_inv in H1. destruct H1 as (d & w & -> & Hd & Hw).
    apply lang_Chr_inv in Hd. destruct Hd as (c & -> & Hc).
    apply isChar_eq in Hc. subst c.
    destruct (IH eq_refl) as [-> | (w' & -> & Hw')].
    + exists w. rewrite app_nil_r. split; auto. now apply dotSeparated_one.
    + exists (w ++ "."%char :: w'). split; [simpl; now rewrite <- ?app_assoc|].
      now apply dotSeparated_more.
  - intros [-> | (w & -> & Hw)]; [constructor|].
    induction Hw as [w Hw | w ws Hw _ IH].
    + replace ("."%char :: w) with (("."%char :: w) ++ []) by apply app_nil_r.
      apply lang_StarS; [|discriminate | constructor].
      change ("."%char :: w) with (["."%char] ++ w). constructor; auto.
      constructor. now apply isChar_eq.
    + change ("."%char :: w ++ "."%char :: ws)
        with (("."%char :: w) ++ "."%char :: ws).
      apply lang_StarS; [|discriminate | exact IH].
      change ("."%char :: w) with (["."%char] ++ w). constructor; auto.
      constructor. now apply isChar_eq.
Qed.

Lemma lang_dotted r w : lang (dotted r) w <-> dotSeparated (lang r) w.
Proof.
  unfold dotted. rewrite lang_Cat_inv. split.
  - intros (w1 & w2 & -> & H1 & H2). apply lang_dotted_tail in H2.
    destruct H2 as [-> | (w' & -> & Hw')].
    + rewrite app_nil_r. now apply dotSeparated_one.
    + now apply dotSeparated_more.
  - intros H. destruct H as [w Hw | w ws Hw Hws].
    + exists w, []. rewrite app_nil_r. repeat split; auto. constructor.
    + exists w, ("."%char :: ws). repeat split; auto.
      apply lang_dotted_tail. right. eauto.
Qed.

(** *** Anchors, groups and options *)

Lemma In_Cat r1 r2 st st' :
  In st' (matchesFrom (Cat r1 r2) st) <->
  exists st1, In st1 (matchesFrom r1 st) /\ In st' (matchesFrom r2 st1).
Proof. simpl. apply in_flat_map. Qed.

Lemma firstn_length_app {A} (w l : list A) : firstn (List.length w) (w ++ l) = w.
Proof. induction w as [|x w IH]; simpl; [reflexivity | now rewrite IH]. Qed.

Lemma Group_elim n r st st' :
  isPlain r = true ->
  In st' (matchesFrom (Group n r) st) ->
  exists w, lang r w /\ rest st = w ++ rest st' /\ caps st' = oset n w (caps st).
Proof.
  intros Hp H. simpl in H. apply in_map_iff in H. destruct H as (st1 & <- & H).
  apply (matchesFrom_plain r Hp) in H. destruct H as (w & Hw & R & P & C).
  exists w. simpl. repeat split; auto.
  rewrite P, R, C. replace (pos st + List.length w - pos st)%nat with (List.length w) by lia.
  now rewrite firstn_length_app.
Qed.

Lemma Group_intro n r w p s c :
  isPlain r = true -> lang r w ->
  In {| pos := p + List.length w; rest := s; caps := oset n w c |}
     (matchesFrom (Group n r) {| pos := p; rest := w ++ s; caps := c |}).
Proof.
  intros Hp Hw. simpl. apply in_map_iff.
  exists {| pos := p + List.length w; rest := s; caps := c |}. simpl. split.
  - replace (p + List.length w - p)%nat with (List.length w) by lia.
    now rewrite firstn_length_app.
  - apply (matchesFrom_plain r Hp). exists w. split; auto.
    unfold reads. simpl. auto.
Qed.

Lemma Chr_elim ch st st' :
  In st' (matchesFrom (Chr (isChar ch)) st) ->
  rest st = ch :: rest st' /\ caps st' = caps st.
Proof.
  simpl. destruct (rest st) as [|c s]; [intros []|].
  destruct (isChar ch c) eqn:E; [|intros []].
  apply isChar_eq in E. subst c. intros [<- | []]. simpl. auto.
Qed.

Lemma Chr_intro ch p s c :
  In {| pos := S p; rest := s; caps := c |}
     (matchesFrom (Chr (isChar ch)) {| pos := p; rest := ch :: s; caps := c |}).
Proof.
  simpl. unfold isChar. rewrite Ascii.eqb_refl. now left.
Qed.

Lemma Opt_elim r st st' :
  In st' (matchesFrom (Opt r) st) -> In st' (matchesFrom r st) \/ st' = st.
Proof.
  unfold Opt. simpl. rewrite in_app_iff. simpl. intuition.
Qed.

Lemma Opt_skip r st : In st (matchesFrom (Opt r) st).
Proof. unfold Opt. simpl. apply in_app_iff. right. now left. Qed.

Lemma Opt_take r st st' :
  In st' (matchesFrom r st) -> In st' (matchesFrom (Opt r) st).
Proof. intros H. unfold Opt. simpl. apply in_app_iff. now left. Qed.

Lemma Eol_elim st st' : In st' (matchesFrom Eol st) -> st' = st /\ rest st = [].
Proof.
  simpl. destruct (rest st); [|intros []]. intros [<- | []]. auto.
Qed.

Lemma Bol_elim st st' : In st' (matchesFrom Bol st) -> st' = st /\ pos st = 0%nat.
Proof.
  simpl. destruct (pos st =? 0)%nat eqn:E; [|intros []].
  apply Nat.eqb_eq in E. intros [<- | []]. auto.
Qed.

(** One optional part of the pattern: the mark and a group of identifiers
    separated by dots. *)
Lemma optionalGroup_elim ch n r st st' :
  isPlain r = true ->
  In st' (matchesFrom (Opt (Cat (Chr (isChar ch)) (Group n (dotted r)))) st) ->
  exists part, rest st = part ++ rest st'
               /\ optionalPart ch (lang r) part
               /\ forall k, k <> n -> oget (caps st') k = oget (caps st) k.
Proof.
  intros Hp H. apply Opt_elim in H. destruct H as [H | ->].
  - apply In_Cat in H. destruct H as (st1 & H1 & H2).
    apply Chr_elim in H1. destruct H1 as [R1 C1].
    apply Group_elim in H2; [|simpl; now rewrite Hp].
    destruct H2 as (w & Hw & R2 & C2).
    exists (ch :: w). repeat split.
    + rewrite R1, R2. reflexivity.
    + right. exists w. split; auto. now apply lang_dotted.
    + intros k Hk. rewrite C2, C1. apply oget_oset_neq. congruence.
  - exists []. repeat split; auto. now left.
Qed.

Lemma optionalGroup_intro ch n r part p s c :
  isPlain r = true ->
  optionalPart ch (lang r) part ->
  exists p' c',
    In {| pos := p'; rest := s; caps := c' |}
       (matchesFrom (Opt (Cat (Chr (isChar ch)) (Group n (dotted r))))
                    {| pos := p; rest := part ++ s; caps := c |}).
Proof.
  intros Hp [-> | (w & -> & Hw)].
  - exists p, c. apply Opt_skip.
  - exists (S p + List.length w)%nat, (oset n w c). apply Opt_take, In_Cat.
    exists {| pos := S p; rest := w ++ s; caps := c |}. split.
    + apply Chr_intro.
    + apply Group_intro; [simpl; now rewrite Hp | now apply lang_dotted].
Qed.

Lemma optionalPart_iff ch (P Q : list ascii -> Prop) part :
  (forall u, P u <-> Q u) -> optionalPart ch P part <-> optionalPart ch Q part.
Proof.
  intros H. unfold optionalPart. split.
  - intros [-> | (w & -> & Hw)]; [now left | right].
    exists w. split; auto. now apply (dotSeparated_iff P Q).
  - intros [-> | (w & -> & Hw)]; [now left | right].
    exists w. split; auto. now apply (dotSeparated_iff P Q).
Qed.

(** *** The matches of the pattern are the valid versions *)

Lemma semver_sound v stf :
  In stf (matchesFrom semverRegex (startOf v)) ->
  exists maj min pat,
    semver v maj min pat
    /\ oget (caps stf) "major" = Some maj
    /\ oget (caps stf) "minor" = Some min
    /\ oget (caps stf) "patch" = Some pat.
Proof.
  unfold semverRegex. intros H.
  apply In_Cat in H. destruct H as (s1 & H1 & H).
  apply Bol_elim in H1. destruct H1 as [-> _].
  apply In_Cat in H. destruct H as (s2 & H2 & H).
  apply Group_elim in H2; [|reflexivity]. destruct H2 as (maj & Hmaj & R2 & C2).
  apply In_Cat in H. destruct H as (s3 & H3 & H).
  apply Chr_elim in H3. destruct H3 as [R3 C3].
  apply In_Cat in H. destruct H as (s4 & H4 & H).
  apply Group_elim in H4; [|reflexivity]. destruct H4 as (min & Hmin & R4 & C4).
  apply In_Cat in H. destruct H as (s5 & H5 & H).
  apply Chr_elim in H5. destruct H5 as [R5 C5].
  apply In_Cat in H. destruct H as (s6 & H6 & H).
  apply Group_elim in H6; [|reflexivity]. destruct H6 as (pat & Hpat & R6 & C6).
  apply In_Cat in H. destruct H as (s7 & H7 & H).
  apply optionalGroup_elim in H7; [|reflexivity].
  destruct H7 as (pre & R7 & Hpre & C7).
  apply In_Cat in H. destruct H as (s8 & H8 & H).
  apply optionalGroup_elim in H8; [|reflexivity].
  destruct H8 as (bld & R8 & Hbld & C8).
  apply Eol_elim in H. destruct H as [-> R9].
  exists maj, min, pat. split; [|split; [|split]].
  - exists pre, bld. simpl in R2.
    rewrite R2, R3, R4, R5, R6, R7, R8, R9, app_nil_r.
    repeat split.
    + now apply lang_numeric.
    + now apply lang_numeric.
    + now apply lang_numeric.
    + apply (optionalPart_iff "-" _ _ pre lang_prereleaseId). exact Hpre.
    + apply (optionalPart_iff "+" _ _ bld lang_buildId). exact Hbld.
  - rewrite C8, C7 by discriminate. rewrite C6, C5, C4, C3, C2. reflexivity.
  - rewrite C8, C7 by discriminate. rewrite C6, C5, C4, C3, C2. reflexivity.
  - rewrite C8, C7 by discriminate. rewrite C6, C5, C4, C3, C2. reflexivity.
Qed.

Lemma semver_complete v maj min pat :
  semver v maj min pat -> exists stf, In stf (matchesFrom semverRegex (startOf v)).
Proof.
  intros (pre & bld & -> & Hmaj & Hmin & Hpat & Hpre & Hbld).
  apply lang_numeric in Hmaj, Hmin, Hpat.
  apply (optionalPart_iff "-" _ _ pre lang_prereleaseId) in Hpre.
  apply (optionalPart_iff "+" _ _ bld lang_buildId) in Hbld.
  set (c3 := oset "patch" pat (oset "minor" min (oset "major" maj []))).
  set (p3 := (S (S (0 + List.length maj) + List.length min) + List.length pat)%nat).
  destruct (optionalGroup_intro "-" "prerelease" prereleaseIdRegex pre p3
              (bld ++ []) c3 eq_refl Hpre) as (p4 & c4 & H4).
  destruct (optionalGroup_intro "+" "buildmetadata" buildIdRegex bld p4
              [] c4 eq_refl Hbld) as (p5 & c5 & H5).
  exists {| pos := p5; rest := []; caps := c5 |}.
  unfold semverRegex, startOf.
  replace (pre ++ bld) with (pre ++ bld ++ []) by now rewrite app_nil_r.
  apply In_Cat. eexists. split; [simpl; left; reflexivity|].
  apply In_Cat. eexists. split; [apply Group_intro; [reflexivity | exact Hmaj]|].
  apply In_Cat. eexists. split; [apply Chr_intro|].
  apply In_Cat. eexists. split; [apply Group_intro; [reflexivity | exact Hmin]|].
  apply In_Cat. eexists. split; [apply Chr_intro|].
  apply In_Cat. eexists. split; [apply Group_intro; [reflexivity | exact Hpat]|].
  apply In_Cat. eexists. split; [exact H4|].
  apply In_Cat. eexists. split; [exact H5|].
  simpl. now left.
Qed.

(** *** The numbers of a version are determined by the version *)

Lemma numericIdentifier_digits w :
  numericIdentifier w -> Forall (fun d => isDigit d = true) w.
Proof.
  intros [-> | (c & ds & -> & Hc & Hds)].
  - repeat constructor.
  - constructor; auto. unfold isPositiveDigit, isDigit, codeIn in *.
    apply andb_true_iff in Hc. destruct Hc as [H1 H2].
    apply andb_true_iff. split; auto.
    apply Nat.leb_le in H1. apply Nat.leb_le. lia.
Qed.

Lemma digits_unique (a a' s s' : list ascii) :
  Forall (fun d => isDigit d = true) a ->
  Forall (fun d => isDigit d = true) a' ->
  noDigitAhead s -> noDigitAhead s' ->
  a ++ s = a' ++ s' -> a = a' /\ s = s'.
Proof.
  intros Ha. revert a'. induction Ha as [|x a Hx Ha IH]; intros a' Ha' Hs Hs' E.
  - destruct Ha' as [|y a' Hy Ha']; [auto|].
    simpl in E. subst s. simpl in Hs. congruence.
  - destruct Ha' as [|y a' Hy Ha'].
    + simpl in E. subst s'. simpl in Hs'. congruence.
    + simpl in E. injection E as -> E.
      destruct (IH a' Ha' Hs Hs' E) as [-> ->]. auto.
Qed.

Lemma optionalParts_noDigitAhead P Q pre bld :
  optionalPart "-" P pre -> optionalPart "+" Q bld -> noDigitAhead (pre ++ bld).
Proof.
  intros [-> | (w & -> & _)] [-> | (w' & -> & _)]; simpl; auto.
Qed.

Lemma semver_unique v maj min pat maj' min' pat' :
  semver v maj min pat -> semver v maj' min' pat' ->
  maj = maj' /\ min = min' /\ pat = pat'.
Proof.
  intros (pre & bld & -> & Hmaj & Hmin & Hpat & Hpre & Hbld)
         (pre' & bld' & E & Hmaj' & Hmin' & Hpat' & Hpre' & Hbld').
  apply numericIdentifier_digits in Hmaj, Hmin, Hpat, Hmaj', Hmin', Hpat'.
  apply digits_unique in E; auto; try reflexivity.
  destruct E as [-> E]. injection E as E.
  apply digits_unique in E; auto; try reflexivity.
  destruct E as [-> E]. injection E as E.
  apply digits_unique in E; auto; eauto using optionalParts_noDigitAhead.
  destruct E as [-> _]. auto.
Qed.

(** *** [exec] on the anchored pattern *)

Lemma execFrom_unfold r p s :
  execFrom r p s
  = match matchesFrom r {| pos := p; rest := s; caps := [] |} with
    | st :: _ => Some (caps st)
    | [] => match s with
            | [] => None
            | _ :: s' => execFrom r (S p) s'
            end
    end.
Proof. destruct s; reflexivity. Qed.

Lemma semverRegex_anchored st : pos st <> 0%nat -> matchesFrom semverRegex st = [].
Proof.
  intros Hp. destruct (matchesFrom semverRegex st) as [|x l] eqn:E; [reflexivity|].
  assert (H : In x (matchesFrom semverRegex st)) by (rewrite E; now left).
  unfold semverRegex in H. apply In_Cat in H. destruct H as (s1 & H1 & _).
  apply Bol_elim in H1. destruct H1 as [_ H1]. contradiction.
Qed.

Lemma execFrom_semver_later s : forall p,
  p <> 0%nat -> execFrom semverRegex p s = None.
Proof.
  induction s as [|c s IH]; intros p Hp; rewrite execFrom_unfold;
    rewrite semverRegex_anchored by (simpl; assumption); auto.
Qed.

Lemma exec_semver (v : string) :
  exec semverRegex v
  = match matchesFrom semverRegex (startOf (list_ascii_of_string v)) with
    | st :: _ => Some (caps st)
    | [] => None
    end.
Proof.
  unfold exec. rewrite execFrom_unfold. fold (startOf (list_ascii_of_string v)).
  destruct (matchesFrom semverRegex (startOf (list_ascii_of_string v))); auto.
  destruct (list_ascii_of_string v); auto.
  now apply execFrom_semver_later.
Qed.

Lemma exec_semver_Some (v : string) groups :
  exec semverRegex v = Some groups ->
  exists maj min pat,
    semver (list_ascii_of_string v) maj min pat
    /\ oget groups "major" = Some maj
    /\ oget groups "minor" = Some min
    /\ oget groups "patch" = Some pat.
Proof.
  rewrite exec_semver.
  destruct (matchesFrom semverRegex (startOf (list_ascii_of_string v)))
    as [|st l] eqn:E; [discriminate|].
  intros [= <-]. apply semver_sound. rewrite E. now left.
Qed.

Lemma exec_semver_None (v : string) :
  exec semverRegex v = None <->
  ~ exists maj min pat, semver (list_ascii_of_string v) maj min pat.
Proof.
  split.
  - intros Hnone (maj & min & pat & H).
    apply semver_complete in H. destruct H as [stf H].
    rewrite exec_semver in Hnone.
    destruct (matchesFrom semverRegex (startOf (list_ascii_of_string v)));
      [contradiction | discriminate].
  - intros Hno. destruct (exec semverRegex v) as [groups|] eqn:E; [|reflexivity].
    exfalso. apply Hno. apply exec_semver_Some in E.
    destruct E as (maj & min & pat & H & _). eauto.
Qed.

Lemma patch_valid (v : string) maj min pat :
  semver (list_ascii_of_string v) maj min pat ->
  (valueOfDigits pat + 1 < 2 ^ 53)%Z ->
  patch v = Some (string_of_list_ascii maj ++ "." ++ string_of_list_ascii min
                  ++ "." ++ decimal (valueOfDigits pat + 1))%string.
Proof.
  intros H Hbound. unfold patch.
  destruct (exec semverRegex v) as [groups|] eqn:E.
  - apply exec_semver_Some in E.
    destruct E as (maj' & min' & pat' & H' & Gmaj & Gmin & Gpat).
    destruct (semver_unique _ _ _ _ _ _ _ H H') as (-> & -> & ->).
    unfold groupText, groupChars. rewrite Gmaj, Gmin, Gpat.
    rewrite increment_exact; [reflexivity | | assumption].
    destruct H' as (pre & bld & _ & _ & _ & Hpat & _).
    now apply numericIdentifier_digits.
  - apply exec_semver_None in E. exfalso. apply E. eauto.
Qed.

Lemma patch_invalid (v : string) :
  patch v = None <->
  ~ exists maj min pat, semver (list_ascii_of_string v) maj min pat.
Proof.
  rewrite <- exec_semver_None. unfold patch.
  destruct (exec semverRegex v); split; intros; congruence.
Qed.

Lemma tagFor_other prisma2Version pkgName :
  isPrisma2OrPhoton pkgName = false -> tagFor prisma2Version pkgName = "latest".
Proof.
  intros H. unfold tagFor. rewrite H. now rewrite andb_false_r.
Qed.

(** The claim that [patch] returns major.minor.(patch+1) for every valid
    semantic version fails where doubles are no longer exact: for the patch
    number 2^53 the sum with one rounds back to 2^53, and the version comes
    back unchanged. *)
Lemma patch_beyond_exact_integers :
  semver (list_ascii_of_string "1.2.9007199254740992")
         (list_ascii_of_string "1") (list_ascii_of_string "2")
         (list_ascii_of_string "9007199254740992")
  /\ patch "1.2.9007199254740992" = Some "1.2.9007199254740992"
  /\ decimal (valueOfDigits (list_ascii_of_string "9007199254740992") + 1)
     = "9007199254740993".
Proof.
  split; [|split; vm_compute; reflexivity].
  exists [], []. split; [reflexivity|].
  assert (N : forall c ds, isPositiveDigit c = true ->
                           Forall (fun d => isDigit d = true) ds ->
                           numericIdentifier (c :: ds)).
  { intros c ds Hc Hds. right. exists c, ds. auto. }
  repeat split; try (apply N; [reflexivity | repeat constructor]);
    left; reflexivity.
Qed.

(** C9, as the code has it: [patch] returns major.minor.(patch+1) for a
    valid semantic version whose patch number plus one is below 2^53,
    whatever prerelease and build metadata follow the three numbers (so
    2.0.1-alpha.5 gives 2.0.2), and null exactly for the strings that the
    grammar of semantic versions rejects; [publishPackages] takes that
    result for a package outside the core set as it is, so that for a
    version that is no semantic version it announces and spawns the
    publication of the version null, without raising an error of its own. *)
Theorem patch_spec :
  patch "2.0.1-alpha.5" = Some "2.0.2"
  /\ (forall (v : string) maj min pat,
        semver (list_ascii_of_string v) maj min pat ->
        (valueOfDigits pat + 1 < 2 ^ 53)%Z ->
        patch v = Some (string_of_list_ascii maj ++ "." ++ string_of_list_ascii min
                        ++ "." ++ decimal (valueOfDigits pat + 1))%string)
  /\ (forall v : string,
        patch v = None <->
        ~ exists maj min pat, semver (list_ascii_of_string v) maj min pat)
  /\ (forall h packages prisma2Version pkgName pkg t,
        oget packages pkgName = Some pkg ->
        isPrisma2OrPhoton pkgName = false ->
        patch (version pkg) = None ->
        newVersionFor prisma2Version pkgName pkg = None
        /\ publishPackage h packages prisma2Version pkgName t
           = (_ <~ emit (Publishing pkgName "null" "latest") ;;
              _ <~ tryCatch (run h (path_dirname h (path pkg)) upgrade)
                            (fun _ => run h (path_dirname h (path pkg)) upgrade) ;;
              run h (path_dirname h (path pkg))
                  "yarn publish --tag latest --new-version null") t).
Proof.
  split; [reflexivity|]. split; [|split].
  - intros v maj min pat H Hbound. now apply patch_valid.
  - apply patch_invalid.
  - intros h packages prisma2Version pkgName pkg t Hpkg Hcore Hpatch.
    assert (Hnew : newVersionFor prisma2Version pkgName pkg = None).
    { unfold newVersionFor. now rewrite Hcore. }
    split; [assumption|].
    unfold publishPackage, lookupPackage. rewrite Hpkg.
    change (bindIO (ret pkg) ?k t) with (k pkg t). cbv beta zeta.
    rewrite Hnew, (tagFor_other _ _ Hcore), Hcore. reflexivity.
Qed.

Lemma patch_spec_witness :
  semver (list_ascii_of_string "1.2.3-rc.1+build.5")
         (list_ascii_of_string "1") (list_ascii_of_string "2")
         (list_ascii_of_string "3")
  /\ (valueOfDigits (list_ascii_of_string "3") + 1 < 2 ^ 53)%Z
  /\ patch "1.2.3-rc.1+build.5" = Some "1.2.4".
Proof.
  assert (H : semver (list_ascii_of_string "1.2.3-rc.1+build.5")
                     (list_ascii_of_string "1") (list_ascii_of_string "2")
                     (list_ascii_of_string "3")).
  { exists (list_ascii_of_string "-rc.1"), (list_ascii_of_string "+build.5").
    split; [reflexivity|].
    assert (N : forall c, isPositiveDigit c = true -> numericIdentifier [c]).
    { intros c Hc. right. exists c, []. auto. }
    repeat split; try (apply N; reflexivity).
    - right. exists (list_ascii_of_string "rc.1"). split; [reflexivity|].
      apply (@dotSeparated_more _ (list_ascii_of_string "rc")
                                (list_ascii_of_string "1")).
      + right. split; [repeat constructor | left; reflexivity].
      + apply dotSeparated_one. left. apply N. reflexivity.
    - right. exists (list_ascii_of_string "build.5"). split; [reflexivity|].
      apply (@dotSeparated_more _ (list_ascii_of_string "build")
                                (list_ascii_of_string "5")).
      + split; [discriminate | repeat constructor].
      + apply dotSeparated_one. split; [discriminate | repeat constructor]. }
  assert (B : (valueOfDigits (list_ascii_of_string "3") + 1 < 2 ^ 53)%Z)
    by (vm_compute; reflexivity).
  split; [exact H|]. split; [exact B|].
  exact (proj1 (proj2 patch_spec) "1.2.3-rc.1+build.5" _ _ _ H B).
Defined.

(** ** New version of the core packages *)

Lemma filter_none {A} (f : A -> bool) (l : list A) :
  (forall x, In x l -> f x = false) -> filter f l = [].
Proof.
  induction l as [|x l IH]; simpl; intros H; auto.
  rewrite (H x (or_introl eq_refl)). apply IH. intros y Hy. apply H. now right.
Qed.

Lemma nextAlpha_nothing (versions : list string) :
  (forall v n, In v versions -> alphaOf v = Some n -> n = Finite 0) ->
  nextAlpha versions = "2.0.0-alpha.-Infinity".
Proof.
  intros H. unfold nextAlpha. rewrite filter_none; [reflexivity|].
  intros x Hx. apply in_map_iff in Hx. destruct Hx as (v & <- & Hv).
  apply filter_In in Hv. destruct Hv as [Hv _].
  destruct (alphaOf v) as [n|] eqn:E; [|reflexivity].
  now rewrite (H v n Hv E).
Qed.

(** What [getNewPrisma2Version] returns when no tag overrides it, the two
    core packages are there and the two queries succeed. *)
Lemma getNewPrisma2Version_computed h (packages : Packages) t p2 ph r1 r2 :
  tagOverride h = None ->
  oget packages "prisma2" = Some p2 ->
  oget packages "@prisma/photon" = Some ph ->
  execa_command h t "." npmInfoPrisma2 pipe true = Exited r1 ->
  execa_command h (t ++ [Spawn "." npmInfoPrisma2 pipe true]) "." npmInfoPhoton
                pipe true = Exited r2 ->
  fst (getNewPrisma2Version h packages t)
  = Ok (nextAlpha [version p2; version ph; r1; r2]).
Proof.
  intros Htag H2 Hph E1 E2.
  unfold getNewPrisma2Version, versionOf, bindIO, runResult.
  rewrite Htag, H2, Hph. simpl.
  fold npmInfoPrisma2 npmInfoPhoton. rewrite E1, E2. reflexivity.
Qed.

(** C10: in [getNewPrisma2Version] without the override, an increment of 0
    does not pass the truthiness filter, and when no version string among
    the four shows a positive increment the maximum is that of an empty
    list, so that the function returns 2.0.0-alpha.-Infinity instead of
    raising an error. *)
Theorem getNewPrisma2Version_minus_infinity :
  truthy_number (Some (Finite 0)) = false
  /\ Math_max [] = NegInfinity
  /\ forall h (packages : Packages) t p2 ph r1 r2,
       tagOverride h = None ->
       oget packages "prisma2" = Some p2 ->
       oget packages "@prisma/photon" = Some ph ->
       execa_command h t "." npmInfoPrisma2 pipe true = Exited r1 ->
       execa_command h (t ++ [Spawn "." npmInfoPrisma2 pipe true]) "."
                     npmInfoPhoton pipe true = Exited r2 ->
       (forall v n, In v [version p2; version ph; r1; r2] ->
                    alphaOf v = Some n -> n = Finite 0) ->
       fst (getNewPrisma2Version h packages t) = Ok "2.0.0-alpha.-Infinity".
Proof.
  split; [reflexivity|]. split; [reflexivity|].
  intros h packages t p2 ph r1 r2 Htag H2 Hph E1 E2 Hnone.
  rewrite (getNewPrisma2Version_computed h packages t p2 ph r1 r2); auto.
  now rewrite nextAlpha_nothing.
Qed.

Lemma getNewPrisma2Version_minus_infinity_witness :
  let h := quietHost (fun _ => "1.4.0") None in
  let packages := coreWorkspace "2.0.0" in
  tagOverride h = None
  /\ fst (getNewPrisma2Version h packages []) = Ok "2.0.0-alpha.-Infinity".
Proof.
  split; [reflexivity|].
  apply (proj2 (proj2 getNewPrisma2Version_minus_infinity)
           (quietHost (fun _ => "1.4.0") None) (coreWorkspace "2.0.0") []
           (recordOf (coreWorkspace "2.0.0") "prisma2")
           (recordOf (coreWorkspace "2.0.0") "@prisma/photon")
           "1.4.0" "1.4.0"); try reflexivity.
  intros v n [<- | [<- | [<- | [<- | []]]]]; vm_compute; discriminate.
Defined.

(** C7 at the input on which the code departs from it: every version
    string shows the increment 0, the maximum observed is 0, and the new
    version is not 2.0.0-alpha.1. *)
Theorem increment_zero_is_lost :
  let h := quietHost (fun _ => "2.0.0-alpha.0") None in
  let packages := coreWorkspace "2.0.0-alpha.0" in
  map alphaOf ["2.0.0-alpha.0"; "2.0.0-alpha.0"; "2.0.0-alpha.0"; "2.0.0-alpha.0"]
  = [Some (Finite 0); Some (Finite 0); Some (Finite 0); Some (Finite 0)]
  /\ fst (getNewPrisma2Version h packages []) = Ok "2.0.0-alpha.-Infinity"
  /\ snd (publishPackages h packages [["prisma2"]] [])
     = [ Spawn "." npmInfoPrisma2 pipe true;
         Spawn "." npmInfoPhoton pipe true;
         Publishing "prisma2" "2.0.0-alpha.-Infinity" "alpha";
         Spawn "prisma2/cli/prisma2"
               "yarn publish --tag alpha --new-version 2.0.0-alpha.-Infinity"
               inherit true ].
Proof. repeat split; reflexivity. Qed.

(** ** The runner *)

Lemma emits_bind_ok {A B} (m : io A) (k : A -> io B) P :
  emits m P ->
  (forall a, (exists t, fst (m t) = Ok a) -> emits (k a) P) ->
  emits (bindIO m k) P.
Proof.
  intros Hm Hk t. unfold bindIO. destruct (Hm t) as (new1 & E1 & F1).
  destruct (m t) as [[a|e] t1] eqn:Em; simpl in E1; subst t1.
  - destruct (Hk a (ex_intro _ t (f_equal fst Em)) (t ++ new1)) as (new2 & E2 & F2).
    exists (new1 ++ new2). rewrite E2, app_assoc. split; auto.
    apply Forall_app. auto.
  - exists new1. auto.
Qed.

Lemma lookupPackage_Ok (packages : Packages) pkgName what t pkg :
  fst (lookupPackage packages pkgName what t) = Ok pkg ->
  oget packages pkgName = Some pkg.
Proof.
  unfold lookupPackage. destruct (oget packages pkgName); simpl; congruence.
Qed.

Lemma emits_lookupPackage (packages : Packages) pkgName what P :
  emits (lookupPackage packages pkgName what) P.
Proof.
  unfold lookupPackage. destruct (oget packages pkgName);
    auto using emits_ret, emits_throw.
Qed.

Section Runner.

Variable h : Host.
Variable packages : Packages.
Hypothesis named : namedByKey packages.
Variable names : list string.

Lemma testPackage_emits pkgName :
  In pkgName names ->
  emits (testPackage h packages pkgName) (runnerEvent h false packages names).
Proof.
  intros Hin. unfold testPackage.
  apply emits_bind_ok; [apply emits_lookupPackage|].
  intros pkg [t Hpkg]. apply lookupPackage_Ok in Hpkg.
  assert (Hev : forall ev,
             match ev with
             | Testing m => m = name pkg
             | Spawn cwd _ inherit true => cwd = path_dirname h (path pkg)
             | _ => False
             end -> runnerEvent h false packages names ev).
  { intros ev Hev. exists pkgName, pkg. repeat split; auto.
    destruct ev as [cwd cmd [|] [|]| |]; auto; try contradiction.
    split; auto. rewrite Hev. now apply named. }
  apply emits_bind.
  - unfold hasTestScript. destruct (scripts (packageJson pkg));
      auto using emits_ret, emits_throw.
  - intros [|]; [|apply emits_ret].
    apply emits_bind; [apply emits_emit | intros _; apply emits_run];
      apply Hev; reflexivity.
Qed.

Lemma publishPackage_emits prisma2Version pkgName :
  In pkgName names ->
  emits (publishPackage h packages prisma2Version pkgName)
        (runnerEvent h true packages names).
Proof.
  intros Hin. unfold publishPackage.
  apply emits_bind_ok; [apply emits_lookupPackage|].
  intros pkg [t Hpkg]. apply lookupPackage_Ok in Hpkg.
  assert (Hev : forall ev,
             match ev with
             | Publishing m _ _ => m = pkgName
             | Spawn cwd _ inherit true => cwd = path_dirname h (path pkg)
             | _ => False
             end -> runnerEvent h true packages names ev).
  { intros ev Hev. exists pkgName, pkg. repeat split; auto.
    destruct ev as [cwd cmd [|] [|]| |]; auto; contradiction. }
  cbv zeta.
  apply emits_bind; [apply emits_emit, Hev; reflexivity|]. intros _.
  apply emits_bind.
  - destruct (isPrisma2OrPhoton pkgName); [apply emits_ret|].
    apply emits_tryCatch; [|intros _]; apply emits_run, Hev; reflexivity.
  - intros _. apply emits_run, Hev. reflexivity.
Qed.

End Runner.

Lemma emits_getLatestCommit h dir : emits (getLatestCommit h dir) isQuery.
Proof.
  unfold getLatestCommit. apply emits_bind; [now apply emits_runResult|].
  intros result. destruct (split " " result); auto using emits_ret, emits_throw.
Qed.

Lemma emits_getChangesFromCommit h commit :
  emits (getChangesFromCommit h commit) isQuery.
Proof.
  unfold getChangesFromCommit. apply emits_bind; [now apply emits_runResult|].
  intros changes. destruct (0 <? String.length (trim changes))%nat;
    auto using emits_ret, emits_throw.
Qed.

Lemma emits_getLatestChanges h allRepos : emits (getLatestChanges h allRepos) isQuery.
Proof.
  unfold getLatestChanges. apply emits_bind.
  - apply emits_all. intros m [<- | [<- | [<- | []]]]; apply emits_getLatestCommit.
  - intros commits. destruct allRepos.
    + apply emits_bind; [|intros; apply emits_ret].
      apply emits_all. intros m Hm. apply in_map_iff in Hm.
      destruct Hm as (c & <- & _). apply emits_getChangesFromCommit.
    + destruct (sort compareCommits commits);
        auto using emits_throw, emits_getChangesFromCommit.
Qed.

Lemma emits_getNewPrisma2Version h (packages : Packages) :
  emits (getNewPrisma2Version h packages) isQuery.
Proof.
  unfold getNewPrisma2Version. destruct (tagOverride h); [apply emits_ret|].
  unfold versionOf.
  apply emits_bind;
    [destruct (oget packages "prisma2"); auto using emits_ret, emits_throw|].
  intros v1.
  apply emits_bind;
    [destruct (oget packages "@prisma/photon"); auto using emits_ret, emits_throw|].
  intros v2. apply emits_bind; [|intros; apply emits_ret].
  apply emits_all. intros m [<- | [<- | []]]; now apply emits_runResult.
Qed.

Lemma testPackages_emits h (packages : Packages) publishOrder :
  namedByKey packages ->
  emits (testPackages h packages publishOrder)
        (runnerEvent h false packages (List.concat publishOrder)).
Proof.
  intros Hn. unfold testPackages. rewrite flatten_concat.
  apply emits_forEach. intros n Hin. now apply testPackage_emits.
Qed.

Lemma publishPackages_emits h (packages : Packages) publishOrder :
  namedByKey packages ->
  emits (publishPackages h packages publishOrder)
        (fun ev => isQuery ev
                   \/ runnerEvent h true packages (List.concat publishOrder) ev).
Proof.
  intros Hn. unfold publishPackages. apply emits_bind.
  - eapply emits_weaken; [|apply emits_getNewPrisma2Version]. auto.
  - intros v. apply emits_forEach. intros batch Hb.
    apply emits_forEach. intros n Hin.
    eapply emits_weaken; [|apply publishPackage_emits with (names := List.concat publishOrder)];
      auto.
    apply in_concat. eauto.
Qed.

(** The accumulator that the resolver returns is consistent with the graph,
    whatever the names of the packages. *)
Lemma affected_consistent dirname (packages : Packages) (changes : list string) a :
  wellFormed packages ->
  getPackagesAffectedByChange_run dirname packages changes = Some (Ok a) ->
  consistent packages a.
Proof.
  intros Hwf Hrun.
  unfold getPackagesAffectedByChange_run, resolve in Hrun.
  set (changed := changedPackagesOf dirname packages changes) in *.
  assert (Hsub : forall p, In p changed -> In p (values packages)).
  { intros p Hp. apply filter_In in Hp. tauto. }
  assert (Hrec : forall p, In p changed -> oget packages (name p) = Some p).
  { intros p Hp. apply wellFormed_oget; auto. }
  assert (Hnd : NoDup (map name changed)).
  { apply NoDup_map_filter. rewrite wellFormed_names by assumption. apply Hwf. }
  destruct (initialAffected_spec packages changed Hnd Hrec) as [Hc0 _].
  exact (addAll_consistent _ _ _ _ _ Hrun Hc0).
Qed.

(** The records of the affected set are stored under their names, one per
    name. *)
Lemma affected_stored dirname (packages : Packages) (changes : list string) g :
  wellFormed packages ->
  getPackagesAffectedByChange dirname packages changes = Some (Ok g) ->
  storedByName g.
Proof.
  intros Hwf Hg. unfold getPackagesAffectedByChange in Hg.
  destruct (getPackagesAffectedByChange_run dirname packages changes)
    as [[a|e]|] eqn:Hrun; try discriminate.
  injection Hg as <-.
  destruct (affected_consistent _ _ _ _ Hwf Hrun) as (_ & Hnd & Hv).
  split; [assumption|].
  intros k p Hin. apply In_oget in Hin; auto.
  apply Hv, oget_Some_In in Hin. now apply Hwf in Hin.
Qed.

Lemma affected_named dirname (packages : Packages) (changes : list string) g :
  wellFormed packages ->
  getPackagesAffectedByChange dirname packages changes = Some (Ok g) ->
  namedByKey g.
Proof.
  intros Hwf Hg k p Hp.
  destruct (affected_stored _ _ _ _ Hwf Hg) as [_ Hname].
  apply Hname. now apply oget_Some_In.
Qed.

(** What [publish] adds to the trace: queries, and events of the pass it
    runs that concern packages of the batches after the third. *)
Lemma publish_events
        (h : Host) (publishFlag allRepos : bool) (manifests : list RawPackage)
        (t : list event) :
  exists new,
    snd (publish h publishFlag allRepos manifests t) = t ++ new
    /\ forall ev, In ev new ->
         isQuery ev
         \/ exists changes changedPackages publishOrder,
              fst (getLatestChanges h allRepos t) = Ok changes
              /\ getPackagesAffectedByChange
                   (path_dirname h)
                   (getPackageDependencies (getPackages manifests)) changes
                 = Some (Ok changedPackages)
              /\ getPublishOrder changedPackages = Some (Ok publishOrder)
              /\ runnerEvent h publishFlag changedPackages
                             (List.concat (skipn 3 publishOrder)) ev.
Proof.
  unfold publish. cbv zeta.
  destruct (0 <? List.length _)%nat.
  { exists []. simpl. rewrite app_nil_r. split; [reflexivity | intros ev []]. }
  unfold bindIO.
  destruct (emits_getLatestChanges h allRepos t) as (new1 & E1 & F1).
  destruct (getLatestChanges h allRepos t) as [[changes|e] t1] eqn:Echanges;
    simpl in E1; subst t1;
    [|exists new1; split; [reflexivity|];
      intros ev Hev; left; now apply (proj1 (Forall_forall _ _) F1)].
  destruct (getPackagesAffectedByChange _ _ changes) as [[g|e]|] eqn:Eg;
    cbv beta iota delta [ofFuel ret throw];
    try (exists new1; split; [reflexivity|];
         intros ev Hev; left; now apply (proj1 (Forall_forall _ _) F1)).
  destruct (getPublishOrder g) as [[order|e]|] eqn:Eorder;
    cbv beta iota delta [ofFuel ret throw];
    try (exists new1; split; [reflexivity|];
         intros ev Hev; left; now apply (proj1 (Forall_forall _ _) F1)).
  assert (Hnamed : namedByKey g).
  { eapply affected_named; [|exact Eg]. apply getPackageDependencies_wellFormed. }
  assert (Hrun : exists new2,
             snd ((if publishFlag then publishPackages h g (skipn 3 order)
                   else testPackages h g (skipn 3 order)) (t ++ new1))
             = (t ++ new1) ++ new2
             /\ Forall (fun ev => isQuery ev
                                  \/ runnerEvent h publishFlag g
                                       (List.concat (skipn 3 order)) ev) new2).
  { destruct publishFlag.
    - apply (publishPackages_emits h g (skipn 3 order) Hnamed).
    - destruct (testPackages_emits h g (skipn 3 order) Hnamed (t ++ new1))
        as (new2 & E2 & F2).
      exists new2. split; auto. eapply Forall_impl; [|exact F2]. auto. }
  destruct Hrun as (new2 & E2 & F2).
  exists (new1 ++ new2). split; [now rewrite E2, app_assoc|].
  intros ev Hev. apply in_app_iff in Hev. destruct Hev as [Hev | Hev].
  - left. now apply (proj1 (Forall_forall _ _) F1).
  - destruct (proj1 (Forall_forall _ _) F2 ev Hev) as [Hq | Hr]; [now left|].
    right. exists changes, g, order. auto.
Qed.

(** C8: before the test pass or the publish pass runs, the first three
    batches of the publish order are dropped: whatever the script tests,
    announces for publication or runs in a package directory concerns a
    package of the batches after the third, so that a package that is only
    in the dropped batches is neither tested nor published. *)
Theorem first_batches_dropped
        (h : Host) (publishFlag allRepos : bool) (manifests : list RawPackage)
        (t : list event) :
  exists new,
    snd (publish h publishFlag allRepos manifests t) = t ++ new
    /\ forall ev, In ev new ->
         isQuery ev
         \/ exists changes changedPackages publishOrder,
              fst (getLatestChanges h allRepos t) = Ok changes
              /\ getPackagesAffectedByChange
                   (path_dirname h)
                   (getPackageDependencies (getPackages manifests)) changes
                 = Some (Ok changedPackages)
              /\ getPublishOrder changedPackages = Some (Ok publishOrder)
              /\ runnerEvent h publishFlag changedPackages
                             (List.concat (skipn 3 publishOrder)) ev.
Proof. exact (publish_events h publishFlag allRepos manifests t). Qed.

(** Hence no package outside the batches after the
    third is tested or announced for publication. *)
Lemma dropped_packages_untouched
      (h : Host) (publishFlag allRepos : bool) (manifests : list RawPackage)
      (t : list event) changes changedPackages publishOrder m :
  fst (getLatestChanges h allRepos t) = Ok changes ->
  getPackagesAffectedByChange
    (path_dirname h) (getPackageDependencies (getPackages manifests)) changes
  = Some (Ok changedPackages) ->
  getPublishOrder changedPackages = Some (Ok publishOrder) ->
  ~ In m (List.concat (skipn 3 publishOrder)) ->
  exists new,
    snd (publish h publishFlag allRepos manifests t) = t ++ new
    /\ ~ In (Testing m) new
    /\ forall v tag, ~ In (Publishing m v tag) new.
Proof.
  intros Hc Hg Ho Hm.
  destruct (publish_events h publishFlag allRepos manifests t)
    as (new & E & H).
  exists new. split; [exact E|].
  assert (G : forall ev, In ev new ->
                match ev with
                | Testing m' | Publishing m' _ _ => m' <> m
                | _ => True
                end).
  { intros ev Hev. destruct (H ev Hev) as [Hq | (c & g & o & Hc' & Hg' & Ho' & Hr)].
    - destruct ev; simpl in Hq; auto; contradiction.
    - rewrite Hc in Hc'. injection Hc' as <-.
      rewrite Hg in Hg'. injection Hg' as <-.
      rewrite Ho in Ho'. injection Ho' as <-.
      destruct Hr as (n & pkg & Hin & _ & _ & Hev').
      destruct ev as [cwd cmd io sh|m'|m' v tag]; auto;
        destruct Hev' as [_ ->]; intros ->; contradiction. }
  split.
  - intros Hin. now apply (G _ Hin).
  - intros v tag Hin. now apply (G _ Hin).
Qed.

(** * Further properties of the code *)

(** ** Package loader *)

Lemma getPackages_step acc p :
  (fun acc p =>
     match pj_name (raw_packageJson p) with
     | Some n => if truthy_string n then oset n p acc else acc
     | None => acc
     end) acc p
  = match loadedName p with
    | Some n => oset n p acc
    | None => acc
    end.
Proof.
  unfold loadedName. destruct (pj_name (raw_packageJson p)) as [n|]; auto.
  destruct (truthy_string n); auto.
Qed.

Lemma getPackages_fold (l : list RawPackage) (acc : RawPackages) :
  fold_left
    (fun acc p =>
       match pj_name (raw_packageJson p) with
       | Some n => if truthy_string n then oset n p acc else acc
       | None => acc
       end) l acc
  = fold_left (fun acc p => match loadedName p with
                            | Some n => oset n p acc
                            | None => acc
                            end) l acc.
Proof.
  revert acc. induction l as [|p l IH]; intros acc; simpl; auto.
  rewrite IH. f_equal. apply getPackages_step.
Qed.

Lemma getPackages_NoDup (l : list RawPackage) : NoDup (keys (getPackages l)).
Proof.
  unfold getPackages. rewrite getPackages_fold.
  apply (fold_left_invariant (fun acc : RawPackages => NoDup (keys acc))).
  - intros acc p _ H. destruct (loadedName p); auto. now apply NoDup_keys_oset.
  - constructor.
Qed.



(** ** Dependency graph builder *)

(** X2: the reverse edges are complete: when the name of a package Q of the
    graph is in the uses list of a package P, the name of P is in the usedBy
    list of Q, and likewise for usesDev and usedByDev. *)
Theorem reverse_edges_complete (packages : RawPackages) (P Q : Package) :
  In P (values (getPackageDependencies packages)) ->
  In Q (values (getPackageDependencies packages)) ->
  (In (name Q) (uses P) -> In (name P) (usedBy Q))
  /\ (In (name Q) (usesDev P) -> In (name P) (usedByDev Q)).
Proof. apply usedBy_complete. Qed.

Lemma reverse_edges_complete_witness :
  let g := getPackageDependencies diamondWorkspace in
  let P := recordOf g "@prisma/d" in
  let Q := recordOf g "@prisma/b" in
  In P (values g) /\ In Q (values g)
  /\ In (name Q) (usesDev P) /\ In (name P) (usedByDev Q).
Proof.
  assert (HP : In (recordOf (getPackageDependencies diamondWorkspace) "@prisma/d")
                  (values (getPackageDependencies diamondWorkspace)))
    by (vm_compute; tauto).
  assert (HQ : In (recordOf (getPackageDependencies diamondWorkspace) "@prisma/b")
                  (values (getPackageDependencies diamondWorkspace)))
    by (vm_compute; tauto).
  assert (HU : In (name (recordOf (getPackageDependencies diamondWorkspace) "@prisma/b"))
                  (usesDev (recordOf (getPackageDependencies diamondWorkspace) "@prisma/d")))
    by (vm_compute; tauto).
  repeat split; try assumption.
  exact (proj2 (reverse_edges_complete diamondWorkspace _ _ HP HQ) HU).
Defined.

Lemma initialCache_keys_eq (packages : RawPackages) :
  NoDup (keys packages) -> keys (initialCache packages) = keys packages.
Proof.
  intros Hnd. unfold initialCache.
  assert (G : forall (l : RawPackages) (acc : Packages),
             NoDup (keys acc ++ keys l) ->
             keys (fold_left
                     (fun acc e => oset (fst e) (newPackage (fst e) (snd e)) acc)
                     l acc)
             = keys acc ++ keys l).
  { induction l as [|[k r] l IH]; intros acc Hn; simpl.
    - now rewrite app_nil_r.
    - assert (Hfresh : ~ In k (keys acc)).
      { intros Hin. simpl in Hn. apply NoDup_remove_2 in Hn.
        apply Hn, in_app_iff. auto. }
      rewrite IH.
      + rewrite keys_oset_absent by assumption. now rewrite <- app_assoc.
      + rewrite keys_oset_absent by assumption. rewrite <- app_assoc. exact Hn. }
  now rewrite G.
Qed.

(** X3: the graph has one record for each loaded manifest, in the order of
    the manifests, and the record stored under a name carries that name and
    the path, the version and the content of the manifest of that name. *)
Theorem graph_keeps_manifests (manifests : list RawPackage) :
  keys (getPackageDependencies (getPackages manifests)) = keys (getPackages manifests)
  /\ forall k P,
       oget (getPackageDependencies (getPackages manifests)) k = Some P ->
       exists r, oget (getPackages manifests) k = Some r
                 /\ name P = k
                 /\ path P = raw_path r
                 /\ version P = pj_version (raw_packageJson r)
                 /\ packageJson P = raw_packageJson r.
Proof.
  split.
  - rewrite getPackageDependencies_keys. apply initialCache_keys_eq.
    apply getPackages_NoDup.
  - intros k P HP. apply oget_Some_In in HP.
    destruct (getPackageDependencies_entry _ _ _ HP) as (r & Hr & Hun).
    exists r. split; [apply In_oget; auto using getPackages_NoDup|].
    change (name P) with (name (unlinked P)).
    change (path P) with (path (unlinked P)).
    change (version P) with (version (unlinked P)).
    change (packageJson P) with (packageJson (unlinked P)).
    rewrite Hun. auto.
Qed.

(** ** Cycle detector and the start of the script *)

Lemma circles_found (packages : Packages) pkg n :
  In pkg (values packages) ->
  In n (uses pkg ++ usesDev pkg) -> In n (usedBy pkg ++ usedByDev pkg) ->
  (0 <? List.length (getCircularDependencies packages))%nat = true.
Proof.
  intros Hpkg H1 H2. rewrite getCircularDependencies_filter.
  assert (Hn : In n (circlesOf pkg)) by (apply intersection_In; tauto).
  assert (Hin : In (circlesOf pkg)
                   (filter (fun circles => (0 <? List.length circles)%nat)
                           (map circlesOf (values packages)))).
  { apply filter_In. split; [now apply in_map|].
    destruct (circlesOf pkg); [contradiction | reflexivity]. }
  destruct (filter _ _); [contradiction | reflexivity].
Qed.

(** X4: when two packages of the workspace depend on each other (or one
    depends on itself), [publish] throws the circular-dependency error at
    once: no process is spawned, nothing is tested or published. *)
Theorem mutual_dependency_aborts
        (h : Host) (publishFlag allRepos : bool) (manifests : list RawPackage)
        (t : list event) (P Q : Package) :
  In P (values (getPackageDependencies (getPackages manifests))) ->
  In Q (values (getPackageDependencies (getPackages manifests))) ->
  In (name Q) (uses P ++ usesDev P) ->
  In (name P) (uses Q ++ usesDev Q) ->
  publish h publishFlag allRepos manifests t
  = (Throw (circularError
              (getCircularDependencies
                 (getPackageDependencies (getPackages manifests)))), t).
Proof.
  intros HP HQ HPQ HQP. unfold publish. cbv zeta.
  rewrite (circles_found _ Q (name P)); auto.
  destruct (usedBy_complete _ _ _ HP HQ) as [H1 H2].
  apply in_app_iff in HPQ. apply in_app_iff. tauto.
Qed.

Lemma mutual_dependency_aborts_witness :
  let g := getPackageDependencies (getPackages mutualManifests) in
  let h := quietHost (fun _ => "") None in
  In (recordOf g "@prisma/a") (values g)
  /\ In (recordOf g "@prisma/b") (values g)
  /\ fst (publish h true false mutualManifests [])
     = Throw (Error "Oops, there are circular dependencies: @prisma/b,@prisma/a")
  /\ snd (publish h true false mutualManifests []) = [].
Proof.
  assert (HP : In (recordOf (getPackageDependencies (getPackages mutualManifests)) "@prisma/a")
                  (values (getPackageDependencies (getPackages mutualManifests))))
    by (vm_compute; tauto).
  assert (HQ : In (recordOf (getPackageDependencies (getPackages mutualManifests)) "@prisma/b")
                  (values (getPackageDependencies (getPackages mutualManifests))))
    by (vm_compute; tauto).
  split; [exact HP|]. split; [exact HQ|].
  rewrite (mutual_dependency_aborts (quietHost (fun _ => "") None) true false
             mutualManifests [] _ _ HP HQ)
    by (vm_compute; tauto).
  split; reflexivity.
Defined.

(** ** Change-impact resolver *)

(** X5: the affected set grows with the change set: on a well-formed graph
    without inherited names, every package affected by a list of changes is
    affected by any list of changes that holds every change of the first,
    in whatever order and with whatever else. *)
Theorem affected_monotone dirname (packages : Packages)
        (changes changes' : list string) a a' :
  (forall s, dirname s <> "") ->
  wellFormed packages ->
  plainNames packages ->
  incl changes changes' ->
  getPackagesAffectedByChange_run dirname packages changes = Some (Ok a) ->
  getPackagesAffectedByChange_run dirname packages changes' = Some (Ok a') ->
  incl (keys (affectedPackages a)) (keys (affectedPackages a')).
Proof.
  intros Hdir Hwf Hplain Hincl Hrun Hrun'.
  destruct (resolve_closure dirname packages changes Hdir Hwf Hplain)
    as (b & Hb & _ & _ & Hleast & _).
  destruct (resolve_closure dirname packages changes' Hdir Hwf Hplain)
    as (b' & Hb' & Hsup' & Hclosed' & _).
  rewrite Hrun in Hb. injection Hb as <-.
  rewrite Hrun' in Hb'. injection Hb' as <-.
  intros k Hk.
  apply (Hleast (fun k => In k (keys (affectedPackages a')))); auto.
  intros p Hp (c & Hc & Hpre). apply Hsup'; auto.
  exists c. split; auto.
Qed.

Lemma affected_monotone_witness :
  (forall s, posix_dirname s <> "")
  /\ wellFormed (getPackageDependencies chainWorkspace)
  /\ plainNames (getPackageDependencies chainWorkspace)
  /\ incl ["pkgs/b/index.ts"] ["pkgs/c/index.ts"; "readme.md"; "pkgs/b/index.ts"]
  /\ exists a a',
       getPackagesAffectedByChange_run posix_dirname
         (getPackageDependencies chainWorkspace) ["pkgs/b/index.ts"] = Some (Ok a)
       /\ getPackagesAffectedByChange_run posix_dirname
            (getPackageDependencies chainWorkspace)
            ["pkgs/c/index.ts"; "readme.md"; "pkgs/b/index.ts"] = Some (Ok a')
       /\ incl (keys (affectedPackages a)) (keys (affectedPackages a')).
Proof.
  assert (Hincl : incl ["pkgs/b/index.ts"]
                       ["pkgs/c/index.ts"; "readme.md"; "pkgs/b/index.ts"]).
  { intros c [<- | []]. simpl. auto. }
  split; [exact posix_dirname_nonempty|].
  split; [exact (getPackageDependencies_wellFormed chainWorkspace)|].
  split; [reflexivity|]. split; [exact Hincl|].
  destruct (getPackagesAffectedByChange_run posix_dirname
              (getPackageDependencies chainWorkspace) ["pkgs/b/index.ts"])
    as [[a|e]|] eqn:E; try (vm_compute in E; discriminate).
  destruct (getPackagesAffectedByChange_run posix_dirname
              (getPackageDependencies chainWorkspace)
              ["pkgs/c/index.ts"; "readme.md"; "pkgs/b/index.ts"])
    as [[a'|e]|] eqn:E'; try (vm_compute in E'; discriminate).
  exists a, a'. repeat split.
  exact (affected_monotone posix_dirname (getPackageDependencies chainWorkspace)
           ["pkgs/b/index.ts"] ["pkgs/c/index.ts"; "readme.md"; "pkgs/b/index.ts"]
           a a' posix_dirname_nonempty
           (getPackageDependencies_wellFormed chainWorkspace) eq_refl Hincl E E').
Defined.

(** X6: on a well-formed graph without inherited names the affected packages
    form a graph of their own: they are stored under their names without
    repetition, with the records of the whole graph, and every dependant
    that a record names is itself affected, so that the planner never meets
    a name it does not know. *)
Theorem affected_is_a_graph dirname (packages : Packages) (changes : list string) a :
  (forall s, dirname s <> "") ->
  wellFormed packages ->
  plainNames packages ->
  getPackagesAffectedByChange_run dirname packages changes = Some (Ok a) ->
  wellFormed (affectedPackages a)
  /\ closedDag (dagOf (affectedPackages a))
  /\ forall k p, oget (affectedPackages a) k = Some p -> oget packages k = Some p.
Proof.
  intros Hdir Hwf Hplain Hrun.
  pose proof (affected_wellFormed dirname packages changes a Hdir Hwf Hplain Hrun)
    as Hwa.
  split; [assumption|]. split; [now apply dagOf_closed|].
  destruct (resolve_closure dirname packages changes Hdir Hwf Hplain)
    as (b & Hb & _ & _ & _ & Hv & _).
  rewrite Hrun in Hb. injection Hb as <-. exact Hv.
Qed.

Lemma affected_is_a_graph_witness :
  (forall s, posix_dirname s <> "")
  /\ wellFormed (getPackageDependencies diamondWorkspace)
  /\ plainNames (getPackageDependencies diamondWorkspace)
  /\ exists a,
       getPackagesAffectedByChange_run posix_dirname
         (getPackageDependencies diamondWorkspace) ["pkgs/a/x.ts"] = Some (Ok a)
       /\ wellFormed (affectedPackages a).
Proof.
  split; [exact posix_dirname_nonempty|].
  split; [exact (getPackageDependencies_wellFormed diamondWorkspace)|].
  split; [reflexivity|].
  destruct (getPackagesAffectedByChange_run posix_dirname
              (getPackageDependencies diamondWorkspace) ["pkgs/a/x.ts"])
    as [[a|e]|] eqn:E; try (vm_compute in E; discriminate).
  exists a. split; [reflexivity|].
  exact (proj1 (affected_is_a_graph posix_dirname
                  (getPackageDependencies diamondWorkspace) ["pkgs/a/x.ts"] a
                  posix_dirname_nonempty
                  (getPackageDependencies_wellFormed diamondWorkspace) eq_refl E)).
Defined.

(** X7: on a well-formed graph without inherited names a package is affected
    exactly when it is reached from a directly changed package along usedBy
    and usedByDev edges. *)
Theorem affected_iff_reached dirname (packages : Packages) (changes : list string) a :
  (forall s, dirname s <> "") ->
  wellFormed packages ->
  plainNames packages ->
  getPackagesAffectedByChange_run dirname packages changes = Some (Ok a) ->
  forall n,
    In n (keys (affectedPackages a)) <->
    exists p, In p (values packages) /\ changedUnder dirname changes p
              /\ dependsTransitively packages (name p) n.
Proof.
  intros Hdir Hwf Hplain Hrun n.
  destruct (resolve_closure dirname packages changes Hdir Hwf Hplain)
    as (b & Hb & Hsup & Hclosed & Hleast & _).
  rewrite Hrun in Hb. injection Hb as <-. split.
  - revert n. apply Hleast.
    + intros p Hp Hc. exists p. repeat split; auto. constructor.
    + intros k q m (p & Hp & Hc & Hreach) Hq Hm.
      exists p. repeat split; auto. eapply dependsTransitively_step; eauto.
  - intros (p & Hp & Hc & Hreach).
    induction Hreach as [|m q n' _ IH Hq Hn]; [now apply Hsup|].
    exact (Hclosed m q n' IH Hq Hn).
Qed.

Lemma affected_iff_reached_witness :
  (forall s, posix_dirname s <> "")
  /\ wellFormed (getPackageDependencies chainWorkspace)
  /\ plainNames (getPackageDependencies chainWorkspace)
  /\ exists a,
       getPackagesAffectedByChange_run posix_dirname
         (getPackageDependencies chainWorkspace) ["pkgs/c/index.ts"] = Some (Ok a)
       /\ (In "@prisma/a" (keys (affectedPackages a)) <->
           exists p, In p (values (getPackageDependencies chainWorkspace))
                     /\ changedUnder posix_dirname ["pkgs/c/index.ts"] p
                     /\ dependsTransitively (getPackageDependencies chainWorkspace)
                                            (name p) "@prisma/a").
Proof.
  split; [exact posix_dirname_nonempty|].
  split; [exact (getPackageDependencies_wellFormed chainWorkspace)|].
  split; [reflexivity|].
  destruct (getPackagesAffectedByChange_run posix_dirname
              (getPackageDependencies chainWorkspace) ["pkgs/c/index.ts"])
    as [[a|e]|] eqn:E; try (vm_compute in E; discriminate).
  exists a. split; [reflexivity|].
  exact (affected_iff_reached posix_dirname (getPackageDependencies chainWorkspace)
           ["pkgs/c/index.ts"] a posix_dirname_nonempty
           (getPackageDependencies_wellFormed chainWorkspace) eq_refl E "@prisma/a").
Defined.

(** ** A change outside every package *)

Lemma resolve_nothing dirname (packages : Packages) (changes : list string) :
  (forall p, In p (values packages) -> directlyChanged dirname changes p = false) ->
  getPackagesAffectedByChange dirname packages changes = Some (Ok []).
Proof.
  intros H. unfold getPackagesAffectedByChange, getPackagesAffectedByChange_run,
              resolve, changedPackagesOf.
  rewrite filter_none by assumption. reflexivity.
Qed.

(** [publish] once the cycle detector has found nothing. *)
Lemma publish_no_circles h publishFlag allRepos manifests t :
  getCircularDependencies (getPackageDependencies (getPackages manifests)) = [] ->
  publish h publishFlag allRepos manifests t
  = (changes <~ getLatestChanges h allRepos ;;
     changedPackages <~
       ofFuel (getPackagesAffectedByChange
                 (path_dirname h)
                 (getPackageDependencies (getPackages manifests)) changes) ;;
     publishOrder <~ ofFuel (getPublishOrder changedPackages) ;;
     if publishFlag then publishPackages h changedPackages (skipn 3 publishOrder)
     else testPackages h changedPackages (skipn 3 publishOrder)) t.
Proof.
  intros H. unfold publish. cbv zeta. rewrite H. reflexivity.
Qed.

(** X8: when no package directory is a prefix of a changed path, the
    affected set and the publish order are empty; the test pass then ends
    without testing anything, and the publish pass publishes nothing: it
    fails on the missing package prisma2 unless the tag is overridden. *)
Theorem change_outside_packages
        (h : Host) (allRepos : bool) (manifests : list RawPackage)
        (t t1 : list event) (changes : list string) :
  getCircularDependencies (getPackageDependencies (getPackages manifests)) = [] ->
  getLatestChanges h allRepos t = (Ok changes, t1) ->
  (forall p, In p (values (getPackageDependencies (getPackages manifests))) ->
             directlyChanged (path_dirname h) changes p = false) ->
  getPackagesAffectedByChange (path_dirname h)
    (getPackageDependencies (getPackages manifests)) changes = Some (Ok [])
  /\ getPublishOrder [] = Some (Ok [])
  /\ publish h false allRepos manifests t = (Ok tt, t1)
  /\ (tagOverride h = None ->
      publish h true allRepos manifests t
      = (Throw (TypeError "Cannot read property 'version' of undefined"), t1))
  /\ (tagOverride h <> None -> publish h true allRepos manifests t = (Ok tt, t1)).
Proof.
  intros Hcirc Hchanges Hnone.
  pose proof (resolve_nothing _ _ _ Hnone) as Hres.
  split; [exact Hres|]. split; [reflexivity|].
  rewrite !publish_no_circles by assumption.
  unfold bindIO. rewrite Hchanges, Hres. cbv beta iota delta [ofFuel ret throw].
  change (getPublishOrder []) with (Some (Ok (@nil (list string)))).
  cbv beta iota. split; [reflexivity|]. split.
  - intros Htag. unfold publishPackages, getNewPrisma2Version, bindIO.
    rewrite Htag. reflexivity.
  - intros Htag. unfold publishPackages, getNewPrisma2Version, bindIO.
    destruct (tagOverride h); [reflexivity | congruence].
Qed.

Lemma change_outside_packages_witness :
  let h := quietHost (fun cmd => if String.prefix "git log" cmd
                                 then "2019-10-01T10:00:00+02:00 abc def"
                                 else "docs/readme.md") None in
  let manifests := [ onDisk "pkgs/a" "@prisma/a" "1.0.0" [] [] ] in
  getCircularDependencies (getPackageDependencies (getPackages manifests)) = []
  /\ fst (getLatestChanges h false []) = Ok ["photonjs/docs/readme.md"]
  /\ fst (publish h false false manifests []) = Ok tt
  /\ fst (publish h true false manifests [])
     = Throw (TypeError "Cannot read property 'version' of undefined").
Proof.
  set (h := quietHost (fun cmd => if String.prefix "git log" cmd
                                  then "2019-10-01T10:00:00+02:00 abc def"
                                  else "docs/readme.md") None).
  set (manifests := [ onDisk "pkgs/a" "@prisma/a" "1.0.0" [] [] ]).
  assert (E : getLatestChanges h false []
              = (Ok ["photonjs/docs/readme.md"], snd (getLatestChanges h false [])))
    by reflexivity.
  assert (C : getCircularDependencies (getPackageDependencies (getPackages manifests))
              = []) by reflexivity.
  assert (N : forall p, In p (values (getPackageDependencies (getPackages manifests))) ->
                directlyChanged (path_dirname h) ["photonjs/docs/readme.md"] p = false).
  { intros p [<- | []]. reflexivity. }
  destruct (change_outside_packages h false manifests [] _ _ C E N)
    as (_ & _ & Htest & Hpub & _).
  split; [exact C|]. split; [reflexivity|]. split.
  - now rewrite Htest.
  - now rewrite (Hpub eq_refl).
Defined.

(** ** Splitting and joining *)

Lemma split_without sep s : without sep s -> split sep s = [s].
Proof.
  unfold without. induction s as [|c s IH]; simpl; intros H; auto.
  destruct (Ascii.eqb c sep) eqn:E.
  - apply Ascii.eqb_eq in E. subst. tauto.
  - rewrite IH; auto.
Qed.

Lemma split_append sep w rest :
  without sep w ->
  split sep (w ++ String sep rest)%string = w :: split sep rest.
Proof.
  unfold without. induction w as [|c w IH]; simpl; intros H.
  - now rewrite Ascii.eqb_refl.
  - destruct (Ascii.eqb c sep) eqn:E.
    + apply Ascii.eqb_eq in E. subst. tauto.
    + rewrite IH; auto.
Qed.

Lemma join_cons sep x y rest :
  join sep (x :: y :: rest) = (x ++ sep ++ join sep (y :: rest))%string.
Proof. reflexivity. Qed.

(** Splitting and joining are inverse to each other: the pieces of a
    string joined by the separator give the string back, and an array of
    at least one piece, none of which holds the separator, is found again
    by splitting what joining made of it. *)
Lemma split_join_roundtrip (sep : ascii) :
  (forall s, join (String sep "") (split sep s) = s)
  /\ (forall piece pieces,
        Forall (without sep) (piece :: pieces) ->
        split sep (join (String sep "") (piece :: pieces)) = piece :: pieces).
Proof.
  split.
  - unfold join. induction s as [|c s IH]; [reflexivity|].
    cbn [split]. destruct (split_cons sep s) as (w & ws & Hs).
    rewrite Hs in *. destruct (Ascii.eqb c sep) eqn:E.
    + apply Ascii.eqb_eq in E. subst c.
      change (String.concat (String sep "") ("" :: w :: ws))
        with (String sep (String.concat (String sep "") (w :: ws))).
      now rewrite IH.
    + destruct ws as [|w' ws].
      * simpl in *. now rewrite IH.
      * change (String.concat (String sep "") (String c w :: w' :: ws))
          with (String c (String.concat (String sep "") (w :: w' :: ws))).
        now rewrite IH.
  - intros piece pieces. revert piece.
    induction pieces as [|q pieces IH]; intros piece H.
    + simpl. inversion H; subst. now apply split_without.
    + inversion H as [|? ? Hp Hrest]; subst.
      rewrite join_cons.
      change (piece ++ String sep "" ++ join (String sep "") (q :: pieces))%string
        with (piece ++ String sep (join (String sep "") (q :: pieces)))%string.
      rewrite split_append by assumption. now rewrite (IH q Hrest).
Qed.

(** ** Latest commit and latest changes *)

(** X9: [getLatestCommit] reads the date, the hash and the parents off the
    line that git prints, and a commit is a merge commit exactly when the
    line names more than one parent; the one process it spawns is the git
    log of the repository. *)
Theorem getLatestCommit_parse (h : Host) (dir : string) (t : list event)
        (dateS hashS : string) (parents : list string) :
  Forall (without " ") (dateS :: hashS :: parents) ->
  execa_command h t dir gitLog pipe true
  = Exited (join " " (dateS :: hashS :: parents)) ->
  getLatestCommit h dir t
  = (Ok {| date := Date_parse h dateS;
           dir := dir;
           hash := Some hashS;
           isMergeCommit := (1 <? List.length parents)%nat;
           parentCommits := parents |},
     t ++ [Spawn dir gitLog pipe true]).
Proof.
  intros Hpieces Hrun. unfold getLatestCommit, bindIO, runResult.
  rewrite Hrun.
  rewrite (proj2 (split_join_roundtrip " ") dateS (hashS :: parents) Hpieces).
  reflexivity.
Qed.

Lemma getLatestCommit_parse_witness :
  let h := quietHost (fun _ => "2019-10-01T10:00:00+02:00 1a2b 3c4d 5e6f") None in
  Forall (without " ") ["2019-10-01T10:00:00+02:00"; "1a2b"; "3c4d"; "5e6f"]
  /\ fst (getLatestCommit h "lift" [])
     = Ok {| date := Some 0%Z; dir := "lift"; hash := Some "1a2b";
             isMergeCommit := true; parentCommits := ["3c4d"; "5e6f"] |}.
Proof.
  assert (H : Forall (without " ")
                     ["2019-10-01T10:00:00+02:00"; "1a2b"; "3c4d"; "5e6f"]).
  { repeat constructor; unfold without; simpl; intuition discriminate. }
  split; [exact H|].
  now rewrite (getLatestCommit_parse
                 (quietHost (fun _ => "2019-10-01T10:00:00+02:00 1a2b 3c4d 5e6f") None)
                 "lift" [] "2019-10-01T10:00:00+02:00" "1a2b" ["3c4d"; "5e6f"] H eq_refl).
Defined.

Lemma insertSorted_Permutation {A} (compare : A -> A -> Z) x l :
  Permutation (insertSorted compare x l) (x :: l).
Proof.
  induction l as [|y l IH]; simpl; auto.
  destruct (0 <? compare x y)%Z; auto.
  rewrite IH. apply perm_swap.
Qed.

Lemma sort_Permutation {A} (compare : A -> A -> Z) (l : list A) :
  Permutation (sort compare l) l.
Proof.
  unfold sort.
  assert (G : forall (l acc : list A),
             Permutation (fold_left (fun acc x => insertSorted compare x acc) l acc)
                         (acc ++ l)).
  { induction l0 as [|x l0 IH]; intros acc; simpl.
    - now rewrite app_nil_r.
    - rewrite IH, insertSorted_Permutation. apply Permutation_middle. }
  apply (G l []).
Qed.

Lemma notBefore_dates (a b : Commit) x y :
  date a = Some x -> date b = Some y -> (notBefore a b <-> (y <= x)%Z).
Proof.
  intros Ha Hb. unfold notBefore, dateBefore. rewrite Ha, Hb.
  rewrite Z.ltb_ge. tauto.
Qed.

Lemma insertSorted_sorted (x : Commit) (l : list Commit) :
  date x <> None -> Forall (fun c => date c <> None) l ->
  StronglySorted notBefore l ->
  StronglySorted notBefore (insertSorted compareCommits x l).
Proof.
  intros Hx Hl Hs. destruct (date x) as [dx|] eqn:Ex; [clear Hx | congruence].
  induction Hs as [|y l Hs IH Hy]; simpl.
  - repeat constructor.
  - inversion Hl as [|? ? Hvy Hvl]; subst.
    destruct (date y) as [dy|] eqn:Ey; [clear Hvy | congruence].
    unfold compareCommits at 1.
    destruct (dateBefore x y) eqn:E; simpl.
    + constructor; [now apply IH|].
      apply Forall_forall. intros z Hz.
      apply (Permutation_in _ (insertSorted_Permutation compareCommits x l)) in Hz.
      destruct Hz as [<- | Hz]; [|now apply (proj1 (Forall_forall _ _) Hy)].
      unfold dateBefore in E. rewrite Ex, Ey in E. apply Z.ltb_lt in E.
      apply (notBefore_dates y x dy dx); auto. lia.
    + constructor; [now constructor|].
      constructor; [exact E|].
      apply Forall_forall. intros z Hz.
      pose proof (proj1 (Forall_forall _ _) Hy z Hz) as Hyz.
      pose proof (proj1 (Forall_forall _ _) Hvl z Hz) as Hvz.
      destruct (date z) as [dz|] eqn:Ez; [|congruence].
      apply (notBefore_dates y z dy dz) in Hyz; auto.
      apply (notBefore_dates x y dx dy) in E; auto.
      apply (notBefore_dates x z dx dz); auto. lia.
Qed.

(** X10: sorting the commits with the comparison function of the script
    keeps the commits and puts the latest first: when every date is valid,
    no commit of the sorted array is dated before a later one of the array,
    so that the first one, whose changes [getLatestChanges] reads, has the
    latest date. *)
Theorem latest_commit_first (commits : list Commit) :
  Forall (fun c => date c <> None) commits ->
  Permutation (sort compareCommits commits) commits
  /\ StronglySorted notBefore (sort compareCommits commits)
  /\ forall latest others,
       sort compareCommits commits = latest :: others ->
       forall c, In c commits ->
         exists x y, date latest = Some x /\ date c = Some y /\ (y <= x)%Z.
Proof.
  intros Hvalid.
  assert (Hsorted : StronglySorted notBefore (sort compareCommits commits)).
  { unfold sort.
    assert (G : forall (l acc : list Commit),
               Forall (fun c => date c <> None) l ->
               Forall (fun c => date c <> None) acc ->
               StronglySorted notBefore acc ->
               StronglySorted notBefore
                 (fold_left (fun acc x => insertSorted compareCommits x acc) l acc)).
    { induction l as [|x l IH]; intros acc Hl Hacc Hs; simpl; auto.
      inversion Hl; subst. apply IH; auto.
      - apply Forall_forall. intros z Hz.
        apply (Permutation_in _ (insertSorted_Permutation compareCommits x acc)) in Hz.
        destruct Hz as [<- | Hz]; auto.
        now apply (proj1 (Forall_forall _ _) Hacc).
      - now apply insertSorted_sorted. }
    apply G; auto. constructor. }
  split; [apply sort_Permutation|]. split; [exact Hsorted|].
  intros latest others E c Hc.
  rewrite E in Hsorted. inversion Hsorted as [|? ? _ Hfirst]; subst.
  assert (Hin : In c (latest :: others)).
  { rewrite <- E. apply (Permutation_in _ (Permutation_sym (sort_Permutation _ _))).
    exact Hc. }
  assert (Hl : In latest commits).
  { apply (Permutation_in _ (sort_Permutation compareCommits commits)).
    rewrite E. now left. }
  pose proof (proj1 (Forall_forall _ _) Hvalid latest Hl) as Hvl.
  pose proof (proj1 (Forall_forall _ _) Hvalid c Hc) as Hvc.
  destruct (date latest) as [x|] eqn:Ex; [|congruence].
  destruct (date c) as [y|] eqn:Ey; [|congruence].
  exists x, y. repeat split.
  destruct Hin as [<- | Hin].
  - rewrite Ex in Ey. injection Ey as <-. lia.
  - apply (notBefore_dates latest c x y); auto.
    now apply (proj1 (Forall_forall _ _) Hfirst).
Qed.

Lemma latest_commit_first_witness :
  let c (d : Z) (repo : string) :=
    {| date := Some d; dir := repo; hash := Some "h"; isMergeCommit := false;
       parentCommits := [""] |} in
  Forall (fun c => date c <> None) [c 5%Z "prisma2"; c 9%Z "lift"; c 7%Z "photonjs"]
  /\ sort compareCommits [c 5%Z "prisma2"; c 9%Z "lift"; c 7%Z "photonjs"]
     = [c 9%Z "lift"; c 7%Z "photonjs"; c 5%Z "prisma2"]
  /\ StronglySorted notBefore
       (sort compareCommits [c 5%Z "prisma2"; c 9%Z "lift"; c 7%Z "photonjs"]).
Proof.
  cbv zeta.
  match goal with
  | |- Forall ?P ?l /\ _ =>
      assert (H : Forall P l) by (repeat constructor; discriminate);
      split; [exact H|]; split; [reflexivity|];
      exact (proj1 (proj2 (latest_commit_first l H)))
  end.
Defined.

(** ** Where the changes come from *)

Lemma getLatestCommit_dir h d t c :
  fst (getLatestCommit h d t) = Ok c -> dir c = d.
Proof.
  unfold getLatestCommit, bindIO.
  destruct (runResult h d gitLog t) as [[r|e] t1]; [|discriminate].
  destruct (split " " r); simpl; [discriminate|].
  now intros [= <-].
Qed.

Lemma getChangesFromCommit_Ok h c t cs t' :
  getChangesFromCommit h c t = (Ok cs, t') ->
  exists out,
    execa_command h t (dir c) (diffTree c) pipe true = Exited out
    /\ cs = pathsOf h c out /\ t' = t ++ [diffOf c].
Proof.
  unfold getChangesFromCommit, bindIO, runResult.
  destruct (execa_command h t (dir c) (diffTree c) pipe true) as [out|e];
    [|discriminate].
  destruct (0 <? String.length (trim out))%nat; [|discriminate].
  unfold ret. intros [= <- <-]. exists out. auto.
Qed.

Lemma all_cons_Ok {A} (m : io A) (rest : list (io A)) t l t' :
  all (m :: rest) t = (Ok l, t') ->
  exists a l' t1, m t = (Ok a, t1) /\ all rest t1 = (Ok l', t') /\ l = a :: l'.
Proof.
  cbn [all]. destruct (m t) as [r t1]. destruct (all rest t1) as [rs t2] eqn:Erest.
  destruct r as [a|e]; [|discriminate]. destruct rs as [l'|e]; [|discriminate].
  intros [= <- <-]. exists a, l', t1. auto.
Qed.

(** X11: the change set that [getLatestChanges] returns is made of the lines
    of diffs and of nothing else.  The three latest commits belong to the
    repositories prisma2, lift and photonjs, in this order; in the default
    mode the change set is the list of the lines that the diff of the first
    commit of the sorted array printed, each joined by [path.join] to the
    directory of that commit; with all repositories it is the lines of the
    three diffs, run one after the other in the order of the sorted array,
    each line joined to the directory of its commit. *)
Theorem changes_are_diff_lines (h : Host) (allRepos : bool) (t : list event)
        (changes : list string) :
  fst (getLatestChanges h allRepos t) = Ok changes ->
  exists commits t1,
    latestCommits h t = (Ok commits, t1)
    /\ map dir commits = repositories
    /\ if allRepos then
         exists c1 c2 c3 out1 out2 out3,
           sort compareCommits commits = [c1; c2; c3]
           /\ execa_command h t1 (dir c1) (diffTree c1) pipe true = Exited out1
           /\ execa_command h (t1 ++ [diffOf c1]) (dir c2) (diffTree c2) pipe true
              = Exited out2
           /\ execa_command h (t1 ++ [diffOf c1; diffOf c2]) (dir c3) (diffTree c3)
                            pipe true = Exited out3
           /\ changes = pathsOf h c1 out1 ++ pathsOf h c2 out2 ++ pathsOf h c3 out3
       else
         exists latest others out,
           sort compareCommits commits = latest :: others
           /\ execa_command h t1 (dir latest) (diffTree latest) pipe true = Exited out
           /\ changes = pathsOf h latest out.
Proof.
  unfold getLatestChanges, bindIO, latestCommits. cbn [map repositories].
  destruct (all _ t) as [[commits|e] t1] eqn:Eall; [|discriminate].
  intros Hrun. exists commits, t1. split; [reflexivity|].
  assert (Hdirs : map dir commits = repositories).
  { assert (H : fst (all [getLatestCommit h "prisma2"; getLatestCommit h "lift";
                            getLatestCommit h "photonjs"] t) = Ok commits)
      by now rewrite Eall.
    apply all_Ok in H.
    inversion H as [|m1 c1 ms1 l1 (u1 & H1) G1]; subst.
    inversion G1 as [|m2 c2 ms2 l2 (u2 & H2) G2]; subst.
    inversion G2 as [|m3 c3 ms3 l3 (u3 & H3) G3]; subst.
    inversion G3; subst.
    apply getLatestCommit_dir in H1, H2, H3. simpl. now rewrite H1, H2, H3. }
  split; [exact Hdirs|].
  assert (Hlen : List.length (sort compareCommits commits) = 3%nat).
  { rewrite sort_length, <- (length_map dir), Hdirs. reflexivity. }
  destruct (sort compareCommits commits) as [|c1 [|c2 [|c3 [|c4 more]]]];
    try discriminate.
  destruct allRepos.
  - destruct (all _ t1) as [[lists|e] t2] eqn:Elists; [|discriminate].
    simpl in Hrun. injection Hrun as <-.
    cbn [map] in Elists.
    apply all_cons_Ok in Elists. destruct Elists as (l1 & r1 & u1 & E1 & Elists & ->).
    apply all_cons_Ok in Elists. destruct Elists as (l2 & r2 & u2 & E2 & Elists & ->).
    apply all_cons_Ok in Elists. destruct Elists as (l3 & r3 & u3 & E3 & Elists & ->).
    cbn [all] in Elists. injection Elists as <- <-.
    apply getChangesFromCommit_Ok in E1. destruct E1 as (out1 & X1 & -> & ->).
    apply getChangesFromCommit_Ok in E2. destruct E2 as (out2 & X2 & -> & ->).
    apply getChangesFromCommit_Ok in E3. destruct E3 as (out3 & X3 & -> & _).
    rewrite <- app_assoc in X3.
    exists c1, c2, c3, out1, out2, out3.
    repeat split; auto. rewrite flatten_concat. simpl. now rewrite app_nil_r.
  - destruct (getChangesFromCommit h c1 t1) as [r t2] eqn:E1.
    simpl in Hrun. subst r.
    apply getChangesFromCommit_Ok in E1. destruct E1 as (out & X & -> & _).
    exists c1, [c2; c3], out. auto.
Qed.

Lemma changes_are_diff_lines_witness :
  let h := quietHost (fun _ => "cli/sdk/src/index.ts") None in
  fst (getLatestChanges h false []) = Ok ["photonjs/cli/sdk/src/index.ts"]
  /\ exists commits t1,
       latestCommits h [] = (Ok commits, t1)
       /\ map dir commits = repositories
       /\ exists latest others out,
            sort compareCommits commits = latest :: others
            /\ execa_command h t1 (dir latest) (diffTree latest) pipe true
               = Exited out
            /\ ["photonjs/cli/sdk/src/index.ts"] = pathsOf h latest out.
Proof.
  split; [reflexivity|].
  exact (changes_are_diff_lines
           (quietHost (fun _ => "cli/sdk/src/index.ts") None) false [] _ eq_refl).
Defined.

(** ** The new version of the core packages *)

(** X12: when BUILDKITE_TAG is set to a non-empty string,
    [getNewPrisma2Version] returns it without reading a package and without
    asking the registry; without it, a graph that lacks one of the two core
    packages makes the function throw a TypeError before any query is
    sent. *)
Theorem tag_overrides_version (h : Host) (packages : Packages) (t : list event) :
  (forall tag, BUILDKITE_TAG h = Some tag -> tag <> "" ->
     getNewPrisma2Version h packages t = (Ok tag, t))
  /\ (tagOverride h = None ->
      oget packages "prisma2" = None \/ oget packages "@prisma/photon" = None ->
      exists msg, getNewPrisma2Version h packages t = (Throw (TypeError msg), t)).
Proof.
  split.
  - intros tag Htag Hne. unfold getNewPrisma2Version, tagOverride.
    rewrite Htag. unfold truthy_string.
    destruct (String.eqb tag "") eqn:E; [|reflexivity].
    apply String.eqb_eq in E. contradiction.
  - intros Hnone Hmissing. unfold getNewPrisma2Version. rewrite Hnone.
    unfold versionOf, bindIO.
    destruct (oget packages "prisma2") as [p2|]; [|eexists; reflexivity].
    destruct Hmissing as [H | H]; [discriminate|].
    rewrite H. eexists. reflexivity.
Qed.

Lemma numberMax_atMost M a b : atMost M a -> atMost M b -> atMost M (numberMax a b).
Proof. destruct a, b; simpl; auto; try contradiction. lia. Qed.

Lemma numberMax_reached M a : atMost M a -> numberMax a (Finite M) = Finite M.
Proof. destruct a as [z| |]; simpl; intros H; try contradiction; auto. f_equal. lia. Qed.

Lemma numberMax_kept M b : atMost M b -> numberMax (Finite M) b = Finite M.
Proof. destruct b as [z| |]; simpl; intros H; try contradiction; auto. f_equal. lia. Qed.

Lemma Math_max_spec (values : list number) (M : Z) :
  In (Finite M) values -> Forall (atMost M) values -> Math_max values = Finite M.
Proof.
  unfold Math_max.
  assert (G : forall l acc,
             atMost M acc -> Forall (atMost M) l ->
             acc = Finite M \/ In (Finite M) l ->
             fold_left numberMax l acc = Finite M).
  { induction l as [|a l IH]; simpl; intros acc Hacc Hl Hin.
    - destruct Hin; [assumption | contradiction].
    - inversion Hl as [|? ? Ha Hl']; subst.
      apply IH; auto using numberMax_atMost.
      destruct Hin as [-> | [-> | Hin]]; auto; left.
      + now apply numberMax_kept.
      + now apply numberMax_reached. }
  intros Hin Hall. apply G; simpl; auto.
Qed.

(** X13: when some non-blank version string among those given shows the
    positive increment M and no string shows a greater one,
    [getNewPrisma2Version] computes the version 2.0.0-alpha.(M+1); M is
    below 2^53, where the numbers of the runtime are exact. *)
Theorem nextAlpha_max_plus_one (versions : list string) (v : string) (M : Z) :
  In v versions -> trim v <> "" -> alphaOf v = Some (Finite M) ->
  (0 < M < 2 ^ 53)%Z ->
  (forall v' n, In v' versions -> alphaOf v' = Some n -> atMost M n) ->
  nextAlpha versions = ("2.0.0-alpha." ++ decimal (M + 1))%string.
Proof.
  intros Hv Hblank Halpha HM Hmax. unfold nextAlpha.
  rewrite (Math_max_spec _ M).
  - simpl plusOne. rewrite roundToDouble_exact by lia.
    rewrite numberToString_exact by lia. reflexivity.
  - unfold somes. apply in_flat_map. exists (Some (Finite M)).
    split; [|now left]. apply filter_In. split.
    + apply in_map_iff. exists v. split; [assumption|].
      apply filter_In. split; [assumption|].
      destruct (trim v); [contradiction | reflexivity].
    + simpl. destruct (Z.eqb_spec M 0); [lia | reflexivity].
  - apply Forall_forall. intros n Hn. unfold somes in Hn.
    apply in_flat_map in Hn. destruct Hn as ([n'|] & Hin & Hn); [|contradiction].
    destruct Hn as [<- | []]. apply filter_In in Hin. destruct Hin as [Hin _].
    apply in_map_iff in Hin. destruct Hin as (v' & E & Hv').
    apply filter_In in Hv'. destruct Hv' as [Hv' _].
    now apply (Hmax v').
Qed.

Lemma nextAlpha_max_plus_one_witness :
  In "2.0.0-alpha.7" ["2.0.0-alpha.3"; "2.0.0-alpha.7"; "2.0.0"; " "]
  /\ alphaOf "2.0.0-alpha.7" = Some (Finite 7)
  /\ nextAlpha ["2.0.0-alpha.3"; "2.0.0-alpha.7"; "2.0.0"; " "] = "2.0.0-alpha.8".
Proof.
  split; [simpl; auto|]. split; [reflexivity|].
  apply (nextAlpha_max_plus_one
           ["2.0.0-alpha.3"; "2.0.0-alpha.7"; "2.0.0"; " "] "2.0.0-alpha.7" 7).
  - simpl; auto.
  - vm_compute. discriminate.
  - reflexivity.
  - lia.
  - intros v' n [<- | [<- | [<- | [<- | []]]]] E; vm_compute in E;
      try discriminate; injection E as <-; simpl; lia.
Defined.

(** ** The publish pass *)

(** X14: for a package outside the core set, the upgrade of its
    dependencies is tried a second time when it fails: if the second try
    fails too, [publishPackage] throws its error and the package is not
    published; if it succeeds, the publish command is run, on the tag
    latest and with the patch increment of the version of the package. *)
Theorem upgrade_retried_once (h : Host) (packages : Packages)
        (prisma2Version pkgName : string) (pkg : Package) (t : list event)
        (first : ExecaError) :
  isPrisma2OrPhoton pkgName = false ->
  oget packages pkgName = Some pkg ->
  execa_command h
    (t ++ [Publishing pkgName (showNullable (patch (version pkg))) "latest"])
    (path_dirname h (path pkg)) upgrade inherit true = Failed first ->
  (forall second,
      execa_command h
        (t ++ [Publishing pkgName (showNullable (patch (version pkg))) "latest";
               Spawn (path_dirname h (path pkg)) upgrade inherit true])
        (path_dirname h (path pkg)) upgrade inherit true = Failed second ->
      publishPackage h packages prisma2Version pkgName t
      = (Throw (runError h (path_dirname h (path pkg)) upgrade second),
         t ++ [Publishing pkgName (showNullable (patch (version pkg))) "latest";
               Spawn (path_dirname h (path pkg)) upgrade inherit true;
               Spawn (path_dirname h (path pkg)) upgrade inherit true]))
  /\ (forall out,
      execa_command h
        (t ++ [Publishing pkgName (showNullable (patch (version pkg))) "latest";
               Spawn (path_dirname h (path pkg)) upgrade inherit true])
        (path_dirname h (path pkg)) upgrade inherit true = Exited out ->
      snd (publishPackage h packages prisma2Version pkgName t)
      = t ++ [Publishing pkgName (showNullable (patch (version pkg))) "latest";
              Spawn (path_dirname h (path pkg)) upgrade inherit true;
              Spawn (path_dirname h (path pkg)) upgrade inherit true;
              Spawn (path_dirname h (path pkg))
                    (publishCommand "latest" (patch (version pkg)))
                    inherit true]).
Proof.
  intros Hcore Hpkg Hfirst.
  assert (Hstart :
            publishPackage h packages prisma2Version pkgName t
            = bindIO (run h (path_dirname h (path pkg)) upgrade)
                (fun _ => run h (path_dirname h (path pkg))
                            (publishCommand "latest" (patch (version pkg))))
                ((t ++ [Publishing pkgName (showNullable (patch (version pkg)))
                                   "latest"])
                 ++ [Spawn (path_dirname h (path pkg)) upgrade inherit true])).
  { unfold publishPackage, lookupPackage, tagFor, newVersionFor.
    rewrite Hpkg, Hcore, andb_false_r.
    unfold bindIO at 1. cbv beta iota delta [ret].
    unfold bindIO at 1. unfold emit at 1. cbv beta iota.
    unfold bindIO at 1. unfold tryCatch, run at 1.
    now rewrite Hfirst. }
  rewrite Hstart, <- app_assoc. cbn [app].
  split.
  - intros second Hsecond. unfold bindIO, run at 1. rewrite Hsecond.
    now rewrite <- app_assoc.
  - intros out Hsecond. unfold bindIO, run at 1. rewrite Hsecond.
    unfold run.
    match goal with
    | |- snd (match ?x with _ => _ end) = _ => destruct x
    end; simpl; now rewrite <- !app_assoc.
Qed.

Lemma upgrade_retried_once_witness :
  let packages :=
    getPackageDependencies
      (getPackages [onDisk "lift" "@prisma/lift" "0.3.1" [] []]) in
  isPrisma2OrPhoton "@prisma/lift" = false
  /\ snd (publishPackage (flakyHost 2) packages "2.0.0-alpha.8" "@prisma/lift" [])
     = [ Publishing "@prisma/lift" "0.3.2" "latest";
         Spawn "lift" upgrade inherit true;
         Spawn "lift" upgrade inherit true;
         Spawn "lift" "yarn publish --tag latest --new-version 0.3.2" inherit true ].
Proof.
  split; [reflexivity|].
  exact (proj2 (upgrade_retried_once (flakyHost 2)
                  (getPackageDependencies
                     (getPackages [onDisk "lift" "@prisma/lift" "0.3.1" [] []]))
                  "2.0.0-alpha.8" "@prisma/lift"
                  (recordOf (getPackageDependencies
                               (getPackages [onDisk "lift" "@prisma/lift" "0.3.1" [] []]))
                            "@prisma/lift")
                  [] (failure "network") eq_refl eq_refl eq_refl)
               "" eq_refl).
Defined.

Lemma publishPackage_rule h (packages : Packages) v n :
  emits (publishPackage h packages v n) (versionRule packages v).
Proof.
  unfold publishPackage.
  apply emits_bind_ok; [apply emits_lookupPackage|].
  intros pkg [t Hpkg]. apply lookupPackage_Ok in Hpkg. cbv zeta.
  apply emits_bind.
  - apply emits_emit. unfold versionRule, tagFor, newVersionFor.
    destruct (isPrisma2OrPhoton n).
    + rewrite andb_true_r. split; reflexivity.
    + rewrite andb_false_r. split; [reflexivity|]. eauto.
  - intros _. apply emits_bind.
    + destruct (isPrisma2OrPhoton n); [apply emits_ret|].
      apply emits_tryCatch; [|intros _]; now apply emits_run.
    + intros _. now apply emits_run.
Qed.

(** X15: in the publish pass every announcement follows one rule, whatever
    the batches: a core package (prisma2, @prisma/photon) is announced with
    the version that [getNewPrisma2Version] returned, on the tag alpha when
    that version contains alpha and on latest otherwise; any other package
    is announced on latest with the patch increment of its own version. *)
Theorem publish_pass_versions (h : Host) (packages : Packages)
        (publishOrder : list (list string)) (t : list event) (v : string) :
  fst (getNewPrisma2Version h packages t) = Ok v ->
  exists new,
    snd (publishPackages h packages publishOrder t) = t ++ new
    /\ Forall (versionRule packages v) new.
Proof.
  intros Hv. unfold publishPackages, bindIO.
  destruct (emits_getNewPrisma2Version h packages t) as (queries & Eq & Fq).
  destruct (getNewPrisma2Version h packages t) as [r t1].
  simpl in Hv, Eq. subst r t1.
  assert (Hloop : emits (forEach (fun currentBatch =>
                                    forEach (publishPackage h packages v) currentBatch)
                                 publishOrder)
                        (versionRule packages v)).
  { apply emits_forEach. intros batch _. apply emits_forEach.
    intros n _. apply publishPackage_rule. }
  destruct (Hloop (t ++ queries)) as (new & En & Fn).
  exists (queries ++ new). rewrite En, app_assoc. split; [reflexivity|].
  apply Forall_app. split; [|assumption].
  eapply Forall_impl; [|exact Fq].
  intros [cwd cmd io shell| |]; simpl; tauto.
Qed.

Lemma publish_pass_versions_witness :
  let h := quietHost (fun _ => "2.0.0-alpha.3") None in
  let packages := coreWorkspace "2.0.0-alpha.3" in
  fst (getNewPrisma2Version h packages []) = Ok "2.0.0-alpha.4"
  /\ exists new,
       snd (publishPackages h packages [["@prisma/photon"]; ["prisma2"]] [])
       = [] ++ new
       /\ Forall (versionRule packages "2.0.0-alpha.4") new.
Proof.
  split; [reflexivity|].
  exact (publish_pass_versions (quietHost (fun _ => "2.0.0-alpha.3") None)
           (coreWorkspace "2.0.0-alpha.3") [["@prisma/photon"]; ["prisma2"]] []
           "2.0.0-alpha.4" eq_refl).
Defined.

(** ** The test pass *)

Lemma forEach_app {A} (f : A -> io unit) (l1 l2 : list A) t t1 :
  forEach f l1 t = (Ok tt, t1) -> forEach f (l1 ++ l2) t = forEach f l2 t1.
Proof.
  revert t. induction l1 as [|x l1 IH]; simpl; intros t.
  - unfold ret. now intros [= ->].
  - unfold bindIO. destruct (f x t) as [[[]|e] t']; [apply IH | discriminate].
Qed.

(** X16: the test pass stops at the first package whose tests fail: when
    the packages before it in the flattened order went through and yarn
    test fails in the directory of a package that declares a test script,
    [testPackages] throws the error of that command, and nothing is run
    for the packages after it. *)
Theorem test_failure_aborts (h : Host) (packages : Packages)
        (publishOrder : list (list string)) (before after : list string)
        (pkgName : string) (pkg : Package) (t t1 : list event) (e : ExecaError) :
  flatten publishOrder = before ++ pkgName :: after ->
  forEach (testPackage h packages) before t = (Ok tt, t1) ->
  oget packages pkgName = Some pkg ->
  tested pkg ->
  execa_command h (t1 ++ [Testing (name pkg)]) (path_dirname h (path pkg))
                "yarn test" inherit true = Failed e ->
  testPackages h packages publishOrder t
  = (Throw (runError h (path_dirname h (path pkg)) "yarn test" e),
     t1 ++ [Testing (name pkg);
            Spawn (path_dirname h (path pkg)) "yarn test" inherit true]).
Proof.
  intros Hflat Hbefore Hpkg (s & cmd & Hs & Hcmd & Htruthy) Hfail.
  unfold testPackages. rewrite Hflat.
  rewrite (forEach_app _ before (pkgName :: after) t t1 Hbefore).
  cbn [forEach]. unfold bindIO at 1.
  assert (Hone : testPackage h packages pkgName t1
                 = (Throw (runError h (path_dirname h (path pkg)) "yarn test" e),
                    t1 ++ [Testing (name pkg);
                           Spawn (path_dirname h (path pkg)) "yarn test"
                                 inherit true])).
  { unfold testPackage, lookupPackage, hasTestScript, bindIO.
    rewrite Hpkg. cbv beta iota delta [ret].
    rewrite Hs. cbv beta iota. rewrite Hcmd, Htruthy.
    cbv beta iota delta [emit run]. rewrite Hfail. now rewrite <- app_assoc. }
  now rewrite Hone.
Qed.

Lemma test_failure_aborts_witness :
  let packages := getPackageDependencies chainWorkspace in
  flatten [["@prisma/c"]; ["@prisma/b"]; ["@prisma/a"]]
  = [] ++ "@prisma/c" :: ["@prisma/b"; "@prisma/a"]
  /\ snd (testPackages (flakyHost 9) packages
            [["@prisma/c"]; ["@prisma/b"]; ["@prisma/a"]] [])
     = [Testing "@prisma/c"; Spawn "pkgs/c" "yarn test" inherit true].
Proof.
  split; [reflexivity|].
  exact (f_equal snd
           (test_failure_aborts (flakyHost 9) (getPackageDependencies chainWorkspace)
              [["@prisma/c"]; ["@prisma/b"]; ["@prisma/a"]] []
              ["@prisma/b"; "@prisma/a"] "@prisma/c"
              (recordOf (getPackageDependencies chainWorkspace) "@prisma/c")
              [] [] (failure "network") eq_refl eq_refl eq_refl
              (ex_intro _ [("test", "jest")]
                 (ex_intro _ "jest" (conj eq_refl (conj eq_refl eq_refl))))
              eq_refl)).
Defined.

(** X17: a package that has scripts but no test script is passed over in
    silence: when that holds of every package of the order, the test pass
    succeeds without running a command or printing a package. *)
Theorem nothing_to_test (h : Host) (packages : Packages)
        (publishOrder : list (list string)) (t : list event) :
  (forall n, In n (flatten publishOrder) -> untested packages n) ->
  testPackages h packages publishOrder t = (Ok tt, t).
Proof.
  unfold testPackages. generalize (flatten publishOrder) as order.
  induction order as [|n order IH]; intros Hall; [reflexivity|].
  cbn [forEach]. unfold bindIO at 1.
  assert (Hone : testPackage h packages n t = (Ok tt, t)).
  { destruct (Hall n (or_introl eq_refl)) as (pkg & s & Hpkg & Hs & Htest).
    unfold testPackage, lookupPackage, hasTestScript, bindIO.
    rewrite Hpkg. cbv beta iota delta [ret]. rewrite Hs. cbv beta iota.
    destruct (oget s "test"); [now rewrite Htest | reflexivity]. }
  rewrite Hone. apply IH. intros m Hm. apply Hall. now right.
Qed.

Lemma nothing_to_test_witness :
  let pkg := {| name := "@prisma/docs"; path := "docs/package.json";
                version := "1.0.0"; usedBy := []; usedByDev := [];
                uses := []; usesDev := [];
                packageJson := {| pj_name := Some "@prisma/docs";
                                  pj_version := "1.0.0";
                                  dependencies := None; devDependencies := None;
                                  scripts := Some [("build", "tsc")] |} |} in
  untested [("@prisma/docs", pkg)] "@prisma/docs"
  /\ testPackages (flakyHost 9) [("@prisma/docs", pkg)] [["@prisma/docs"]] []
     = (Ok tt, []).
Proof.
  cbv zeta.
  match goal with
  | |- untested ?g ?n /\ _ =>
      assert (H : untested g n)
        by (eexists; eexists; repeat split; reflexivity);
      split; [exact H|];
      apply (nothing_to_test (flakyHost 9) g [[n]] []);
      intros m [<- | []]; exact H
  end.
Defined.

(** ** What the cycle detector finds, and what it leaves to the planner *)

(** X18: on a graph built by [getPackageDependencies], the cycle detector
    reports something exactly when two packages of the graph depend on
    each other directly (or one depends on itself), each through its
    dependencies or its development dependencies. *)
Theorem circles_are_mutual (packages : RawPackages) :
  getCircularDependencies (getPackageDependencies packages) <> []
  <-> exists P Q,
        In P (values (getPackageDependencies packages))
        /\ In Q (values (getPackageDependencies packages))
        /\ In (name Q) (uses P ++ usesDev P)
        /\ In (name P) (uses Q ++ usesDev Q).
Proof.
  split.
  - intros Hne. rewrite getCircularDependencies_filter in Hne.
    destruct (filter _ _) as [|circles rest] eqn:E; [congruence|].
    assert (Hin : In circles
                     (filter (fun circles => (0 <? List.length circles)%nat)
                             (map circlesOf
                                  (values (getPackageDependencies packages)))))
      by (rewrite E; now left).
    apply filter_In in Hin. destruct Hin as [Hin Hlen].
    apply in_map_iff in Hin. destruct Hin as (Q & <- & HQ).
    destruct (circlesOf Q) as [|n others] eqn:Ec; [discriminate|].
    assert (Hn : In n (circlesOf Q)) by (rewrite Ec; now left).
    apply intersection_In in Hn. destruct Hn as [Huses HusedBy].
    pose proof (usedBy_in_graph _ _ _ HQ HusedBy) as Hkey.
    apply In_key_oget in Hkey. destruct Hkey as [P HP].
    apply oget_Some_In in HP.
    pose proof (getPackageDependencies_name _ _ _ HP) as Hname.
    assert (HPv : In P (values (getPackageDependencies packages))).
    { change P with (snd (n, P)). now apply in_map. }
    subst n. exists P, Q. repeat split; auto.
    destruct (usedBy_sound _ _ _ HPv HQ) as [H1 H2].
    apply in_app_iff in HusedBy. apply in_app_iff. tauto.
  - intros (P & Q & HP & HQ & HPQ & HQP).
    assert (H : (0 <? List.length
                       (getCircularDependencies (getPackageDependencies packages)))%nat
                = true).
    { apply (circles_found _ Q (name P)); auto.
      destruct (usedBy_complete _ _ _ HP HQ) as [H1 H2].
      apply in_app_iff in HPQ. apply in_app_iff. tauto. }
    destruct (getCircularDependencies _); [discriminate | congruence].
Qed.

(** X19: a cycle that the detector does not see, for want of two packages
    that depend on each other directly, stops the script in the planner as
    soon as the change set makes its packages affected: [publish] throws
    the error of the topological sort, and has run nothing but the queries
    of [getLatestChanges]: no test and no publication. *)
Theorem longer_cycle_stops_in_planner
        (h : Host) (publishFlag allRepos : bool) (manifests : list RawPackage)
        (t : list event) (changes : list string) (a : Packages) :
  (forall s, path_dirname h s <> "") ->
  getCircularDependencies (getPackageDependencies (getPackages manifests)) = [] ->
  fst (getLatestChanges h allRepos t) = Ok changes ->
  getPackagesAffectedByChange (path_dirname h)
    (getPackageDependencies (getPackages manifests)) changes = Some (Ok a) ->
  cyclic a ->
  fst (publish h publishFlag allRepos manifests t) = Throw cycleError
  /\ snd (publish h publishFlag allRepos manifests t)
     = snd (getLatestChanges h allRepos t).
Proof.
  intros Hdir Hnone Hchanges Haffected Hcyclic.
  assert (Horder : getPublishOrder a = Some (Throw cycleError)).
  { pose proof (affected_stored _ _ _ _ (getPackageDependencies_wellFormed _)
                  Haffected) as Hstored.
    unfold getPublishOrder. apply topo_cyclic_any.
    destruct Hcyclic as [x Hx]. exists x.
    assert (G : forall u v, clos_trans string (dependsOn a) u v ->
                  clos_trans string (edge (dagOf a)) v u).
    { induction 1; [apply t_step; now apply dagOf_edge_stored
                   | eapply t_trans; eauto]. }
    now apply G. }
  assert (E : publish h publishFlag allRepos manifests t
              = (Throw cycleError, snd (getLatestChanges h allRepos t))).
  { unfold publish. cbv zeta. rewrite Hnone.
    change (0 <? List.length (@nil (list string)))%nat with false. cbv iota.
    unfold bindIO.
    destruct (getLatestChanges h allRepos t) as [r t1]. simpl in Hchanges. subst r.
    rewrite Haffected. cbv beta iota delta [ofFuel ret].
    rewrite Horder. reflexivity. }
  rewrite E. split; reflexivity.
Qed.

Lemma longer_cycle_stops_in_planner_witness :
  let h := quietHost (fun _ => "a/index.ts") None in
  getCircularDependencies (getPackageDependencies (getPackages circleManifests)) = []
  /\ fst (getLatestChanges h true [])
     = Ok ["photonjs/a/index.ts"; "lift/a/index.ts"; "prisma2/a/index.ts"]
  /\ fst (publish h false true circleManifests []) = Throw cycleError.
Proof.
  split; [reflexivity|]. split; [reflexivity|].
  refine (proj1 (longer_cycle_stops_in_planner
                   (quietHost (fun _ => "a/index.ts") None) false true
                   circleManifests []
                   ["photonjs/a/index.ts"; "lift/a/index.ts"; "prisma2/a/index.ts"]
                   _ posix_dirname_nonempty eq_refl eq_refl _ _)).
  - vm_compute. reflexivity.
  - exists "@prisma/a".
    apply t_trans with "@prisma/b"; [|apply t_trans with "@prisma/c"];
      apply t_step; unfold dependsOn; eexists;
      (split; [simpl; auto 6 | simpl; tauto]).
Defined.

(** ** The two modes *)

Lemma query_testMode ev : isQuery ev -> testModeEvent ev.
Proof. destruct ev as [cwd cmd [|] [|]| |]; simpl; tauto. Qed.

Lemma query_publishMode ev : isQuery ev -> publishModeEvent ev.
Proof. destruct ev as [cwd cmd [|] [|]| |]; simpl; tauto. Qed.

Lemma testPackage_testMode h (packages : Packages) n :
  emits (testPackage h packages n) testModeEvent.
Proof.
  unfold testPackage.
  apply emits_bind; [apply emits_lookupPackage|]. intros pkg.
  apply emits_bind.
  - unfold hasTestScript. destruct (scripts (packageJson pkg));
      auto using emits_ret, emits_throw.
  - intros [|]; [|apply emits_ret].
    apply emits_bind; [now apply emits_emit | intros _; now apply emits_run].
Qed.

Lemma publishPackage_publishMode h (packages : Packages) v n :
  emits (publishPackage h packages v n) publishModeEvent.
Proof.
  unfold publishPackage.
  apply emits_bind; [apply emits_lookupPackage|]. intros pkg. cbv zeta.
  apply emits_bind; [now apply emits_emit|]. intros _.
  apply emits_bind.
  - destruct (isPrisma2OrPhoton n); [apply emits_ret|].
    apply emits_tryCatch; [|intros _]; apply emits_run; now left.
  - intros _. apply emits_run. right.
    exists (tagFor v n), (newVersionFor v n pkg). split; [|reflexivity].
    unfold tagFor. destruct (_ && _); auto.
Qed.

Lemma publish_mode h (publishFlag allRepos : bool) manifests (P : event -> Prop) :
  (forall ev, isQuery ev -> P ev) ->
  (forall packages order,
      emits (if publishFlag return io unit
             then publishPackages h packages order
             else testPackages h packages order) P) ->
  emits (publish h publishFlag allRepos manifests) P.
Proof.
  intros Hquery Hpass. unfold publish. cbv zeta.
  destruct (0 <? List.length _)%nat; [apply emits_throw|].
  apply emits_bind.
  { apply (emits_weaken _ isQuery); auto. apply emits_getLatestChanges. }
  intros changes. apply emits_bind; [apply emits_ofFuel|].
  intros changedPackages. apply emits_bind; [apply emits_ofFuel|].
  intros publishOrder. apply (Hpass changedPackages (skipn 3 publishOrder)).
Qed.

(** X20: the two modes of the script do not mix.  Without the publish flag
    nothing is announced for publication, and yarn test is the only command
    run with the output handed through; with the flag no test is run, and
    the commands run that way are the upgrade of the scoped dependencies
    and yarn publish on the tag alpha or latest. *)
Theorem modes_are_exclusive (h : Host) (allRepos : bool)
        (manifests : list RawPackage) :
  emits (publish h false allRepos manifests) testModeEvent
  /\ emits (publish h true allRepos manifests) publishModeEvent.
Proof.
  split; apply publish_mode.
  - apply query_testMode.
  - intros packages order. unfold testPackages. apply emits_forEach.
    intros n _. apply testPackage_testMode.
  - apply query_publishMode.
  - intros packages order. unfold publishPackages. apply emits_bind.
    + apply (emits_weaken _ isQuery); [apply query_publishMode|].
      apply emits_getNewPrisma2Version.
    + intros v. apply emits_forEach. intros batch _. apply emits_forEach.
      intros n _. apply publishPackage_publishMode.
Qed.

(** ** The bootstrap script *)

(** X21: [cloneOrPull] runs one command: the pull inside the repository
    when its directory exists beside the scripts, the clone from the prisma
    organisation on GitHub otherwise.  [initPackage] builds a package only
    after its dependencies were installed: a failed installation is thrown
    and the build is not started. *)
Theorem setup_steps (h : Host) (t : list event) :
  (forall repo,
      snd (Setup.cloneOrPull h repo t)
      = t ++ [if fs_existsSync h (path_join h [dirname__ h; "../"; repo])
              then Spawn repo "git pull origin master" inherit false
              else Spawn "." ("git clone https://github.com/prisma/" ++ repo ++ ".git")
                         inherit false])
  /\ (forall packageName e,
         execa_command h t packageName npmInstall inherit false = Failed e ->
         exists err,
           Setup.initPackage h packageName t
           = (Throw err, t ++ [Spawn packageName npmInstall inherit false]))
  /\ (forall packageName out,
         execa_command h t packageName npmInstall inherit false = Exited out ->
         snd (Setup.initPackage h packageName t)
         = t ++ [Spawn packageName npmInstall inherit false;
                 Spawn packageName "yarn build" inherit false]).
Proof.
  split; [|split].
  - intros repo. unfold Setup.cloneOrPull, Setup.run, Setup.repoUrl.
    destruct (fs_existsSync h _);
      match goal with
      | |- snd (match ?x with _ => _ end) = _ => destruct x
      end; reflexivity.
  - intros packageName e Hfail.
    unfold Setup.initPackage, bindIO, Setup.run at 1.
    fold npmInstall. rewrite Hfail. eexists. reflexivity.
  - intros packageName out Hok.
    unfold Setup.initPackage, bindIO, Setup.run at 1.
    fold npmInstall. rewrite Hok. unfold Setup.run.
    match goal with
    | |- snd (match ?x with _ => _ end) = _ => destruct x
    end; simpl; now rewrite <- app_assoc.
Qed.
